(** * Yes/No speaking trainer: a shallow embedding of [src/App.jsx]

    The development follows the source file top to bottom:

    - [Str]         the string built-ins used by [parseYesNo];
    - [Classifier]  [parseYesNo] and its two phrase lists;
    - [Model]       the React state of the component, its refs, the pending
                    timeouts and the pending speech callbacks;
    - [Controller]  [ask], [reveal], [fastReveal], [goNext], [buildSession],
                    the recognition handler and the event loop;
    - [Double]      rounding to a double, for the numbers of the browser;
    - [Json]        JSON values and the browser's [JSON] object, with a
                    reference implementation;
    - [Persist]     the import handler and [exportItems];
    - [Editing]     the topic list, [addNewItem], the field editors and the
                    delete button;
    - [Normal], [Flow]  notions for the classifier and the practice flow;
    - [Storage]     [loadFromLocalStorage] and [saveToLocalStorage];
    - [SelfTest]    the self-tests of [parseYesNo];
    - [SessionSpec] the pool of a session in the words of the specification.

    How the component is modelled.  A function declared in the component
    body is created anew by every render and sees the state of that render:
    [ask r], [reveal r], [goNext r], [fastReveal r] take the render [r] they
    were created in, next to the world [w] they update.  Handlers bound in
    JSX are those of the latest render; a callback handed to [setTimeout],
    to [speak] or to the recognition object keeps the render it was created
    in.  State updates of one handler are committed together, and the
    effect on [[sessionCursor, currentIndex]] runs after the render that
    follows.  Refs ([practiceTimerRef], [autoAdvanceRef]) are shared by all
    renders.  Time is not modelled: a pending timeout may fire at any
    moment, and so may the end of a pending utterance.

    Transcripts are strings of bytes: [toLowerCase] acts on the ASCII letters
    and [trim] on the ASCII white space, as the browser does on transcripts
    of ASCII characters.  Ids are whole numbers.  The numbers of a JSON
    value are the whole numbers and [NaN], [Infinity], [-Infinity]; a
    number with a fractional part is outside the model. *)

From Stdlib Require Import List Bool Arith ZArith Lia String Ascii Permutation.
From Stdlib Require Import DecimalString DecimalZ DecimalPos.
Import ListNotations.

Set Warnings "-register-all".

Local Open Scope string_scope.
Local Open Scope list_scope.
Local Open Scope nat_scope.

(* ================================================================== *)
(** ** String built-ins *)

Module Str.

(** [String.prototype.toLowerCase], on the ASCII letters. *)
Definition lower_ascii (c : ascii) : ascii :=
  let n := nat_of_ascii c in
  if (65 <=? n) && (n <=? 90) then ascii_of_nat (n + 32) else c.

Fixpoint toLowerCase (s : string) : string :=
  match s with
  | EmptyString => EmptyString
  | String c s' => String (lower_ascii c) (toLowerCase s')
  end.

(** White space removed by [String.prototype.trim]: TAB, LF, VT, FF, CR and
    the space. *)
Definition is_space (c : ascii) : bool :=
  let n := nat_of_ascii c in
  ((9 <=? n) && (n <=? 13)) || (n =? 32).

Fixpoint trimStart (s : string) : string :=
  match s with
  | EmptyString => EmptyString
  | String c s' => if is_space c then trimStart s' else s
  end.

Fixpoint trimEnd (s : string) : string :=
  match s with
  | EmptyString => EmptyString
  | String c s' =>
      match trimEnd s' with
      | EmptyString => if is_space c then EmptyString else String c EmptyString
      | t => String c t
      end
  end.

Definition trim (s : string) : string := trimEnd (trimStart s).

(** [t.startsWith(w)] *)
Fixpoint startsWith (t w : string) {struct w} : bool :=
  match w, t with
  | EmptyString, _ => true
  | String _ _, EmptyString => false
  | String a w', String b t' => Ascii.eqb a b && startsWith t' w'
  end.

(** [t.includes(w)]: [w] occurs somewhere in [t]. *)
Fixpoint includes (t w : string) : bool :=
  startsWith t w ||
  match t with
  | EmptyString => false
  | String _ t' => includes t' w
  end.

End Str.

(* ================================================================== *)
(** ** Transcript classifier ([parseYesNo], App.jsx 57-69) *)

Module Classifier.

(** The two non-null results of [parseYesNo]; [null] is [None]. *)
Inductive YesNo : Type := yes | no.

Definition yesWords : list string :=
  ["yes"; "yeah"; "yep"; "yup"; "sure"; "of course"; "i do"; "i did";
   "i am"; "i will"; "i can"; "it is"].

Definition noWords : list string :=
  ["no"; "nope"; "nah"; "not"; "i don't"; "i did not"; "i didn't";
   "i am not"; "i won't"; "i will not"; "i can't"; "cannot"; "it isn't";
   "it is not"].

(** The predicate passed to [some]:
    [w => t.startsWith(w) || t.includes(` ${w} `) || t === w]. *)
Definition phrase_matches (t w : string) : bool :=
  Str.startsWith t w || Str.includes t (" " ++ w ++ " ")%string || String.eqb t w.

(** [transcript.toLowerCase().trim()] *)
Definition normalize (transcript : string) : string :=
  Str.trim (Str.toLowerCase transcript).

(** [parseYesNo(transcript)]. A missing transcript ([null], [undefined]) is
    [None]; it and the empty string are the falsy inputs of the first line. *)
Definition parseYesNo (transcript : option string) : option YesNo :=
  match transcript with
  | None => None
  | Some EmptyString => None
  | Some s =>
      let t := normalize s in
      if existsb (phrase_matches t) yesWords then Some yes
      else if existsb (phrase_matches t) noWords then Some no
      else None
  end.

(** *** The two readings of the specification *)

(** The matching rule, in the words of the specification: the normalized
    transcript equals the phrase, starts with it, or contains it surrounded
    by spaces. *)
Definition matches_rule (t w : string) : Prop :=
  t = w \/ (exists r, t = (w ++ r)%string)
  \/ (exists a b, t = (a ++ (" " ++ w ++ " ") ++ b)%string).

(** "As a whole word/phrase, not as a substring of an unrelated word", in
    the weakest reading: some occurrence of [w] in [t] has no letter right
    before it and no letter right after it. [atStart] tells whether the
    character before the current position is absent or not a letter. *)
Definition isLetter (c : ascii) : bool :=
  let n := nat_of_ascii c in (97 <=? n) && (n <=? 122).

Definition endsWord (rest : string) : bool :=
  match rest with
  | EmptyString => true
  | String c _ => negb (isLetter c)
  end.

Fixpoint dropPrefix (w t : string) {struct w} : option string :=
  match w, t with
  | EmptyString, _ => Some t
  | String _ _, EmptyString => None
  | String a w', String b t' => if Ascii.eqb a b then dropPrefix w' t' else None
  end.

Fixpoint wholeWordFrom (atStart : bool) (t w : string) : bool :=
  (atStart && match dropPrefix w t with Some rest => endsWord rest | None => false end)
  || match t with
     | EmptyString => false
     | String c t' => wholeWordFrom (negb (isLetter c)) t' w
     end.

Definition occursAsWholeWord (t w : string) : bool := wholeWordFrom true t w.

End Classifier.

(* ================================================================== *)
(** ** Data model of the component ([YesNoSpeakingTrainer], App.jsx 72-134) *)

Module Model.

(** A question item, as [defaultItems] and [addNewItem] build it. *)
Record Item : Type := {
  id : Z;
  topic : string;
  question : string;
  yesSample : string;
  noSample : string
}.

Definition defaultItems : list Item :=
  [ {| id := 1; topic := "Daily Life"; question := "Do you like coffee?";
       yesSample := "Yes, I do."; noSample := "No, I don't." |};
    {| id := 2; topic := "General Knowledge";
       question := "Is Tokyo the capital of Japan?";
       yesSample := "Yes, it is."; noSample := "No, it isn't." |};
    {| id := 3; topic := "Study"; question := "Did you study English yesterday?";
       yesSample := "Yes, I did."; noSample := "No, I didn't." |};
    {| id := 4; topic := "Plans"; question := "Will you go out this weekend?";
       yesSample := "Yes, I will."; noSample := "No, I won't." |};
    {| id := 5; topic := "Abilities"; question := "Can you swim?";
       yesSample := "Yes, I can."; noSample := "No, I can't." |} ].

(** [phase]: ['idle' | 'practice' | 'reveal']. *)
Inductive Phase : Type := Idle | Practice | Reveal.

Definition Phase_eqb (a b : Phase) : bool :=
  match a, b with
  | Idle, Idle | Practice, Practice | Reveal, Reveal => true
  | _, _ => false
  end.

(** [needed]: [{ yes, no }], the answer completion tracker. *)
Record Needed : Type := { yes : bool; no : bool }.

(** The values of the [useState] hooks that the practice flow reads. One
    [RState] is what the closures created during one render see. *)
Record RState : Type := {
  items : list Item;
  currentIndex : nat;
  listening : bool;
  recognized : string;
  random : bool;
  useTTS : bool;
  needed : Needed;
  practiceSec : nat;
  phase : Phase;
  selectedTopic : string;
  sessionSet : option (list Z);   (* null | number[] *)
  sessionCursor : nat
}.

(** Callbacks handed to [setTimeout]. A closure carries the render it was
    created in. *)
Inductive Callback : Type :=
| CbReveal (r : RState)        (* [() => reveal()], from [ask] *)
| CbStartRecognition           (* [() => startRecognition()] *)
| CbAsk (r : RState).          (* [() => ask()], from the auto-advance effect *)

(** The [onend] continuations handed to [speak]. *)
Inductive SpeechEnd : Type :=
| EndQuestion (r : RState)     (* the one [ask] passes *)
| EndAnswer (r : RState).      (* the one [reveal] passes *)

(** A pending timeout: its handle, its delay in milliseconds, its callback. *)
Record Timer : Type := { tid : nat; delay : N; callback : Callback }.

Inductive Alert : Type := AlertSessionEnd.

(** The component instance: committed state, refs, and what the browser
    holds for it (pending timeouts, utterances whose end event has not been
    delivered, the render captured by [rec.onresult]). *)
Record World : Type := {
  st : RState;
  autoAdvanceRef : bool;
  practiceTimerRef : option nat;
  timers : list Timer;
  nextTimer : nat;
  utterances : list SpeechEnd;
  recRender : RState;
  ttsAvailable : bool;
  recStartThrows : bool;
  draws : nat;
  alerts : list Alert
}.

(** [Math.random]: the shuffle of the [d]-th draw, and the index
    [Math.floor(Math.random() * n)] of the [d]-th draw. *)
Record Oracle : Type := {
  shuffle : nat -> list Z -> list Z;
  randomIndex : nat -> nat -> nat
}.

(** *** State setters *)

Definition set_items v r :=
  {| items := v; currentIndex := currentIndex r; listening := listening r;
     recognized := recognized r; random := random r; useTTS := useTTS r;
     needed := needed r; practiceSec := practiceSec r; phase := phase r;
     selectedTopic := selectedTopic r; sessionSet := sessionSet r;
     sessionCursor := sessionCursor r |}.
Definition set_currentIndex v r :=
  {| items := items r; currentIndex := v; listening := listening r;
     recognized := recognized r; random := random r; useTTS := useTTS r;
     needed := needed r; practiceSec := practiceSec r; phase := phase r;
     selectedTopic := selectedTopic r; sessionSet := sessionSet r;
     sessionCursor := sessionCursor r |}.
Definition set_listening v r :=
  {| items := items r; currentIndex := currentIndex r; listening := v;
     recognized := recognized r; random := random r; useTTS := useTTS r;
     needed := needed r; practiceSec := practiceSec r; phase := phase r;
     selectedTopic := selectedTopic r; sessionSet := sessionSet r;
     sessionCursor := sessionCursor r |}.
Definition set_recognized v r :=
  {| items := items r; currentIndex := currentIndex r; listening := listening r;
     recognized := v; random := random r; useTTS := useTTS r;
     needed := needed r; practiceSec := practiceSec r; phase := phase r;
     selectedTopic := selectedTopic r; sessionSet := sessionSet r;
     sessionCursor := sessionCursor r |}.
Definition set_random v r :=
  {| items := items r; currentIndex := currentIndex r; listening := listening r;
     recognized := recognized r; random := v; useTTS := useTTS r;
     needed := needed r; practiceSec := practiceSec r; phase := phase r;
     selectedTopic := selectedTopic r; sessionSet := sessionSet r;
     sessionCursor := sessionCursor r |}.
Definition set_useTTS v r :=
  {| items := items r; currentIndex := currentIndex r; listening := listening r;
     recognized := recognized r; random := random r; useTTS := v;
     needed := needed r; practiceSec := practiceSec r; phase := phase r;
     selectedTopic := selectedTopic r; sessionSet := sessionSet r;
     sessionCursor := sessionCursor r |}.
Definition set_needed v r :=
  {| items := items r; currentIndex := currentIndex r; listening := listening r;
     recognized := recognized r; random := random r; useTTS := useTTS r;
     needed := v; practiceSec := practiceSec r; phase := phase r;
     selectedTopic := selectedTopic r; sessionSet := sessionSet r;
     sessionCursor := sessionCursor r |}.
Definition set_practiceSec v r :=
  {| items := items r; currentIndex := currentIndex r; listening := listening r;
     recognized := recognized r; random := random r; useTTS := useTTS r;
     needed := needed r; practiceSec := v; phase := phase r;
     selectedTopic := selectedTopic r; sessionSet := sessionSet r;
     sessionCursor := sessionCursor r |}.
Definition set_phase v r :=
  {| items := items r; currentIndex := currentIndex r; listening := listening r;
     recognized := recognized r; random := random r; useTTS := useTTS r;
     needed := needed r; practiceSec := practiceSec r; phase := v;
     selectedTopic := selectedTopic r; sessionSet := sessionSet r;
     sessionCursor := sessionCursor r |}.
Definition set_selectedTopic v r :=
  {| items := items r; currentIndex := currentIndex r; listening := listening r;
     recognized := recognized r; random := random r; useTTS := useTTS r;
     needed := needed r; practiceSec := practiceSec r; phase := phase r;
     selectedTopic := v; sessionSet := sessionSet r;
     sessionCursor := sessionCursor r |}.
Definition set_sessionSet v r :=
  {| items := items r; currentIndex := currentIndex r; listening := listening r;
     recognized := recognized r; random := random r; useTTS := useTTS r;
     needed := needed r; practiceSec := practiceSec r; phase := phase r;
     selectedTopic := selectedTopic r; sessionSet := v;
     sessionCursor := sessionCursor r |}.
Definition set_sessionCursor v r :=
  {| items := items r; currentIndex := currentIndex r; listening := listening r;
     recognized := recognized r; random := random r; useTTS := useTTS r;
     needed := needed r; practiceSec := practiceSec r; phase := phase r;
     selectedTopic := selectedTopic r; sessionSet := sessionSet r;
     sessionCursor := v |}.

(** A state update applied to the committed state. *)
Definition with_st (f : RState -> RState) (w : World) : World :=
  {| st := f (st w); autoAdvanceRef := autoAdvanceRef w;
     practiceTimerRef := practiceTimerRef w; timers := timers w;
     nextTimer := nextTimer w; utterances := utterances w;
     recRender := recRender w; ttsAvailable := ttsAvailable w;
     recStartThrows := recStartThrows w; draws := draws w;
     alerts := alerts w |}.

Definition setItems v := with_st (set_items v).
Definition setCurrentIndex v := with_st (set_currentIndex v).
Definition setListening v := with_st (set_listening v).
Definition setRecognized v := with_st (set_recognized v).
Definition setRandom v := with_st (set_random v).
Definition setUseTTS v := with_st (set_useTTS v).
Definition setNeeded v := with_st (set_needed v).
Definition setPracticeSec v := with_st (set_practiceSec v).
Definition setPhase v := with_st (set_phase v).
Definition setSelectedTopic v := with_st (set_selectedTopic v).
Definition setSessionSet v := with_st (set_sessionSet v).
Definition setSessionCursor v := with_st (set_sessionCursor v).

Definition set_autoAdvanceRef (b : bool) (w : World) : World :=
  {| st := st w; autoAdvanceRef := b;
     practiceTimerRef := practiceTimerRef w; timers := timers w;
     nextTimer := nextTimer w; utterances := utterances w;
     recRender := recRender w; ttsAvailable := ttsAvailable w;
     recStartThrows := recStartThrows w; draws := draws w;
     alerts := alerts w |}.
Definition set_practiceTimerRef (h : option nat) (w : World) : World :=
  {| st := st w; autoAdvanceRef := autoAdvanceRef w;
     practiceTimerRef := h; timers := timers w;
     nextTimer := nextTimer w; utterances := utterances w;
     recRender := recRender w; ttsAvailable := ttsAvailable w;
     recStartThrows := recStartThrows w; draws := draws w;
     alerts := alerts w |}.
Definition set_timers (ts : list Timer) (n : nat) (w : World) : World :=
  {| st := st w; autoAdvanceRef := autoAdvanceRef w;
     practiceTimerRef := practiceTimerRef w; timers := ts;
     nextTimer := n; utterances := utterances w;
     recRender := recRender w; ttsAvailable := ttsAvailable w;
     recStartThrows := recStartThrows w; draws := draws w;
     alerts := alerts w |}.
Definition set_utterances (us : list SpeechEnd) (w : World) : World :=
  {| st := st w; autoAdvanceRef := autoAdvanceRef w;
     practiceTimerRef := practiceTimerRef w; timers := timers w;
     nextTimer := nextTimer w; utterances := us;
     recRender := recRender w; ttsAvailable := ttsAvailable w;
     recStartThrows := recStartThrows w; draws := draws w;
     alerts := alerts w |}.
Definition set_recStartThrows (b : bool) (w : World) : World :=
  {| st := st w; autoAdvanceRef := autoAdvanceRef w;
     practiceTimerRef := practiceTimerRef w; timers := timers w;
     nextTimer := nextTimer w; utterances := utterances w;
     recRender := recRender w; ttsAvailable := ttsAvailable w;
     recStartThrows := b; draws := draws w;
     alerts := alerts w |}.
Definition set_draws (d : nat) (w : World) : World :=
  {| st := st w; autoAdvanceRef := autoAdvanceRef w;
     practiceTimerRef := practiceTimerRef w; timers := timers w;
     nextTimer := nextTimer w; utterances := utterances w;
     recRender := recRender w; ttsAvailable := ttsAvailable w;
     recStartThrows := recStartThrows w; draws := d;
     alerts := alerts w |}.
Definition alert (a : Alert) (w : World) : World :=
  {| st := st w; autoAdvanceRef := autoAdvanceRef w;
     practiceTimerRef := practiceTimerRef w; timers := timers w;
     nextTimer := nextTimer w; utterances := utterances w;
     recRender := recRender w; ttsAvailable := ttsAvailable w;
     recStartThrows := recStartThrows w; draws := draws w;
     alerts := alerts w ++ [a] |}.

(** *** Browser timers *)

(** [setTimeout(cb, ms)]: the handle returned is [nextTimer w]. *)
Definition setTimeout (cb : Callback) (ms : N) (w : World) : World :=
  set_timers (timers w ++ [{| tid := nextTimer w; delay := ms; callback := cb |}])
             (S (nextTimer w)) w.

Definition drop_timer (h : nat) (ts : list Timer) : list Timer :=
  filter (fun t => negb (tid t =? h)) ts.

(** [clearTimeout(h)]; [null] and the handle of a timer that has fired or
    been cleared do nothing. *)
Definition clearTimeout (h : option nat) (w : World) : World :=
  match h with
  | None => w
  | Some i => set_timers (drop_timer i (timers w)) (nextTimer w) w
  end.

Definition isCountdown (t : Timer) : bool :=
  match callback t with CbReveal _ => true | _ => false end.

(** The armed practice countdowns: pending timeouts that will call [reveal]. *)
Definition countdowns (w : World) : list Timer := filter isCountdown (timers w).

End Model.

(* ================================================================== *)
(** ** Practice flow and session helpers (App.jsx 136-169, 236-336) *)

Module Controller.
Import Model.

Definition orElse {A : Type} (a b : option A) : option A :=
  match a with Some _ => a | None => b end.

(** [it.topic || "Untitled"] *)
Definition topicOf (it : Item) : string :=
  if String.eqb (topic it) "" then "Untitled" else topic it.

(** The [pool] of [viewItems] and of [buildSession]. *)
Definition topicPool (r : RState) : list Item :=
  if String.eqb (selectedTopic r) "All" then items r
  else filter (fun it => String.eqb (topicOf it) (selectedTopic r)) (items r).

(** [viewItems]; an empty [sessionSet] is truthy and filters everything out. *)
Definition viewItems (r : RState) : list Item :=
  match sessionSet r with
  | Some ids => filter (fun it => existsb (Z.eqb (id it)) ids) (topicPool r)
  | None => topicPool r
  end.

(** [current]; [None] is [undefined]. *)
Definition current (r : RState) : option Item :=
  match sessionSet r with
  | Some ((i0 :: _) as ids) =>
      let i := nth (sessionCursor r) ids i0 in   (* sessionSet[sessionCursor] ?? sessionSet[0] *)
      orElse (find (fun it => Z.eqb (id it) i) (items r))
             (orElse (hd_error (viewItems r)) (hd_error (items r)))
  | _ =>
      orElse (nth_error (viewItems r) (currentIndex r))
             (orElse (hd_error (viewItems r)) (hd_error (items r)))
  end.

(** [Array.from(new Set(l))]: the first occurrence of each id, in order. *)
Fixpoint uniq (seen l : list Z) : list Z :=
  match l with
  | [] => []
  | x :: l' =>
      if existsb (Z.eqb x) seen then uniq seen l' else x :: uniq (x :: seen) l'
  end.

Definition uniqueIds (pool : list Item) : list Z := uniq [] (map id pool).

(** The [ids] of [buildSession]: [sh] is what the sort with the random
    comparator does to [unique]. *)
Definition sessionIds (sh : list Z -> list Z) (count : nat) (pool : list Item)
  : list Z :=
  let shuffled := sh (uniqueIds pool) in
  firstn (Nat.min count (List.length shuffled)) shuffled.

(** [resetNeeded] *)
Definition resetNeeded (w : World) : World :=
  setRecognized "" (setNeeded {| yes := true; no := true |} w).

(** [buildSession(count)], from the render [r]. *)
Definition buildSession (o : Oracle) (count : nat) (r : RState) (w : World)
  : World :=
  let ids := sessionIds (shuffle o (draws w)) count (topicPool r) in
  let w := set_draws (S (draws w)) w in
  let w := setSessionSet (Some ids) w in
  let w := setSessionCursor 0 w in
  let w := resetNeeded w in
  set_autoAdvanceRef true w.

(** [startRecognition]: [listening] becomes false when [start()] throws. *)
Definition startRecognition (w : World) : World :=
  setListening (negb (recStartThrows w)) w.

(** [speak(text, voice, rate, pitch, onend)]: the utterance is queued and
    its end (or error) event will call [onend]; when speech synthesis is
    missing the constructor throws and nothing is queued. *)
Definition speak (onend : SpeechEnd) (w : World) : World :=
  if ttsAvailable w then set_utterances (utterances w ++ [onend]) w else w.

(** [clearTimeout(practiceTimerRef.current);
     practiceTimerRef.current = setTimeout(() => reveal(), practiceSec * 1000)] *)
Definition armCountdown (r : RState) (w : World) : World :=
  let w := clearTimeout (practiceTimerRef w) w in
  let h := nextTimer w in
  set_practiceTimerRef (Some h)
    (setTimeout (CbReveal r) (N.of_nat (practiceSec r) * 1000)%N w).

(** [ask], from the render [r]. *)
Definition ask (r : RState) (w : World) : World :=
  let w := resetNeeded w in
  let w := setPhase Practice w in
  if useTTS r then speak (EndQuestion r) w
  else armCountdown r (startRecognition w).

(** The [onend] closure that [ask] hands to [speak]. *)
Definition endQuestion (r : RState) (w : World) : World :=
  armCountdown r (setTimeout CbStartRecognition 200%N w).

Definition sameId (it : option Item) (cid : option Z) : bool :=
  match it, cid with
  | Some i, Some c => Z.eqb (id i) c
  | _, _ => false
  end.

(** The [while] loop of the random branch of [goNext]; [guard] counts down
    from 10, [d] is the number of draws made so far. *)
Fixpoint redraw (o : Oracle) (view : list Item) (cid : option Z)
                (guard d idx : nat) : nat * nat :=
  match guard with
  | 0 => (idx, d)
  | S g =>
      if sameId (nth_error view idx) cid
      then redraw o view cid g (S d) (randomIndex o d (List.length view))
      else (idx, d)
  end.

(** [goNext], from the render [r]. *)
Definition goNext (o : Oracle) (r : RState) (w : World) : World :=
  match sessionSet r with
  | Some ((_ :: _) as ids) =>
      let next := sessionCursor r + 1 in
      if next <? List.length ids then
        set_autoAdvanceRef true (resetNeeded (setSessionCursor next w))
      else
        alert AlertSessionEnd (setSessionSet None (setPhase Idle w))
  | _ =>
      let view := viewItems r in
      match view with
      | [] => w
      | _ :: _ =>
          let w :=
            if random r then
              let cid := option_map id (current r) in
              let idx0 := randomIndex o (draws w) (List.length view) in
              let '(idx, d) :=
                if 1 <? List.length view
                then redraw o view cid 10 (S (draws w)) idx0
                else (idx0, S (draws w)) in
              setCurrentIndex idx (set_draws d w)
            else
              setCurrentIndex ((currentIndex (st w) + 1) mod List.length view) w in
          set_autoAdvanceRef true (resetNeeded w)
      end
  end.

(** [reveal], from the render [r]. *)
Definition reveal (o : Oracle) (r : RState) (w : World) : World :=
  let w := setPhase Reveal w in
  if useTTS r then speak (EndAnswer r) w else goNext o r w.

(** [fastReveal], from the render [r]. *)
Definition fastReveal (o : Oracle) (r : RState) (w : World) : World :=
  if Phase_eqb (phase r) Practice
  then reveal o r (clearTimeout (practiceTimerRef w) w)
  else w.

(** [{ ...prev, [yn]: false }] *)
Definition answered (yn : Classifier.YesNo) (prev : Needed) : Needed :=
  match yn with
  | Classifier.yes => {| yes := false; no := no prev |}
  | Classifier.no => {| yes := yes prev; no := false |}
  end.

(** [rec.onresult], installed by the effect of the render [r]; [txt] is the
    concatenated transcript of the event and [isFinal] the flag of its last
    result. The updater passed to [setNeeded] sees the live tracker. *)
Definition onresult (o : Oracle) (r : RState) (txt : string) (isFinal : bool)
                    (w : World) : World :=
  let w := setRecognized txt w in
  if isFinal then
    match Classifier.parseYesNo (Some txt) with
    | Some yn =>
        let next := answered yn (needed (st w)) in
        let w := setNeeded next w in
        if negb (yes next) && negb (no next) then fastReveal o r w else w
    | None => w
    end
  else w.

(** *** The event loop *)

Inductive Event : Type :=
| ClickAsk                                (* the ask button, [onClick={ask}] *)
| ClickSession                            (* the session button, [buildSession(10)] *)
| ChangeTopic (t : string)                (* the topic select *)
| SetUseTTS (b : bool)
| SetRandom (b : bool)
| SetPracticeSec (n : nat)
| SetItems (l : list Item)                (* add, edit, delete, import *)
| Timeout (h : nat)                       (* the browser runs timeout [h] *)
| SpeechEnded (k : nat)                   (* end or error of the [k]-th pending utterance *)
| RecResult (txt : string) (isFinal : bool)
| RecStopped                              (* [rec.onend], [rec.onerror] *)
| EnvRecStart (throws : bool).            (* whether the next [rec.start()] throws *)

Definition runCallback (o : Oracle) (cb : Callback) (w : World) : World :=
  match cb with
  | CbReveal r => reveal o r w
  | CbStartRecognition => startRecognition w
  | CbAsk r => ask r w
  end.

Definition runSpeechEnd (o : Oracle) (c : SpeechEnd) (w : World) : World :=
  match c with
  | EndQuestion r => endQuestion r w
  | EndAnswer r => goNext o r w
  end.

Fixpoint remove_nth {A : Type} (k : nat) (l : list A) : list A :=
  match l, k with
  | [], _ => []
  | _ :: l', 0 => l'
  | x :: l', S k' => x :: remove_nth k' l'
  end.

(** The handler of one event, run against the committed state; handlers
    bound in JSX belong to the latest render. *)
Definition handle (o : Oracle) (ev : Event) (w : World) : World :=
  match ev with
  | ClickAsk =>
      match current (st w) with          (* [disabled={!current}] *)
      | Some _ => ask (st w) w
      | None => w
      end
  | ClickSession =>
      match sessionSet (st w) with       (* rendered only when [!sessionSet] *)
      | None => buildSession o 10 (st w) w
      | Some _ => w
      end
  | ChangeTopic t =>
      setCurrentIndex 0 (setSessionCursor 0 (setSessionSet None (setSelectedTopic t w)))
  | SetUseTTS b => setUseTTS b w
  | SetRandom b => setRandom b w
  | SetPracticeSec n =>
      setPracticeSec (Nat.max 3 (Nat.min 20 (if n =? 0 then 8 else n))) w
  | SetItems l => setItems l w
  | Timeout h =>
      match find (fun t => tid t =? h) (timers w) with
      | Some t => runCallback o (callback t)
                    (set_timers (drop_timer h (timers w)) (nextTimer w) w)
      | None => w
      end
  | SpeechEnded k =>
      match nth_error (utterances w) k with
      | Some c => runSpeechEnd o c (set_utterances (remove_nth k (utterances w)) w)
      | None => w
      end
  | RecResult txt isFinal => onresult o (recRender w) txt isFinal w
  | RecStopped => setListening false w
  | EnvRecStart b => set_recStartThrows b w
  end.

(** The effect on [[sessionCursor, currentIndex]] (App.jsx 236-241), run
    after the render that follows a handler; [old] is the previous render. *)
Definition flushEffects (old : RState) (w : World) : World :=
  if (sessionCursor old =? sessionCursor (st w))
     && (currentIndex old =? currentIndex (st w))
  then w
  else if autoAdvanceRef w
       then setTimeout (CbAsk (st w)) 0%N (set_autoAdvanceRef false w)
       else w.

Definition step (o : Oracle) (ev : Event) (w : World) : World :=
  flushEffects (st w) (handle o ev w).

Definition run (o : Oracle) (evs : list Event) (w : World) : World :=
  fold_left (fun w ev => step o ev w) evs w.

(** The first render: [items0] is what [loadFromLocalStorage] returned. The
    recognition effect has the dependencies [[recAvailable, targetLang]],
    neither of which ever changes, so [rec.onresult] keeps the closures of
    this render. *)
Definition initState (items0 : list Item) : RState :=
  {| items := items0; currentIndex := 0; listening := false; recognized := "";
     random := true; useTTS := true; needed := {| yes := true; no := true |};
     practiceSec := 8; phase := Idle; selectedTopic := "All";
     sessionSet := None; sessionCursor := 0 |}.

Definition mount (items0 : list Item) (tts : bool) : World :=
  {| st := initState items0; autoAdvanceRef := false; practiceTimerRef := None;
     timers := []; nextTimer := 1; utterances := [];
     recRender := initState items0; ttsAvailable := tts;
     recStartThrows := false; draws := 0; alerts := [] |}.

Inductive reachable (o : Oracle) : World -> Prop :=
| reach_mount : forall items0 tts, reachable o (mount items0 tts)
| reach_step : forall w ev, reachable o w -> reachable o (step o ev w).

(** *** Oracles and runs *)

(** An oracle that reverses: a shuffle that is a permutation. *)
Definition reversing : Oracle :=
  {| shuffle := fun _ l => rev l; randomIndex := fun _ _ => 0 |}.

(** An oracle that keeps the order and always draws the index 1. *)
Definition stalling : Oracle :=
  {| shuffle := fun _ l => l; randomIndex := fun _ _ => 1 |}.

(** The specification's cancellation discipline, in its words: a step into
    a new phase or a new question ([advances]) leaves none of the
    countdowns that were armed before it ([cancels_armed]). *)
Definition advances (w w' : World) : Prop :=
  phase (st w') <> phase (st w) \/ current (st w') <> current (st w).

Definition cancels_armed (w w' : World) : Prop :=
  forall h, In h (map tid (countdowns w)) -> ~ In h (map tid (countdowns w')).

(** The run: the question is asked and spoken (countdown 2 armed); the user
    asks again (the question is spoken again, countdown 2 still armed);
    countdown 2 fires and the answer is spoken; the end event of the
    interrupted question arrives and arms countdown 4 during the reveal. *)
Definition rearmed_in_reveal : World :=
  run stalling [ClickAsk; SpeechEnded 0; ClickAsk; Timeout 2; SpeechEnded 0]
      (mount defaultItems true).

(** The run: a session over the five default items is started and its first
    question asked, spoken and revealed; while the answer is being spoken
    the user picks the topic "Daily Life" and starts a session there (one
    item); then the answer ends and the [goNext] of the earlier render
    advances the cursor. *)
Definition overtaken_session : World :=
  run stalling [ClickSession; ClickAsk; SpeechEnded 0; Timeout 2;
                ChangeTopic "Daily Life"; ClickSession; SpeechEnded 0]
      (mount defaultItems true).

(** *** Timers: frame and invariant *)

(** What leaves the timers alone. *)
Definition same_timers (w w' : World) : Prop :=
  timers w' = timers w
  /\ nextTimer w' = nextTimer w
  /\ practiceTimerRef w' = practiceTimerRef w.

(** The timer invariant: handles are fresh and distinct, and an armed
    countdown is the timer that [practiceTimerRef] holds. *)
Record Inv (w : World) : Prop := {
  ids_fresh : forall t, In t (timers w) -> tid t < nextTimer w;
  ids_distinct : NoDup (map tid (timers w));
  countdown_is_ref :
    forall t, In t (countdowns w) -> practiceTimerRef w = Some (tid t)
}.

End Controller.

(* ================================================================== *)
(** ** The numbers of the browser: rounding to a double *)

Module Double.
Local Open Scope Z_scope.

(** The double nearest to a number, as far as the model holds it: a whole
    number, an infinity (the magnitude is beyond the doubles), or a double
    with a fractional part, which the model leaves out. *)
Inductive Rounded : Type :=
| RWhole (z : Z)
| RInfinite
| RFraction.

(** The integer part of the binary logarithm of [a / b], for [a, b > 0]. *)
Definition floorLog2 (a b : Z) : Z :=
  let e := Z.log2 a - Z.log2 b in
  if (if 0 <=? e then b * 2 ^ e <=? a else b <=? a * 2 ^ (- e)) then e else e - 1.

(** The double nearest to [a / b], for [a >= 0] and [b > 0], ties to the
    even significand: a significand [q] of at most 53 bits and an exponent
    [E >= -1074], with [q * 2 ^ E] beyond the doubles from [2 ^ 1024] on. *)
Definition nearestDouble (a b : Z) : Rounded :=
  if a =? 0 then RWhole 0
  else
    let E := Z.max (floorLog2 a b - 52) (-1074) in
    let num := if 0 <=? E then a else a * 2 ^ (- E) in
    let den := if 0 <=? E then b * 2 ^ E else b in
    let q0 := num / den in
    let r := num mod den in
    let q := if 2 * r <? den then q0
             else if den <? 2 * r then q0 + 1
             else if Z.even q0 then q0 else q0 + 1 in
    if 0 <=? E then
      if 2 ^ 1024 <=? q * 2 ^ E then RInfinite else RWhole (q * 2 ^ E)
    else if q mod 2 ^ (- E) =? 0 then RWhole (q / 2 ^ (- E))
    else RFraction.

(** The double nearest to [m * 10 ^ e10], for [m >= 0]. *)
Definition nearestDecimal (m e10 : Z) : Rounded :=
  if 0 <=? e10 then nearestDouble (m * 10 ^ e10) 1
  else nearestDouble m (10 ^ (- e10)).

(** [m + 1] as the code computes it, for a whole double [m >= 0]: the sum
    is rounded to a double, so that [2 ^ 53 + 1] is [2 ^ 53] again. The last
    case is not reached for a double [m]. *)
Definition succ (m : Z) : Z :=
  match nearestDouble (m + 1) 1 with
  | RWhole z => z
  | RInfinite | RFraction => m
  end.

(** The whole numbers of magnitude at most [2 ^ 53]: each of them is a
    double, and [Number::toString] writes it with all its digits. *)
Definition inRange (z : Z) : bool := Z.abs z <=? 2 ^ 53.

End Double.

(* ================================================================== *)
(** ** JSON values and the browser's [JSON] object *)

Module Json.

(** The numbers that are not finite. *)
Inductive NonFinite : Type := NaN | PosInfinity | NegInfinity.

(** The values that the item list holds and that [JSON.parse] returns.
    [JNumber z] is the whole number [z] (the ids of the items are such),
    [JNonFinite k] a number that is not finite; a number with a fractional
    part is outside the model, and [-0] is not told from [0] (as [===] does
    not). Fields keep the order of the text. *)
Inductive json : Type :=
| JNull
| JBool (b : bool)
| JNumber (z : Z)
| JNonFinite (k : NonFinite)
| JString (s : string)
| JArray (l : list json)
| JObject (fields : list (string * json)).

(** The [JSON] global: [parse text] is [None] when [JSON.parse] throws,
    [stringify v n] is [JSON.stringify(v, null, n)]. *)
Record Impl : Type := {
  parse : string -> option json;
  stringify : json -> nat -> string
}.

(** *** A reference implementation, for the values the application writes *)

Definition dquote : ascii := ascii_of_nat 34.
Definition backslash : ascii := ascii_of_nat 92.
Definition newline : string := String (ascii_of_nat 10) EmptyString.

Definition hexDigit (n : nat) : ascii :=
  if n <? 10 then ascii_of_nat (48 + n) else ascii_of_nat (87 + n).

Definition hexValue (c : ascii) : option nat :=
  let n := nat_of_ascii c in
  if (48 <=? n) && (n <=? 57) then Some (n - 48)
  else if (97 <=? n) && (n <=? 102) then Some (n - 87)
  else if (65 <=? n) && (n <=? 70) then Some (n - 55)
  else None.

(** The escapes of [JSON.stringify] inside a quoted string. *)
Definition escapeChar (c : ascii) : string :=
  let n := nat_of_ascii c in
  if n =? 34 then String backslash (String dquote EmptyString)
  else if n =? 92 then String backslash (String backslash EmptyString)
  else if n =? 8 then String backslash "b"
  else if n =? 12 then String backslash "f"
  else if n =? 10 then String backslash "n"
  else if n =? 13 then String backslash "r"
  else if n =? 9 then String backslash "t"
  else if n <? 32 then
    String backslash
      (String "u" (String "0" (String "0"
         (String (hexDigit (n / 16)) (String (hexDigit (n mod 16)) EmptyString)))))
  else String c EmptyString.

Fixpoint escape (s : string) : string :=
  match s with
  | EmptyString => EmptyString
  | String c s' => (escapeChar c ++ escape s')%string
  end.

Definition quote (s : string) : string :=
  String dquote (escape s ++ String dquote EmptyString)%string.

(** The decimal digits of a whole number, which is what [Number::toString]
    gives for the magnitudes up to [2 ^ 53] ([Double.inRange]). *)
Definition printNumber (z : Z) : string :=
  DecimalString.NilZero.string_of_int (Z.to_int z).

Fixpoint joinWith (sep : string) (l : list string) : string :=
  match l with
  | [] => EmptyString
  | [x] => x
  | x :: l' => (x ++ sep ++ joinWith sep l')%string
  end.

(** [print ind v]: the text of [v] when the enclosing indentation is [ind]
    and the gap is two spaces. A number that is not finite is written as
    [null]. *)
Fixpoint print (ind : string) (v : json) : string :=
  let ind' := (ind ++ "  ")%string in
  let sep := ("," ++ newline ++ ind')%string in
  match v with
  | JNull => "null"
  | JBool true => "true"
  | JBool false => "false"
  | JNumber z => printNumber z
  | JNonFinite _ => "null"
  | JString s => quote s
  | JArray [] => "[]"
  | JArray l =>
      ("[" ++ newline ++ ind' ++ joinWith sep (map (print ind') l)
           ++ newline ++ ind ++ "]")%string
  | JObject [] => "{}"
  | JObject fs =>
      ("{" ++ newline ++ ind'
           ++ joinWith sep
                (map (fun kv => (quote (fst kv) ++ ": " ++ print ind' (snd kv))%string) fs)
           ++ newline ++ ind ++ "}")%string
  end.

Definition isWs (c : ascii) : bool :=
  let n := nat_of_ascii c in
  (n =? 32) || (n =? 9) || (n =? 10) || (n =? 13).

Fixpoint skipWs (s : string) : string :=
  match s with
  | EmptyString => EmptyString
  | String c s' => if isWs c then skipWs s' else s
  end.

(** The characters of a quoted string, after the opening quote. *)
Fixpoint readString (s : string) : option (string * string) :=
  match s with
  | EmptyString => None
  | String c s' =>
      if Ascii.eqb c dquote then Some (EmptyString, s')
      else if Ascii.eqb c backslash then
        match s' with
        | EmptyString => None
        | String e s'' =>
            let plain (d : ascii) :=
              match readString s'' with
              | Some (t, rest) => Some (String d t, rest)
              | None => None
              end in
            match nat_of_ascii e with
            | 34 => plain dquote
            | 92 => plain backslash
            | 47 => plain "/"%char
            | 98 => plain (ascii_of_nat 8)
            | 102 => plain (ascii_of_nat 12)
            | 110 => plain (ascii_of_nat 10)
            | 114 => plain (ascii_of_nat 13)
            | 116 => plain (ascii_of_nat 9)
            | 117 =>
                match s'' with
                | String h1 (String h2 (String h3 (String h4 s5))) =>
                    match hexValue h1, hexValue h2, hexValue h3, hexValue h4 with
                    | Some 0, Some 0, Some a, Some b =>
                        match readString s5 with
                        | Some (t, rest) =>
                            Some (String (ascii_of_nat (16 * a + b)) t, rest)
                        | None => None
                        end
                    | _, _, _, _ => None
                    end
                | _ => None
                end
            | _ => None
            end
        end
      else if nat_of_ascii c <? 32 then None
      else
        match readString s' with
        | Some (t, rest) => Some (String c t, rest)
        | None => None
        end
  end.

Definition isNumChar (c : ascii) : bool :=
  let n := nat_of_ascii c in
  (n =? 45) || ((48 <=? n) && (n <=? 57)).

Fixpoint spanNum (s : string) : string * string :=
  match s with
  | EmptyString => (EmptyString, EmptyString)
  | String c s' =>
      if isNumChar c then let '(a, b) := spanNum s' in (String c a, b)
      else (EmptyString, s)
  end.

Definition isDigit (c : ascii) : bool :=
  let n := nat_of_ascii c in (48 <=? n) && (n <=? 57).

Fixpoint spanDigits (s : string) : string * string :=
  match s with
  | EmptyString => (EmptyString, EmptyString)
  | String c s' =>
      if isDigit c then let '(a, b) := spanDigits s' in (String c a, b)
      else (EmptyString, s)
  end.

(** The number that the digits [d] write after the digits of [acc]. *)
Fixpoint digitsValue (acc : Z) (d : string) : Z :=
  match d with
  | EmptyString => acc
  | String c d' => digitsValue (10 * acc + Z.of_nat (nat_of_ascii c - 48))%Z d'
  end.

(** The fraction of a number literal, if any: a point and at least one
    digit. *)
Definition readFraction (s : string) : option (string * string) :=
  match s with
  | String c s' =>
      if Ascii.eqb c "." then
        match spanDigits s' with
        | (EmptyString, _) => None
        | (d, rest) => Some (d, rest)
        end
      else Some (EmptyString, s)
  | EmptyString => Some (EmptyString, s)
  end.

(** The exponent of a number literal, if any: [e] or [E], an optional sign
    and at least one digit. *)
Definition readExponent (s : string) : option (Z * string) :=
  match s with
  | String c s' =>
      if (Ascii.eqb c "e" || Ascii.eqb c "E")%char then
        let '(negative, s'') :=
          match s' with
          | String g t =>
              if Ascii.eqb g "-" then (true, t)
              else if Ascii.eqb g "+" then (false, t)
              else (false, s')
          | EmptyString => (false, s')
          end in
        match spanDigits s'' with
        | (EmptyString, _) => None
        | (d, rest) =>
            Some (if negative then (- digitsValue 0 d)%Z else digitsValue 0 d, rest)
        end
      else Some (0%Z, s)
  | EmptyString => Some (0%Z, s)
  end.

(** The value of the literal with the sign [negative], the digits of [m]
    and the decimal exponent [e10]: the nearest double. [None] when that
    double has a fractional part, which the model does not hold. *)
Definition numberValue (negative : bool) (m e10 : Z) : option json :=
  match Double.nearestDecimal m e10 with
  | Double.RWhole z => Some (JNumber (if negative then (- z)%Z else z))
  | Double.RInfinite =>
      Some (JNonFinite (if negative then NegInfinity else PosInfinity))
  | Double.RFraction => None
  end.

(** A number literal: an optional sign, digits without a leading zero, an
    optional fraction and an optional exponent. *)
Definition readNumber (s : string) : option (json * string) :=
  let '(lit, rest) := spanNum s in
  match DecimalString.NilZero.int_of_string lit with
  | Some d =>
      if String.eqb (printNumber (Z.of_int d)) lit || String.eqb lit "-0"
      then match readFraction rest with
           | Some (frac, rest1) =>
               match readExponent rest1 with
               | Some (e, rest2) =>
                   let negative :=
                     match lit with
                     | String c _ => Ascii.eqb c "-"
                     | EmptyString => false
                     end in
                   match numberValue negative
                           (digitsValue (Z.abs (Z.of_int d)) frac)
                           (e - Z.of_nat (String.length frac))%Z with
                   | Some v => Some (v, rest2)
                   | None => None
                   end
               | None => None
               end
           | None => None
           end
      else None
  | None => None
  end.

(** What follows the literal [lit] at the head of [s]. *)
Fixpoint afterLiteral (lit s : string) {struct lit} : option string :=
  match lit, s with
  | EmptyString, _ => Some s
  | String _ _, EmptyString => None
  | String a lit', String b s' =>
      if Ascii.eqb a b then afterLiteral lit' s' else None
  end.

Definition expect (lit : string) (v : json) (s : string) : option (json * string) :=
  match afterLiteral lit s with
  | Some rest => Some (v, rest)
  | None => None
  end.

Fixpoint readValue (fuel : nat) (s : string) : option (json * string) :=
  match fuel with
  | 0 => None
  | S f =>
      match skipWs s with
      | EmptyString => None
      | String c s' =>
          match nat_of_ascii c with
          | 110 => expect "null" JNull (String c s')
          | 116 => expect "true" (JBool true) (String c s')
          | 102 => expect "false" (JBool false) (String c s')
          | 34 =>
              match readString s' with
              | Some (t, rest) => Some (JString t, rest)
              | None => None
              end
          | 91 =>
              match skipWs s' with
              | String c1 s1 =>
                  if Ascii.eqb c1 "]" then Some (JArray [], s1)
                  else match readElems f (String c1 s1) with
                       | Some (l, rest) => Some (JArray l, rest)
                       | None => None
                       end
              | EmptyString => None
              end
          | 123 =>
              match skipWs s' with
              | String c1 s1 =>
                  if Ascii.eqb c1 "}" then Some (JObject [], s1)
                  else match readFields f (String c1 s1) with
                       | Some (l, rest) => Some (JObject l, rest)
                       | None => None
                       end
              | EmptyString => None
              end
          | _ =>
              readNumber (String c s')
          end
      end
  end

with readElems (fuel : nat) (s : string) : option (list json * string) :=
  match fuel with
  | 0 => None
  | S f =>
      match readValue f s with
      | Some (v, rest) =>
          match skipWs rest with
          | String c s1 =>
              if Ascii.eqb c "]" then Some ([v], s1)
              else if Ascii.eqb c "," then
                match readElems f s1 with
                | Some (l, rest') => Some (v :: l, rest')
                | None => None
                end
              else None
          | EmptyString => None
          end
      | None => None
      end
  end

with readFields (fuel : nat) (s : string) : option (list (string * json) * string) :=
  match fuel with
  | 0 => None
  | S f =>
      match skipWs s with
      | String c s0 =>
          if Ascii.eqb c dquote then
            match readString s0 with
            | Some (k, rest0) =>
                match skipWs rest0 with
                | String c1 s1 =>
                    if Ascii.eqb c1 ":" then
                      match readValue f s1 with
                      | Some (v, rest) =>
                          match skipWs rest with
                          | String c2 s2 =>
                              if Ascii.eqb c2 "}" then Some ([(k, v)], s2)
                              else if Ascii.eqb c2 "," then
                                match readFields f s2 with
                                | Some (l, rest') => Some ((k, v) :: l, rest')
                                | None => None
                                end
                              else None
                          | EmptyString => None
                          end
                      | None => None
                      end
                    else None
                | EmptyString => None
                end
            | None => None
            end
          else None
      | EmptyString => None
      end
  end.

(** A whole text: one value and nothing but white space after it. *)
Definition read (text : string) : option json :=
  match readValue (2 * String.length text + 2) text with
  | Some (v, rest) =>
      match skipWs rest with
      | EmptyString => Some v
      | String _ _ => None
      end
  | None => None
  end.

Definition reference : Impl :=
  {| parse := read; stringify := fun v _ => print EmptyString v |}.

(** *** Notions used to show that [read] inverts [print] *)

(** White space before a value. *)
Definition blank (pre : string) : Prop :=
  forall s, skipWs (pre ++ s) = skipWs s.

(** A text that begins with a character which is not white space. *)
Definition solid (s : string) : Prop :=
  match s with
  | EmptyString => False
  | String c _ => isWs c = false
  end.

Fixpoint allNum (s : string) : bool :=
  match s with
  | EmptyString => true
  | String c s' => isNumChar c && allNum s'
  end.

(** What may follow a number: nothing that would continue the literal. *)
Definition boundary (rest : string) : Prop :=
  match rest with
  | EmptyString => True
  | String c _ =>
      isNumChar c = false
      /\ (Ascii.eqb c "." || Ascii.eqb c "e" || Ascii.eqb c "E")%char = false
  end.

Section NestedInduction.
Variable P : json -> Prop.
Hypothesis HNull : P JNull.
Hypothesis HBool : forall b, P (JBool b).
Hypothesis HNumber : forall z, P (JNumber z).
Hypothesis HNonFinite : forall k, P (JNonFinite k).
Hypothesis HString : forall s, P (JString s).
Hypothesis HArray : forall l, Forall P l -> P (JArray l).
Hypothesis HObject : forall fs, Forall (fun kv => P (snd kv)) fs -> P (JObject fs).

Fixpoint json_nested_ind (v : json) : P v :=
  match v with
  | JNull => HNull
  | JBool b => HBool b
  | JNumber z => HNumber z
  | JNonFinite k => HNonFinite k
  | JString s => HString s
  | JArray l =>
      HArray l
        ((fix each (l : list json) : Forall P l :=
            match l with
            | [] => Forall_nil _
            | x :: l' => Forall_cons x (json_nested_ind x) (each l')
            end) l)
  | JObject fs =>
      HObject fs
        ((fix each (fs : list (string * json)) : Forall (fun kv => P (snd kv)) fs :=
            match fs with
            | [] => Forall_nil _
            | kv :: fs' => Forall_cons kv (json_nested_ind (snd kv)) (each fs')
            end) fs)
  end.
End NestedInduction.

(** The fuel that reading a value takes. *)
Fixpoint weight (v : json) : nat :=
  match v with
  | JArray l => S (fold_right (fun x n => S (weight x + n)) 0 l)
  | JObject fs => S (fold_right (fun kv n => S (weight (snd kv) + n)) 0 fs)
  | _ => 1
  end.

(** A text that begins a value: its first character is neither white space
    nor a closing bracket. *)
Definition opens (s : string) : Prop :=
  match s with
  | EmptyString => False
  | String c _ =>
      isWs c = false /\ Ascii.eqb c "]" = false /\ Ascii.eqb c "}" = false
  end.

Definition gap (ind : string) : string := (ind ++ "  ")%string.
Definition sep (ind : string) : string := ("," ++ newline ++ gap ind)%string.

Definition printField (ind : string) (kv : string * json) : string :=
  (quote (fst kv) ++ ": " ++ print ind (snd kv))%string.

(** What comes back from the text of a value: a number that is not finite
    was written as [null]. *)
Fixpoint nullify (v : json) : json :=
  match v with
  | JNonFinite _ => JNull
  | JArray l => JArray (map nullify l)
  | JObject fs => JObject (map (fun kv => (fst kv, nullify (snd kv))) fs)
  | _ => v
  end.

(** Every number of the value is finite. *)
Fixpoint finite (v : json) : bool :=
  match v with
  | JNonFinite _ => false
  | JArray l => forallb finite l
  | JObject fs => forallb (fun kv => finite (snd kv)) fs
  | _ => true
  end.

(** Every whole number of the value has a magnitude of at most [2 ^ 53]:
    it is a double, and its text is the one of the browser. *)
Fixpoint inRange (v : json) : bool :=
  match v with
  | JNumber z => Double.inRange z
  | JArray l => forallb inRange l
  | JObject fs => forallb (fun kv => inRange (snd kv)) fs
  | _ => true
  end.

Definition reads (v : json) : Prop :=
  forall ind pre rest fuel,
    blank ind -> blank pre -> boundary rest -> weight v <= fuel ->
    readValue fuel (pre ++ print ind v ++ rest) = Some (nullify v, rest).

Definition elemsWeight (l : list json) : nat :=
  fold_right (fun x n => S (weight x + n)) 0 l.

Definition fieldsWeight (fs : list (string * json)) : nat :=
  fold_right (fun kv n => S (weight (snd kv) + n)) 0 fs.

End Json.

(* ================================================================== *)
(** ** Import and export of the item list (App.jsx 345-351, 505) *)

Module Persist.
Import Json.

(** The two messages of the import handler. *)
Inductive ImportAlert : Type :=
| AlertNotArray        (* alert('JSON配列ではありません') *)
| AlertParseFailed.    (* alert('JSON読み込みに失敗しました') *)

(** The [onImport] handler of the import button: the new item list and the
    alert shown, if any. [items] is the list before the import. *)
Definition onImport (J : Impl) (text : string) (items : list json)
  : list json * option ImportAlert :=
  match parse J text with
  | None => (items, Some AlertParseFailed)          (* catch *)
  | Some (JArray arr) => (arr, None)                 (* Array.isArray(arr) *)
  | Some _ => (items, Some AlertNotArray)
  end.

(** The text that [exportItems] puts in the downloaded file. *)
Definition exportItems (J : Impl) (items : list json) : string :=
  stringify J (JArray items) 2.

(** A question item as the object literal of the source. *)
Definition itemToJson (it : Model.Item) : json :=
  JObject [ ("id", JNumber (Model.id it)); ("topic", JString (Model.topic it));
            ("question", JString (Model.question it));
            ("yesSample", JString (Model.yesSample it));
            ("noSample", JString (Model.noSample it)) ].

(** The text [{"a":1}]. *)
Definition objectText : string :=
  ("{" ++ String dquote "a" ++ String dquote ":1}")%string.

End Persist.

(* ================================================================== *)
(** ** Editing the item list (App.jsx 101, 339-344, 515-527) *)

Module Editing.
Import Model Controller.

(** [Array.from(new Set(l))] on strings: first occurrences, in order. *)
Fixpoint uniqStr (seen l : list string) : list string :=
  match l with
  | [] => []
  | x :: l' =>
      if existsb (String.eqb x) seen then uniqStr seen l'
      else x :: uniqStr (x :: seen) l'
  end.

(** [topics]: the options of the topic select, after "All". *)
Definition topics (its : list Item) : list string :=
  uniqStr [] (map topicOf its).

(** [items.reduce((m, it) => Math.max(m, it.id || 0), 0)]. The ids are whole
    numbers: [it.id || 0] is the id, and [Math.max] of two of them is
    exact. *)
Definition maxId (its : list Item) : Z :=
  fold_left (fun m it => Z.max m (id it)) its 0%Z.

(** The [newItem] of [addNewItem], from the render [r]; [maxId + 1] is a
    sum of doubles. *)
Definition newItem (r : RState) : Item :=
  {| id := Double.succ (maxId (items r));
     topic := if String.eqb (selectedTopic r) "All" then "Untitled"
              else selectedTopic r;
     question := "New question?"; yesSample := "Yes."; noSample := "No." |}.

(** [addNewItem], from the render [r]: [setItems(prev => [...prev, newItem])]. *)
Definition addNewItem (r : RState) (w : World) : World :=
  setItems (items (st w) ++ [newItem r]) w.

(** [prev.map(p => p.id === i ? f(p) : p)], the shape of the four field
    editors. *)
Definition updateById (i : Z) (f : Item -> Item) (its : list Item) : list Item :=
  map (fun p => if Z.eqb (id p) i then f p else p) its.

Definition withTopic (v : string) (p : Item) : Item :=
  {| id := id p; topic := v; question := question p;
     yesSample := yesSample p; noSample := noSample p |}.
Definition withQuestion (v : string) (p : Item) : Item :=
  {| id := id p; topic := topic p; question := v;
     yesSample := yesSample p; noSample := noSample p |}.
Definition withYesSample (v : string) (p : Item) : Item :=
  {| id := id p; topic := topic p; question := question p;
     yesSample := v; noSample := noSample p |}.
Definition withNoSample (v : string) (p : Item) : Item :=
  {| id := id p; topic := topic p; question := question p;
     yesSample := yesSample p; noSample := v |}.

(** The [onChange] handlers of the item with id [i]. *)
Definition editTopic (i : Z) (v : string) := updateById i (withTopic v).
Definition editQuestion (i : Z) (v : string) := updateById i (withQuestion v).
Definition editYesSample (i : Z) (v : string) := updateById i (withYesSample v).
Definition editNoSample (i : Z) (v : string) := updateById i (withNoSample v).

(** The delete button of the item with id [i], once confirmed:
    [prev.filter(p => p.id !== i)]. *)
Definition deleteItem (i : Z) (its : list Item) : list Item :=
  filter (fun p => negb (Z.eqb (id p) i)) its.

End Editing.

(* ================================================================== *)
(** ** Notions for the classifier *)

Module Normal.

(** A string of ASCII white space only (TAB, LF, VT, FF, CR, space), which
    [trim] removes. *)
Fixpoint allSpaces (s : string) : bool :=
  match s with
  | EmptyString => true
  | String c s' => Str.is_space c && allSpaces s'
  end.

(** A string of ASCII characters: on these [Str.toLowerCase] and [Str.trim]
    are the methods of the browser, which beyond them also lower other
    letters and strip other white space (U+00A0, U+FEFF, U+2028, ...). *)
Fixpoint isAscii (s : string) : bool :=
  match s with
  | EmptyString => true
  | String c s' => (nat_of_ascii c <? 128) && isAscii s'
  end.

End Normal.

(* ================================================================== *)
(** ** Notions for the practice flow *)

Module Flow.
Import Model Controller.

(** One advance with speech output off, as [reveal] makes it: [goNext] from
    the current render, then the render that follows and its effect. *)
Definition advance (o : Oracle) (w : World) : World :=
  flushEffects (st w) (goNext o (st w) w).

(** The range that the input of the practice time clamps to. *)
Definition clamped (r : RState) : Prop := 3 <= practiceSec r <= 20.

Definition speechRender (u : SpeechEnd) : RState :=
  match u with EndQuestion r => r | EndAnswer r => r end.

(** Every render held by the world has a clamped practice time, and every
    countdown waits for the practice time of the render that armed it. *)
Record Clamped (w : World) : Prop := {
  st_clamped : clamped (st w);
  timers_clamped :
    forall t, In t (timers w) ->
      match callback t with
      | CbReveal r => clamped r /\ delay t = (N.of_nat (practiceSec r) * 1000)%N
      | CbAsk r => clamped r
      | CbStartRecognition => True
      end;
  utterances_clamped : forall u, In u (utterances w) -> clamped (speechRender u);
  rec_clamped : clamped (recRender w)
}.

(** What changes neither the practice time nor anything pending. *)
Definition quiet (w w' : World) : Prop :=
  practiceSec (st w') = practiceSec (st w)
  /\ timers w' = timers w
  /\ utterances w' = utterances w
  /\ recRender w' = recRender w.

(** An oracle whose index draws are indices: [Math.floor(Math.random() * n)]
    is below [n]. *)
Definition drawsIndices (o : Oracle) : Prop :=
  forall d n, 0 < n -> randomIndex o d n < n.

End Flow.

(* ================================================================== *)
(** ** Local storage (App.jsx 12-25) *)

Module Storage.
Import Json Persist.

(** [JSON.stringify(v)], without a gap; here too a number that is not
    finite is written as [null]. *)
Fixpoint compact (v : json) : string :=
  match v with
  | JNull => "null"
  | JBool true => "true"
  | JBool false => "false"
  | JNumber z => printNumber z
  | JNonFinite _ => "null"
  | JString s => quote s
  | JArray l => ("[" ++ joinWith "," (map compact l) ++ "]")%string
  | JObject fs =>
      ("{" ++ joinWith ","
                (map (fun kv => (quote (fst kv) ++ ":" ++ compact (snd kv))%string) fs)
           ++ "}")%string
  end.

(** The reference [JSON] object with both ways of writing: no gap for
    [JSON.stringify(v)], the gap of two spaces otherwise (the only other
    one the application asks for). *)
Definition browserJSON : Impl :=
  {| parse := read;
     stringify := fun v n => match n with 0 => compact v | S _ => print EmptyString v end |}.

(** What [localStorage.getItem] does: it throws, returns [null], or returns
    the stored text. *)
Inductive GetItem : Type :=
| Throws
| Absent
| Stored (raw : string).

Definition defaults : list json := map itemToJson Model.defaultItems.

(** [loadFromLocalStorage] *)
Definition loadFromLocalStorage (J : Impl) (g : GetItem) : list json :=
  match g with
  | Throws => defaults                       (* catch *)
  | Absent => defaults                       (* !raw *)
  | Stored EmptyString => defaults           (* !raw *)
  | Stored raw =>
      match parse J raw with
      | None => defaults                     (* catch *)
      | Some (JArray (x :: l)) => x :: l
      | Some _ => defaults                   (* not an array, or empty *)
      end
  end.

(** [saveToLocalStorage(items)]: the content of the key afterwards; [store]
    is its content before, kept when [setItem] throws. *)
Definition saveToLocalStorage (J : Impl) (setItemThrows : bool)
                              (items : list json) (store : GetItem) : GetItem :=
  if setItemThrows then store else Stored (stringify J (JArray items) 0).

Definition compactField (kv : string * json) : string :=
  (quote (fst kv) ++ ":" ++ compact (snd kv))%string.

Definition readsCompact (v : json) : Prop :=
  forall rest fuel,
    boundary rest -> weight v <= fuel ->
    readValue fuel (compact v ++ rest) = Some (nullify v, rest).

End Storage.

(* ================================================================== *)
(** ** The self-tests of the classifier (App.jsx 354-376) *)

Module SelfTest.
Import Classifier.

(** [got === expected] on the results of [parseYesNo]. *)
Definition sameResult (a b : option YesNo) : bool :=
  match a, b with
  | None, None => true
  | Some yes, Some yes => true
  | Some no, Some no => true
  | _, _ => false
  end.

(** [cases]: the input and the expected result. *)
Definition cases : list (string * option YesNo) :=
  [("Yes", Some yes);
   ("No", Some no);
   ("Yeah, I think so", Some yes);
   ("Nope, I don't", Some no);
   ("I don't know", Some no);
   ("Absolutely yes", Some yes);
   ("Not really", Some no);
   ("Maybe", None);
   ("Yes, I can.", Some yes);
   ("I will not.", Some no);
   ("It is.", Some yes);
   ("It isn't.", Some no);
   ("Sure.", Some yes);
   ("No, thanks.", Some no)].

(** The cases on which [console.assert] reports a failure, each with the
    result that [parseYesNo] gave. *)
Definition failures : list (string * option YesNo * option YesNo) :=
  flat_map (fun c =>
              let got := parseYesNo (Some (fst c)) in
              if sameResult got (snd c) then [] else [(fst c, snd c, got)])
           cases.

(** The negative phrases that begin with an affirmative phrase. *)
Definition shadowed : list string :=
  filter (fun w => existsb (Str.startsWith w) yesWords) noWords.

End SelfTest.

(* ================================================================== *)
(** ** The pool of a session, in the words of the specification *)

Module SessionSpec.
Import Model.

(** An item of the topic-filtered pool: an item of the list that passes
    the filter of the selected topic. "All" lets every item pass, and an
    item without a topic is filed under "Untitled". *)
Definition inPool (r : RState) (it : Item) : Prop :=
  In it (items r)
  /\ (selectedTopic r = "All"
      \/ selectedTopic r = (if String.eqb (topic it) "" then "Untitled" else topic it)).

(** [ids] lists the distinct ids of the pool: the id of every item of the
    pool, each once. *)
Definition distinctPoolIds (r : RState) (ids : list Z) : Prop :=
  NoDup ids /\ forall i, In i ids <-> exists it, inPool r it /\ id it = i.

(** Twelve items with the ids 1 to 12, the first four of the topic "Drill". *)
Definition twelveItems : list Item :=
  map (fun k => {| id := Z.of_nat k;
                   topic := if k <=? 4 then "Drill" else "Other";
                   question := "Is it?"; yesSample := "Yes, it is.";
                   noSample := "No, it isn't." |})
      (seq 1 12).

End SessionSpec.

(* ================================================================== *)
(** * Properties *)

(** ** The string built-ins *)

Module StrFacts.
Import Str.

Lemma startsWith_spec (t w : string) :
  startsWith t w = true <-> exists r, t = (w ++ r)%string.
Proof.
  revert t; induction w as [|a w IH]; intros t; simpl.
  - split; [intros _; now exists t | reflexivity].
  - destruct t as [|b t].
    + split; [discriminate | intros [r Hr]; discriminate].
    + rewrite andb_true_iff, Ascii.eqb_eq, IH. split.
      * intros [-> [r ->]]. now exists r.
      * intros [r Hr]. injection Hr as -> ->. split; [reflexivity | now exists r].
Qed.

Lemma includes_spec (t w : string) :
  includes t w = true <-> exists a b, t = (a ++ w ++ b)%string.
Proof.
  induction t as [|c t IH].
  - simpl. rewrite orb_false_r, startsWith_spec. split.
    + intros [r Hr]. now exists EmptyString, r.
    + intros [a [b H]]. destruct a; simpl in H; [now exists b | discriminate].
  - cbn [includes]. rewrite orb_true_iff, startsWith_spec, IH. split.
    + intros [[r Hr] | [a [b H]]].
      * now exists EmptyString, r.
      * exists (String c a), b. simpl. now rewrite H.
    + intros [a [b H]]. destruct a as [|c' a]; simpl in H.
      * left. now exists b.
      * right. injection H as _ H. now exists a, b.
Qed.

End StrFacts.

(** ** The classifier *)

Module ClassifierFacts.
Import Classifier.

Lemma phrase_matches_rule (t w : string) :
  phrase_matches t w = true <-> matches_rule t w.
Proof.
  unfold phrase_matches, matches_rule.
  rewrite !orb_true_iff, StrFacts.startsWith_spec, StrFacts.includes_spec,
    String.eqb_eq.
  tauto.
Qed.

(** No phrase of either list is empty, so none matches the empty string. *)
Lemma no_phrase_matches_empty :
  existsb (phrase_matches EmptyString) yesWords = false
  /\ existsb (phrase_matches EmptyString) noWords = false.
Proof. split; reflexivity. Qed.

Lemma normalize_empty : normalize EmptyString = EmptyString.
Proof. reflexivity. Qed.

Lemma parseYesNo_nonempty (c : ascii) (s : string) :
  parseYesNo (Some (String c s)) =
  if existsb (phrase_matches (normalize (String c s))) yesWords then Some yes
  else if existsb (phrase_matches (normalize (String c s))) noWords then Some no
  else None.
Proof. reflexivity. Qed.

(** The self-tests of the source (App.jsx 354-376) that the classifier
    passes, and the four it does not. *)
Example selftests_passed :
  map (fun s => parseYesNo (Some s))
      ["Yes"; "No"; "Yeah, I think so"; "Nope, I don't"; "Not really";
       "Maybe"; "Yes, I can."; "It is."; "Sure."; "No, thanks."]
  = [Some yes; Some no; Some yes; Some no; Some no;
     None; Some yes; Some yes; Some yes; Some no].
Proof. reflexivity. Qed.

Example selftests_failed :
  map (fun s => parseYesNo (Some s))
      ["I don't know"; "Absolutely yes"; "I will not."; "It isn't."]
  = [Some yes; None; Some yes; Some yes].
Proof. reflexivity. Qed.

(** C3. Whenever some affirmative phrase and some negative phrase both match
    the normalized transcript, [parseYesNo] answers [yes]: the affirmative
    list is consulted first. *)
Theorem parseYesNo_affirmative_wins (transcript : string) :
  (exists w, In w yesWords /\ phrase_matches (normalize transcript) w = true) ->
  (exists w, In w noWords /\ phrase_matches (normalize transcript) w = true) ->
  parseYesNo (Some transcript) = Some yes.
Proof.
  intros Hy _.
  assert (E : existsb (phrase_matches (normalize transcript)) yesWords = true)
    by (apply existsb_exists; exact Hy).
  destruct transcript as [|c s].
  - rewrite normalize_empty in E.
    rewrite (proj1 no_phrase_matches_empty) in E. discriminate.
  - rewrite parseYesNo_nonempty, E. reflexivity.
Qed.

(** The transcript of the self-test "It isn't." matches "it is" of the
    affirmative list and "it isn't" of the negative list. *)
Lemma parseYesNo_affirmative_wins_witness :
  parseYesNo (Some "It isn't.") = Some yes.
Proof.
  apply parseYesNo_affirmative_wins.
  - exists "it is". split; [simpl; tauto | reflexivity].
  - exists "it isn't". split; [simpl; tauto | reflexivity].
Defined.

(** C4. The rule the code implements is the one the claim states
    ([phrase_matches_rule]), but it does not keep a phrase from matching
    inside a word: on the transcript of the source's own self-test
    ["I don't know", "no"] the phrase "i do" matches although its only
    occurrence runs into "don't", and the classifier answers [yes];
    likewise "no" matches "nothing". A phrase followed by punctuation, as in
    "yes, i can.", does occur as a whole word. *)
Theorem phrase_matches_inside_a_word :
  normalize "I don't know" = "i don't know"
  /\ phrase_matches "i don't know" "i do" = true
  /\ occursAsWholeWord "i don't know" "i do" = false
  /\ parseYesNo (Some "I don't know") = Some yes
  /\ phrase_matches "nothing" "no" = true
  /\ occursAsWholeWord "nothing" "no" = false
  /\ parseYesNo (Some "Nothing") = Some no
  /\ occursAsWholeWord "yes, i can." "yes" = true.
Proof. repeat split; reflexivity. Qed.

(** C8. [parseYesNo] is a function of its argument alone, and it answers
    [null] on a missing transcript, on the empty string, on "maybe", and on
    every transcript that no phrase of either list matches. *)
Theorem parseYesNo_unknown :
  (forall a b : option string, a = b -> parseYesNo a = parseYesNo b)
  /\ parseYesNo None = None
  /\ parseYesNo (Some "") = None
  /\ parseYesNo (Some "maybe") = None
  /\ (forall s : string,
        (forall w, In w (yesWords ++ noWords) ->
                   phrase_matches (normalize s) w = false) ->
        parseYesNo (Some s) = None).
Proof.
  split; [intros a b ->; reflexivity|].
  do 3 (split; [reflexivity|]).
  intros s H. destruct s as [|c s]; [reflexivity|].
  rewrite parseYesNo_nonempty.
  assert (Ey : existsb (phrase_matches (normalize (String c s))) yesWords = false).
  { apply not_true_is_false. intros E. apply existsb_exists in E.
    destruct E as [w [Hin Hm]]. rewrite H in Hm; [discriminate|].
    apply in_or_app. now left. }
  assert (En : existsb (phrase_matches (normalize (String c s))) noWords = false).
  { apply not_true_is_false. intros E. apply existsb_exists in E.
    destruct E as [w [Hin Hm]]. rewrite H in Hm; [discriminate|].
    apply in_or_app. now right. }
  now rewrite Ey, En.
Qed.

Lemma parseYesNo_unknown_witness :
  parseYesNo (Some "Maybe") = None.
Proof.
  apply (proj2 (proj2 (proj2 (proj2 parseYesNo_unknown)))).
  intros w Hin. simpl in Hin.
  repeat (destruct Hin as [<- | Hin]; [reflexivity|]). contradiction.
Defined.

End ClassifierFacts.

(** ** Drawing a session *)

Module SessionFacts.
Import Model Controller.

Lemma mem_In (x : Z) (l : list Z) : existsb (Z.eqb x) l = true <-> In x l.
Proof.
  rewrite existsb_exists. split.
  - intros [y [Hin E]]. apply Z.eqb_eq in E. now subst.
  - intros Hin. exists x. split; [assumption | apply Z.eqb_refl].
Qed.

Lemma uniq_In (x : Z) (l seen : list Z) :
  In x (uniq seen l) <-> In x l /\ ~ In x seen.
Proof.
  revert seen; induction l as [|y l IH]; intros seen; simpl.
  - tauto.
  - destruct (existsb (Z.eqb y) seen) eqn:E.
    + apply mem_In in E. rewrite IH. split.
      * intros [H1 H2]. tauto.
      * intros [[-> | H1] H2]; [contradiction | tauto].
    + assert (Hy : ~ In y seen) by (rewrite <- mem_In, E; discriminate).
      simpl. rewrite IH. simpl. split.
      * intros [-> | [H1 H2]]; [tauto|]. split; [tauto|]. intros H3. apply H2. now right.
      * intros [[-> | H1] H2]; [now left|].
        destruct (Z.eq_dec y x) as [-> | Hne]; [now left | right].
        split; [assumption|]. intros [H3 | H3]; contradiction.
Qed.

Lemma uniq_NoDup (l seen : list Z) : NoDup (uniq seen l).
Proof.
  revert seen; induction l as [|y l IH]; intros seen; simpl.
  - constructor.
  - destruct (existsb (Z.eqb y) seen); [apply IH|].
    constructor; [|apply IH].
    rewrite uniq_In. simpl. tauto.
Qed.

(** A list without repetition is left as it is. *)
Lemma uniq_NoDup_id (l seen : list Z) :
  NoDup l -> (forall x, In x l -> ~ In x seen) -> uniq seen l = l.
Proof.
  revert seen; induction l as [|y l IH]; intros seen Hnd Hs; simpl.
  - reflexivity.
  - inversion Hnd as [|? ? Hy Hl]; subst.
    destruct (existsb (Z.eqb y) seen) eqn:E.
    + apply mem_In in E. exfalso. apply (Hs y); [now left | assumption].
    + f_equal. apply IH; [assumption|].
      intros x Hx [<- | Hin]; [contradiction|].
      apply (Hs x); [now right | assumption].
Qed.

(** [uniqueIds] lists each id of the pool exactly once: its length is the
    number of distinct ids of the pool. *)
Lemma uniqueIds_spec (pool : list Item) :
  NoDup (uniqueIds pool)
  /\ (forall i, In i (uniqueIds pool) <-> In i (map id pool)).
Proof.
  split; [apply uniq_NoDup|].
  intros i. unfold uniqueIds. rewrite uniq_In. simpl. tauto.
Qed.

Lemma uniqueIds_length_distinct (pool : list Item) :
  NoDup (map id pool) -> List.length (uniqueIds pool) = List.length pool.
Proof.
  intros H. unfold uniqueIds. rewrite uniq_NoDup_id; [apply length_map | assumption |].
  intros x _ [].
Qed.

Lemma NoDup_firstn {A : Type} (n : nat) (l : list A) :
  NoDup l -> NoDup (firstn n l).
Proof.
  revert n; induction l as [|x l IH]; intros n H.
  - rewrite firstn_nil. constructor.
  - destruct n; simpl; [constructor|].
    inversion H as [|? ? Hx Hl]; subst. constructor; [|now apply IH].
    intros Hin. apply Hx. rewrite <- (firstn_skipn n l). apply in_or_app. now left.
Qed.

Lemma In_firstn {A : Type} (n : nat) (l : list A) (x : A) :
  In x (firstn n l) -> In x l.
Proof.
  intros H. rewrite <- (firstn_skipn n l). apply in_or_app. now left.
Qed.

(** The ids drawn for a session, whatever permutation the shuffle produces. *)
Lemma sessionIds_spec (sh : list Z -> list Z) (count : nat) (pool : list Item) :
  Permutation (uniqueIds pool) (sh (uniqueIds pool)) ->
  List.length (sessionIds sh count pool)
    = Nat.min count (List.length (uniqueIds pool))
  /\ NoDup (sessionIds sh count pool)
  /\ (forall i, In i (sessionIds sh count pool) ->
                exists it, In it pool /\ id it = i).
Proof.
  intros P. unfold sessionIds.
  pose proof (Permutation_length P) as HL.
  destruct (uniqueIds_spec pool) as [Hnd Hin].
  split; [|split].
  - rewrite length_firstn, <- HL. lia.
  - apply NoDup_firstn. eapply Permutation_NoDup; eassumption.
  - intros i Hi. apply In_firstn in Hi.
    apply (Permutation_in _ (Permutation_sym P)) in Hi.
    apply Hin in Hi. apply in_map_iff in Hi.
    destruct Hi as [it [E Hit]]. now exists it.
Qed.

Lemma buildSession_sessionSet (o : Oracle) (count : nat) (r : RState) (w : World) :
  sessionSet (st (buildSession o count r w))
    = Some (sessionIds (shuffle o (draws w)) count (topicPool r))
  /\ sessionCursor (st (buildSession o count r w)) = 0.
Proof. split; reflexivity. Qed.

Lemma topicPool_inPool (r : RState) (it : Item) :
  In it (topicPool r) <-> SessionSpec.inPool r it.
Proof.
  unfold topicPool, SessionSpec.inPool, topicOf.
  destruct (String.eqb_spec (selectedTopic r) "All") as [E | E].
  - tauto.
  - rewrite filter_In, String.eqb_eq. split.
    + intros [H1 H2]. split; [assumption | right; now symmetry].
    + intros [H1 [H2 | H2]]; [contradiction | split; [assumption | now symmetry]].
Qed.

(** The distinct ids of the pool are those that the code collects, in some
    order. *)
Lemma distinctPoolIds_length (r : RState) (distinct : list Z) :
  SessionSpec.distinctPoolIds r distinct ->
  List.length (uniqueIds (topicPool r)) = List.length distinct.
Proof.
  intros [D M]. destruct (uniqueIds_spec (topicPool r)) as [U V].
  apply Permutation_length, NoDup_Permutation; [assumption | assumption |].
  intros i. rewrite V, M, in_map_iff. split.
  - intros [it [E H]]. exists it. split; [now apply topicPool_inPool | assumption].
  - intros [it [H E]]. exists it. split; [assumption | now apply topicPool_inPool].
Qed.

(** Every state has such a list. *)
Lemma distinctPoolIds_exists (r : RState) :
  exists distinct, SessionSpec.distinctPoolIds r distinct.
Proof.
  exists (uniqueIds (topicPool r)).
  destruct (uniqueIds_spec (topicPool r)) as [U V].
  split; [assumption|]. intros i. rewrite V, in_map_iff. split.
  - intros [it [E H]]. exists it. split; [now apply topicPool_inPool | assumption].
  - intros [it [H E]]. exists it. split; [assumption | now apply topicPool_inPool].
Qed.

(** When the ids of the pool are distinct, they are that list. *)
Lemma distinctPoolIds_pool (r : RState) :
  NoDup (map id (topicPool r)) ->
  SessionSpec.distinctPoolIds r (map id (topicPool r)).
Proof.
  intros D. split; [assumption|]. intros i. rewrite in_map_iff. split.
  - intros [it [E H]]. exists it. split; [now apply topicPool_inPool | assumption].
  - intros [it [H E]]. exists it. split; [assumption | now apply topicPool_inPool].
Qed.

(** C5. Starting a session stores, as the session's id sequence, exactly
    [min count n] ids, where [n] is the number of distinct ids of the
    topic-filtered pool; they are pairwise distinct and each is the id of an
    item of the pool. With [count = 10]: ten ids when the pool has at least
    ten distinct ids, four when it has four. The pool and its distinct ids
    are those of [SessionSpec]. *)
Theorem buildSession_draws_distinct_pool_ids
    (o : Oracle) (count : nat) (r : RState) (w : World) (distinct : list Z) :
  (forall d l, Permutation l (shuffle o d l)) ->
  SessionSpec.distinctPoolIds r distinct ->
  exists ids,
    sessionSet (st (buildSession o count r w)) = Some ids
    /\ List.length ids = Nat.min count (List.length distinct)
    /\ NoDup ids
    /\ (forall i, In i ids -> exists it, SessionSpec.inPool r it /\ id it = i)
    /\ (count = 10 -> 10 <= List.length distinct -> List.length ids = 10)
    /\ (count = 10 -> List.length distinct = 4 -> List.length ids = 4).
Proof.
  intros P S.
  exists (sessionIds (shuffle o (draws w)) count (topicPool r)).
  destruct (sessionIds_spec (shuffle o (draws w)) count (topicPool r) (P _ _))
    as [HL [Hnd Hin]].
  rewrite (distinctPoolIds_length r distinct S) in HL.
  split; [apply buildSession_sessionSet|].
  split; [exact HL|]. split; [exact Hnd|]. split; [|split].
  - intros i Hi. destruct (Hin i Hi) as [it [H E]].
    exists it. split; [now apply topicPool_inPool | assumption].
  - intros -> H. rewrite HL. lia.
  - intros -> H. rewrite HL, H. reflexivity.
Qed.

Lemma buildSession_draws_distinct_pool_ids_witness :
  (exists ids,
      sessionSet (st (buildSession reversing 10 (initState defaultItems)
                                   (mount defaultItems true))) = Some ids
      /\ List.length ids = 5)
  /\ (exists ids,
        sessionSet (st (buildSession reversing 10 (initState SessionSpec.twelveItems)
                                     (mount SessionSpec.twelveItems true))) = Some ids
        /\ List.length ids = 10)
  /\ (exists ids,
        sessionSet (st (buildSession reversing 10
                          (set_selectedTopic "Drill" (initState SessionSpec.twelveItems))
                          (mount SessionSpec.twelveItems true))) = Some ids
        /\ List.length ids = 4).
Proof.
  assert (P : forall (d : nat) (l : list Z), Permutation l (shuffle reversing d l))
    by (intros d l; apply Permutation_rev).
  split; [|split].
  - destruct (buildSession_draws_distinct_pool_ids reversing 10
                (initState defaultItems) (mount defaultItems true)
                [1; 2; 3; 4; 5]%Z P)
      as [ids (E & HL & _)].
    + apply (distinctPoolIds_pool (initState defaultItems)).
      cbn. repeat constructor; cbn; intuition discriminate.
    + exists ids. split; [exact E | exact HL].
  - destruct (buildSession_draws_distinct_pool_ids reversing 10
                (initState SessionSpec.twelveItems)
                (mount SessionSpec.twelveItems true)
                [1; 2; 3; 4; 5; 6; 7; 8; 9; 10; 11; 12]%Z P)
      as [ids (E & _ & _ & _ & H10 & _)].
    + apply (distinctPoolIds_pool (initState SessionSpec.twelveItems)).
      cbn. repeat constructor; cbn; intuition discriminate.
    + exists ids. split; [exact E | apply H10; [reflexivity | cbn; lia]].
  - destruct (buildSession_draws_distinct_pool_ids reversing 10
                (set_selectedTopic "Drill" (initState SessionSpec.twelveItems))
                (mount SessionSpec.twelveItems true)
                [1; 2; 3; 4]%Z P)
      as [ids (E & _ & _ & _ & _ & H4)].
    + apply (distinctPoolIds_pool
               (set_selectedTopic "Drill" (initState SessionSpec.twelveItems))).
      cbn. repeat constructor; cbn; intuition discriminate.
    + exists ids. split; [exact E | apply H4; reflexivity].
Defined.

Example session_of_default_items :
  sessionSet (st (buildSession reversing 3 (initState defaultItems)
                               (mount defaultItems true)))
  = Some [5; 4; 3]%Z.
Proof. reflexivity. Qed.

End SessionFacts.

(** ** The practice flow *)

Module ControllerFacts.
Import Model Controller.

Ltac split_cases :=
  repeat match goal with
         | |- context [if ?b then _ else _] => destruct b
         | |- context [match ?x with _ => _ end] => destruct x
         end.

Lemma same_timers_refl (w : World) : same_timers w w.
Proof. repeat split. Qed.

Lemma same_timers_trans (a b c : World) :
  same_timers a b -> same_timers b c -> same_timers a c.
Proof.
  intros (H1 & H2 & H3) (K1 & K2 & K3).
  repeat split; congruence.
Qed.

Lemma same_timers_resetNeeded (w : World) : same_timers w (resetNeeded w).
Proof. repeat split. Qed.

Lemma same_timers_speak (c : SpeechEnd) (w : World) : same_timers w (speak c w).
Proof. unfold speak. destruct (ttsAvailable w); repeat split. Qed.

Lemma same_timers_startRecognition (w : World) :
  same_timers w (startRecognition w).
Proof. repeat split. Qed.

Lemma same_timers_buildSession o count r w :
  same_timers w (buildSession o count r w).
Proof. repeat split. Qed.

Lemma same_timers_goNext o r w : same_timers w (goNext o r w).
Proof. unfold same_timers, goNext. split_cases; repeat split. Qed.

Lemma same_timers_reveal o r w : same_timers w (reveal o r w).
Proof.
  unfold reveal. destruct (useTTS r).
  - eapply same_timers_trans; [|apply same_timers_speak]. repeat split.
  - eapply same_timers_trans; [|apply same_timers_goNext]. repeat split.
Qed.

Lemma Inv_same_timers (w w' : World) : same_timers w w' -> Inv w -> Inv w'.
Proof.
  intros (H1 & H2 & H3) [F D C].
  split; unfold countdowns; rewrite ?H1, ?H2, ?H3; assumption.
Qed.

Lemma In_drop_timer (h : nat) (ts : list Timer) (t : Timer) :
  In t (drop_timer h ts) <-> In t ts /\ tid t <> h.
Proof.
  unfold drop_timer. rewrite filter_In, negb_true_iff, Nat.eqb_neq. tauto.
Qed.

(** Handles stay distinct when timers are removed. *)
Lemma tids_distinct_filter (keep : Timer -> bool) (ts : list Timer) :
  NoDup (map tid ts) -> NoDup (map tid (filter keep ts)).
Proof.
  induction ts as [|t ts IH]; cbn; intros D; [constructor|].
  apply NoDup_cons_iff in D. destruct D as [Ht D].
  destruct (keep t); cbn; [|now apply IH].
  apply NoDup_cons; [|now apply IH].
  intros Hin. apply Ht. apply in_map_iff in Hin.
  destruct Hin as [u [E Hu]]. apply filter_In in Hu.
  apply in_map_iff. exists u. tauto.
Qed.

Lemma filter_drop_timer (h : nat) (ts : list Timer) :
  filter isCountdown (drop_timer h ts) = drop_timer h (filter isCountdown ts).
Proof.
  unfold drop_timer. induction ts as [|t ts IH]; simpl; [reflexivity|].
  destruct (isCountdown t) eqn:C, (negb (tid t =? h)) eqn:E; simpl;
    rewrite ?C, ?E, IH; reflexivity.
Qed.

(** Removing a timer, as [clearTimeout] and the firing of a timeout do. *)
Lemma Inv_drop (h : nat) (w : World) :
  Inv w -> Inv (set_timers (drop_timer h (timers w)) (nextTimer w) w).
Proof.
  intros [F D C]. split; cbn.
  - intros t Ht. apply In_drop_timer in Ht. apply F. tauto.
  - apply tids_distinct_filter. assumption.
  - intros t Ht. unfold countdowns in *. cbn in Ht.
    rewrite filter_drop_timer in Ht. apply In_drop_timer in Ht.
    apply C. tauto.
Qed.

Lemma Inv_clearTimeout (h : option nat) (w : World) :
  Inv w -> Inv (clearTimeout h w).
Proof. destruct h; cbn; [apply Inv_drop | trivial]. Qed.

(** After [clearTimeout(practiceTimerRef.current)] no countdown is armed. *)
Lemma countdowns_clear_ref (w : World) :
  Inv w -> countdowns (clearTimeout (practiceTimerRef w) w) = [].
Proof.
  intros [F D C]. unfold countdowns in *.
  destruct (practiceTimerRef w) as [h|] eqn:R; cbn.
  - rewrite filter_drop_timer.
    destruct (drop_timer h (filter isCountdown (timers w))) as [|t l] eqn:E;
      [reflexivity|].
    assert (Ht : In t (drop_timer h (filter isCountdown (timers w))))
      by (rewrite E; now left).
    apply In_drop_timer in Ht. destruct Ht as [Ht Hne].
    apply C in Ht. congruence.
  - destruct (filter isCountdown (timers w)) as [|t l] eqn:E; [reflexivity|].
    specialize (C t (or_introl eq_refl)). discriminate.
Qed.

(** A timeout that is not a countdown. *)
Lemma Inv_setTimeout (cb : Callback) (ms : N) (w : World) :
  (forall r, cb <> CbReveal r) -> Inv w -> Inv (setTimeout cb ms w).
Proof.
  intros Hcb [F D C]. split; cbn.
  - intros t Ht. apply in_app_or in Ht. destruct Ht as [Ht | [<- | []]].
    + apply F in Ht. lia.
    + cbn. lia.
  - rewrite map_app. apply NoDup_app; [assumption | repeat constructor; intros [] |].
    intros a Ha [<- | []]. apply in_map_iff in Ha.
    destruct Ha as [t [E Ht]]. apply F in Ht. cbn in E. lia.
  - intros t Ht. unfold countdowns in *. cbn in Ht.
    rewrite filter_app in Ht. apply in_app_or in Ht.
    destruct Ht as [Ht | Ht]; [now apply C|].
    cbn in Ht. unfold isCountdown in Ht. cbn in Ht.
    destruct cb; try contradiction. exfalso. now apply (Hcb r).
Qed.

(** Arming the countdown: the timer held by the ref is cleared first, so
    the new countdown is the only one. *)
Lemma armCountdown_spec (r : RState) (w : World) :
  Inv w ->
  Inv (armCountdown r w)
  /\ countdowns (armCountdown r w)
     = [{| tid := nextTimer w; delay := (N.of_nat (practiceSec r) * 1000)%N;
           callback := CbReveal r |}]
  /\ practiceTimerRef (armCountdown r w) = Some (nextTimer w).
Proof.
  intros I.
  pose proof (Inv_clearTimeout (practiceTimerRef w) w I) as I1.
  pose proof (countdowns_clear_ref w I) as E1.
  assert (N : nextTimer (clearTimeout (practiceTimerRef w) w) = nextTimer w)
    by (destruct (practiceTimerRef w); reflexivity).
  set (w1 := clearTimeout (practiceTimerRef w) w) in *.
  destruct I1 as [F D C].
  assert (K : countdowns (armCountdown r w)
              = [{| tid := nextTimer w;
                    delay := (N.of_nat (practiceSec r) * 1000)%N;
                    callback := CbReveal r |}]).
  { unfold armCountdown, countdowns in *. fold w1. cbn.
    rewrite filter_app, E1, N. reflexivity. }
  split; [|split]; [|exact K|].
  - split.
    + unfold armCountdown. fold w1. cbn.
      intros t Ht. apply in_app_or in Ht. destruct Ht as [Ht | [<- | []]].
      * apply F in Ht. lia.
      * cbn. lia.
    + unfold armCountdown. fold w1. cbn.
      rewrite map_app. apply NoDup_app; [assumption | repeat constructor; intros [] |].
      intros a Ha [<- | []]. apply in_map_iff in Ha.
      destruct Ha as [t [E Ht]]. apply F in Ht. cbn in E. lia.
    + rewrite K. intros t [<- | []]. unfold armCountdown. fold w1. cbn.
      now rewrite N.
  - unfold armCountdown. fold w1. cbn. now rewrite N.
Qed.

Lemma Inv_ask (r : RState) (w : World) : Inv w -> Inv (ask r w).
Proof.
  intros I. unfold ask. destruct (useTTS r).
  - eapply Inv_same_timers; [|exact I].
    eapply same_timers_trans; [|apply same_timers_speak]. repeat split.
  - apply armCountdown_spec. eapply Inv_same_timers; [|exact I]. repeat split.
Qed.

Lemma Inv_endQuestion (r : RState) (w : World) : Inv w -> Inv (endQuestion r w).
Proof.
  intros I. unfold endQuestion. apply armCountdown_spec.
  apply Inv_setTimeout; [discriminate | exact I].
Qed.

Lemma Inv_reveal o r w : Inv w -> Inv (reveal o r w).
Proof. apply Inv_same_timers, same_timers_reveal. Qed.

Lemma Inv_fastReveal o r w : Inv w -> Inv (fastReveal o r w).
Proof.
  intros I. unfold fastReveal. destruct (Phase_eqb (phase r) Practice); [|exact I].
  now apply Inv_reveal, Inv_clearTimeout.
Qed.

Lemma Inv_onresult o r txt fin w : Inv w -> Inv (onresult o r txt fin w).
Proof.
  intros I. unfold onresult.
  destruct fin; [|now apply (Inv_same_timers w)].
  destruct (Classifier.parseYesNo (Some txt)); [|now apply (Inv_same_timers w)].
  match goal with |- context [if ?b then _ else _] => destruct b end.
  - apply Inv_fastReveal. now apply (Inv_same_timers w).
  - now apply (Inv_same_timers w).
Qed.

Lemma Inv_flushEffects old w : Inv w -> Inv (flushEffects old w).
Proof.
  intros I. unfold flushEffects.
  match goal with |- context [if ?b then _ else _] => destruct b end; [exact I|].
  destruct (autoAdvanceRef w); [|exact I].
  apply Inv_setTimeout; [discriminate|]. now apply (Inv_same_timers w).
Qed.

Lemma Inv_handle o ev w : Inv w -> Inv (handle o ev w).
Proof.
  intros I. destruct ev; cbn [handle];
    try (now apply (Inv_same_timers w)).
  - destruct (current (st w)); [now apply Inv_ask | exact I].
  - destruct (sessionSet (st w)); [exact I|].
    eapply Inv_same_timers; [apply same_timers_buildSession | exact I].
  - destruct (find (fun t => tid t =? h) (timers w)) as [t|]; [|exact I].
    pose proof (Inv_drop h w I) as I1.
    destruct (callback t); cbn [runCallback].
    + now apply Inv_reveal.
    + now apply (Inv_same_timers _ _ (same_timers_startRecognition _)).
    + now apply Inv_ask.
  - destruct (nth_error (utterances w) k) as [c|]; [|exact I].
    assert (I1 : Inv (set_utterances (remove_nth k (utterances w)) w))
      by now apply (Inv_same_timers w).
    destruct c; cbn [runSpeechEnd].
    + now apply Inv_endQuestion.
    + eapply Inv_same_timers; [apply same_timers_goNext | exact I1].
  - now apply Inv_onresult.
Qed.

Lemma Inv_step o ev w : Inv w -> Inv (step o ev w).
Proof. intros I. unfold step. now apply Inv_flushEffects, Inv_handle. Qed.

Lemma Inv_mount items0 tts : Inv (mount items0 tts).
Proof. split; cbn; [intros t [] | constructor | intros t []]. Qed.

Lemma reachable_Inv o w : reachable o w -> Inv w.
Proof.
  induction 1 as [items0 tts | w ev _ IH]; [apply Inv_mount | now apply Inv_step].
Qed.

Lemma reachable_run o evs w : reachable o w -> reachable o (run o evs w).
Proof.
  revert w; induction evs as [|ev evs IH]; intros w H; cbn; [exact H|].
  apply IH. now constructor.
Qed.

Lemma NoDup_constant {A : Type} (a : A) (l : list A) :
  NoDup l -> (forall x, In x l -> x = a) -> List.length l <= 1.
Proof.
  intros H Hc. destruct l as [|x [|y l]]; cbn; try lia.
  exfalso. inversion H as [|? ? Hx _]; subst. apply Hx.
  rewrite (Hc x), (Hc y); cbn; auto.
Qed.

Lemma Inv_at_most_one (w : World) : Inv w -> List.length (countdowns w) <= 1.
Proof.
  intros [F D C].
  destruct (practiceTimerRef w) as [h|] eqn:R.
  - rewrite <- (length_map tid). apply (NoDup_constant h).
    + unfold countdowns. now apply tids_distinct_filter.
    + intros x Hx. apply in_map_iff in Hx. destruct Hx as [t [<- Ht]].
      apply C in Ht. congruence.
  - destruct (countdowns w) as [|t l] eqn:E; cbn; [lia|].
    specialize (C t (or_introl eq_refl)). discriminate.
Qed.

(** *** The closure of the recognition handler *)

Lemma recRender_handle o ev w : recRender (handle o ev w) = recRender w.
Proof.
  destruct ev; cbn [handle];
    unfold ask, buildSession, onresult, fastReveal, runCallback, runSpeechEnd,
      endQuestion, reveal, goNext, ask, armCountdown, speak, clearTimeout,
      startRecognition;
    split_cases; reflexivity.
Qed.

Lemma recRender_step o ev w : recRender (step o ev w) = recRender w.
Proof.
  unfold step, flushEffects. rewrite <- (recRender_handle o ev w).
  split_cases; reflexivity.
Qed.

(** [rec.onresult] is installed once, by the effect of the first render:
    the [phase] its [fastReveal] reads is the initial ['idle'], for ever. *)
Lemma reachable_recRender o w : reachable o w -> phase (recRender w) = Idle.
Proof.
  induction 1 as [items0 tts | w ev _ IH]; [reflexivity|].
  now rewrite recRender_step.
Qed.

Lemma fastReveal_stale o r w : phase r = Idle -> fastReveal o r w = w.
Proof. intros H. unfold fastReveal. now rewrite H. Qed.

Lemma onresult_stale o r txt fin w :
  phase r = Idle ->
  exists n s, onresult o r txt fin w = setRecognized s (setNeeded n w)
              \/ onresult o r txt fin w = setNeeded n (setRecognized s w).
Proof.
  intros H. unfold onresult. exists
    (match (if fin then Classifier.parseYesNo (Some txt) else None) with
     | Some yn => answered yn (needed (st w))
     | None => needed (st w)
     end), txt.
  destruct fin; [|left; destruct w as [[] ]; reflexivity].
  destruct (Classifier.parseYesNo (Some txt)) as [yn|];
    [|left; destruct w as [[] ]; reflexivity].
  right. rewrite fastReveal_stale by exact H.
  match goal with |- context [if ?b then _ else _] => destruct b end; reflexivity.
Qed.

(** C1. A recognition result never ends the practice early: in every
    reachable state the handler leaves the phase, the pending timers and the
    pending utterances as they are, because the [fastReveal] it calls
    belongs to the first render, whose [phase] is ['idle']. On the run "ask,
    question spoken, final Yes, final No" both flags are false, the phase is
    still ['practice'] and countdown 2 is still armed; the reveal comes only
    when that countdown fires. *)
Theorem early_reveal_never_taken (o : Oracle) :
  (forall w txt fin,
      reachable o w ->
      phase (st (step o (RecResult txt fin) w)) = phase (st w)
      /\ timers (step o (RecResult txt fin) w) = timers w
      /\ utterances (step o (RecResult txt fin) w) = utterances w)
  /\ (let w := run o [ClickAsk; SpeechEnded 0; RecResult "Yes" true;
                      RecResult "No" true] (mount defaultItems true) in
      needed (st w) = {| yes := false; no := false |}
      /\ phase (st w) = Practice
      /\ map tid (countdowns w) = [2]
      /\ phase (st (step o (Timeout 2) w)) = Reveal).
Proof.
  split.
  - intros w txt fin R.
    pose proof (reachable_recRender o w R) as H.
    destruct (onresult_stale o (recRender w) txt fin w H) as [n [s [E | E]]];
      unfold step, flushEffects; cbn [handle]; rewrite E; cbn;
      rewrite !Nat.eqb_refl; cbn; repeat split.
  - repeat split; reflexivity.
Qed.

Lemma early_reveal_never_taken_witness :
  phase (st (step reversing (RecResult "No" true)
                  (run reversing
                       [ClickAsk; SpeechEnded 0; RecResult "Yes" true]
                       (mount defaultItems true)))) = Practice.
Proof.
  rewrite (proj1 (proj1 (early_reveal_never_taken reversing) _ _ _
             (reachable_run _ _ _ (reach_mount _ defaultItems true)))).
  reflexivity.
Defined.

(** *** Entering the practice phase *)

(** C7. [ask] resets the tracker to [{ yes: true, no: true }] and sets the
    phase to ['practice'], whatever the render it is called from and
    whatever the state; recognition is started, and the question spoken,
    from the state [w0] in which the tracker is already reset. *)
Theorem ask_resets_tracker (r : RState) (w : World) :
  needed (st (ask r w)) = {| yes := true; no := true |}
  /\ phase (st (ask r w)) = Practice
  /\ exists w0,
       needed (st w0) = {| yes := true; no := true |}
       /\ ask r w = if useTTS r then speak (EndQuestion r) w0
                    else armCountdown r (startRecognition w0).
Proof.
  split; [|split].
  - unfold ask, speak, armCountdown, clearTimeout. split_cases; reflexivity.
  - unfold ask, speak, armCountdown, clearTimeout. split_cases; reflexivity.
  - exists (setPhase Practice (resetNeeded w)). split; reflexivity.
Qed.

Lemma ask_tracker_and_phase (r : RState) (w : World) :
  needed (st (ask r w)) = {| yes := true; no := true |}
  /\ phase (st (ask r w)) = Practice.
Proof.
  split; unfold ask, speak, armCountdown, clearTimeout; split_cases; reflexivity.
Qed.

(** The two ways [ask] is invoked: the button, and the timeout set by the
    auto-advance effect. *)
Lemma ClickAsk_resets_tracker o w :
  current (st w) <> None ->
  needed (st (step o ClickAsk w)) = {| yes := true; no := true |}
  /\ phase (st (step o ClickAsk w)) = Practice.
Proof.
  intros H. unfold step, flushEffects. cbn [handle].
  destruct (current (st w)); [|contradiction].
  destruct (ask_tracker_and_phase (st w) w) as (E1 & E2).
  split_cases; cbn; auto.
Qed.

Lemma autoAsk_resets_tracker o w h t r :
  find (fun t => tid t =? h) (timers w) = Some t ->
  callback t = CbAsk r ->
  needed (st (step o (Timeout h) w)) = {| yes := true; no := true |}
  /\ phase (st (step o (Timeout h) w)) = Practice.
Proof.
  intros Hf Hc. unfold step, flushEffects. cbn [handle].
  rewrite Hf, Hc. cbn [runCallback].
  match goal with |- context [ask r ?w1] =>
    destruct (ask_tracker_and_phase r w1) as (E1 & E2) end.
  split_cases; cbn; auto.
Qed.

(** *** The countdown *)

(** C2, as stated, fails: in [rearmed_in_reveal] the end of the answer runs
    [goNext], which moves to the next question and leaves countdown 4 armed;
    after the next question has been asked (timeout 5, the auto-advance),
    countdown 4 fires and reveals it. *)
Lemma countdown_survives_advance :
  let w := rearmed_in_reveal in
  let w' := step stalling (SpeechEnded 0) w in
  (phase (st w), currentIndex (st w), map tid (countdowns w)) = (Reveal, 0, [4])
  /\ (phase (st w'), currentIndex (st w'), map tid (countdowns w')) = (Reveal, 1, [4])
  /\ phase (st (run stalling [Timeout 5] w')) = Practice
  /\ phase (st (run stalling [Timeout 5; Timeout 4] w')) = Reveal
  /\ ~ (forall o w ev, reachable o w -> advances w (step o ev w) ->
                       cancels_armed w (step o ev w)).
Proof.
  cbv zeta. repeat split; try reflexivity.
  intros H.
  apply (H stalling rearmed_in_reveal (SpeechEnded 0)) with (h := 4).
  - apply reachable_run. constructor.
  - right. vm_compute. discriminate.
  - vm_compute. now left.
  - vm_compute. now left.
Qed.

(** C2, amended. In every reachable state at most one countdown is armed;
    and whenever the countdown is armed, by [ask] when speech output is off
    or by the end of the spoken question when it is on, the timer held by
    [practiceTimerRef] is cleared first, so that the new countdown is the
    only one armed. *)
Theorem at_most_one_countdown (o : Oracle) (w : World) :
  reachable o w ->
  List.length (countdowns w) <= 1
  /\ (forall r, map tid (countdowns (armCountdown r w)) = [nextTimer w])
  /\ (forall r, useTTS r = false ->
                map tid (countdowns (ask r w)) = [nextTimer w])
  /\ (forall r, map tid (countdowns (endQuestion r w)) = [S (nextTimer w)]).
Proof.
  intros R. pose proof (reachable_Inv o w R) as I.
  split; [now apply Inv_at_most_one|].
  split; [|split].
  - intros r. destruct (armCountdown_spec r w I) as (_ & E & _). now rewrite E.
  - intros r Hr. unfold ask. rewrite Hr.
    match goal with |- context [armCountdown r ?w1] =>
      assert (I1 : Inv w1) by (now apply (Inv_same_timers w));
      destruct (armCountdown_spec r w1 I1) as (_ & E & _); rewrite E end.
    reflexivity.
  - intros r. unfold endQuestion.
    assert (I1 : Inv (setTimeout CbStartRecognition 200%N w))
      by (apply Inv_setTimeout; [discriminate | exact I]).
    destruct (armCountdown_spec r _ I1) as (_ & E & _). rewrite E. reflexivity.
Qed.

Lemma at_most_one_countdown_witness :
  List.length (countdowns rearmed_in_reveal) <= 1.
Proof.
  apply (at_most_one_countdown stalling rearmed_in_reveal).
  apply reachable_run. constructor.
Defined.

(** *** The session cursor *)

(** C6. The cursor leaves the range that the source gives it in the comment
    on [sessionCursor], [0..len-1]: a session started on an empty pool holds
    the empty sequence, for which the cursor 0 is no index; and in
    [overtaken_session] the sequence has one id and the cursor is 1, moved
    there by the [goNext] of an earlier render. So the cursor is not a valid
    index in every reachable state with a session. *)
Lemma session_cursor_out_of_range :
  let w := run stalling [SetItems []; ClickSession] (mount defaultItems true) in
  (sessionSet (st w), sessionCursor (st w)) = (Some [], 0)
  /\ (sessionSet (st overtaken_session), sessionCursor (st overtaken_session))
     = (Some [1%Z], 1)
  /\ ~ (forall o w ids, reachable o w -> sessionSet (st w) = Some ids ->
                        sessionCursor (st w) < List.length ids).
Proof.
  cbv zeta. repeat split; try reflexivity.
  intros H.
  specialize (H stalling overtaken_session [1%Z]
                (reachable_run _ _ _ (reach_mount _ defaultItems true)) eq_refl).
  vm_compute in H. lia.
Qed.

(** What does hold of the cursor. Session start stores the cursor 0, a
    valid index whenever the sequence drawn is not empty. An advance made
    from the current render, on a session whose cursor is a valid index,
    either moves the cursor to the next index, still valid, and keeps the
    session, or, from the last index, discards the session ([sessionSet] is
    [null]) and returns the phase to ['idle']. *)
Theorem session_cursor_valid (o : Oracle) :
  (forall count r w ids,
      sessionSet (st (buildSession o count r w)) = Some ids ->
      ids <> [] ->
      sessionCursor (st (buildSession o count r w)) < List.length ids)
  /\ (forall w ids,
        sessionSet (st w) = Some ids ->
        sessionCursor (st w) < List.length ids ->
        (S (sessionCursor (st w)) < List.length ids ->
         sessionSet (st (goNext o (st w) w)) = Some ids
         /\ sessionCursor (st (goNext o (st w) w)) = S (sessionCursor (st w)))
        /\ (S (sessionCursor (st w)) = List.length ids ->
            sessionSet (st (goNext o (st w) w)) = None
            /\ phase (st (goNext o (st w) w)) = Idle)).
Proof.
  split.
  - intros count r w ids _ Hne. cbn. destruct ids; [contradiction | cbn; lia].
  - intros w ids Hs Hc. unfold goNext. rewrite Hs.
    destruct ids as [|i ids]; [cbn in Hc; lia|].
    split; intros Hn.
    + assert (E : (sessionCursor (st w) + 1 <? List.length (i :: ids)) = true)
        by (apply Nat.ltb_lt; lia).
      rewrite E. cbn. rewrite Hs. split; [reflexivity | lia].
    + assert (E : (sessionCursor (st w) + 1 <? List.length (i :: ids)) = false)
        by (apply Nat.ltb_ge; lia).
      rewrite E. split; reflexivity.
Qed.

(** A session over the five default items, played with speech output off up
    to its last question, then advanced. *)
Lemma session_cursor_valid_witness :
  let w := run stalling
               [SetUseTTS false; ClickSession; ClickAsk; Timeout 1; Timeout 2;
                Timeout 3; Timeout 4; Timeout 5; Timeout 6; Timeout 7; Timeout 8]
               (mount defaultItems true) in
  sessionCursor (st w) = 4
  /\ sessionSet (st (goNext stalling (st w) w)) = None
  /\ phase (st (goNext stalling (st w) w)) = Idle.
Proof.
  cbv zeta. split; [reflexivity|].
  apply (proj2 (session_cursor_valid stalling) _ [1; 2; 3; 4; 5]%Z).
  - reflexivity.
  - vm_compute. lia.
  - reflexivity.
Defined.

End ControllerFacts.

(** ** Rounding to a double *)

Module DoubleFacts.

Lemma floorLog2_whole (a : Z) : (0 < a)%Z -> Double.floorLog2 a 1 = Z.log2 a.
Proof.
  intros H. unfold Double.floorLog2. change (Z.log2 1) with 0%Z.
  rewrite Z.sub_0_r.
  pose proof (Z.log2_nonneg a) as L.
  destruct (Z.leb_spec 0 (Z.log2 a)) as [_ | K]; [|lia].
  rewrite Z.mul_1_l.
  destruct (Z.leb_spec (2 ^ Z.log2 a) a) as [_ | K]; [reflexivity|].
  pose proof (proj1 (Z.log2_spec a H)). lia.
Qed.

(** A whole number of magnitude at most [2 ^ 53] is a double. *)
Lemma nearestDouble_whole (a : Z) :
  (0 <= a <= 2 ^ 53)%Z -> Double.nearestDouble a 1 = Double.RWhole a.
Proof.
  intros [H0 H1]. unfold Double.nearestDouble.
  destruct (Z.eqb_spec a 0) as [-> | Hne]; [reflexivity|].
  assert (Hpos : (0 < a)%Z) by lia.
  rewrite (floorLog2_whole a Hpos).
  pose proof (Z.log2_nonneg a) as L0.
  assert (L1 : (Z.log2 a <= 53)%Z)
    by (change 53%Z with (Z.log2 (2 ^ 53)); now apply Z.log2_le_mono).
  rewrite Z.max_l by lia.
  cbv zeta.
  destruct (Z.leb_spec 0 (Z.log2 a - 52)) as [K | K].
  - rewrite Z.mul_1_l.
    assert (D : Z.log2 a = 52%Z \/ Z.log2 a = 53%Z) by lia.
    destruct D as [D | D]; rewrite D.
    + change (2 ^ (52 - 52))%Z with 1%Z.
      rewrite Z.div_1_r, Z.mod_1_r. cbn [Z.mul Z.ltb Z.compare].
      rewrite Z.mul_1_r.
      destruct (Z.leb_spec (2 ^ 1024) a) as [K2 | _]; [|reflexivity].
      assert ((2 ^ 53 < 2 ^ 1024)%Z) by reflexivity. lia.
    + assert (E : a = (2 ^ 53)%Z).
      { pose proof (proj1 (Z.log2_spec a Hpos)) as P. rewrite D in P. lia. }
      subst a. reflexivity.
  - rewrite Z.div_1_r, Z.mod_1_r. cbn [Z.mul Z.ltb Z.compare].
    assert (P : (0 < 2 ^ (- (Z.log2 a - 52)))%Z) by (apply Z.pow_pos_nonneg; lia).
    rewrite Z.mod_mul by lia. cbn [Z.eqb].
    rewrite Z.div_mul by lia. reflexivity.
Qed.

(** Adding one is exact below [2 ^ 53], and at [2 ^ 53] it gives [2 ^ 53]
    again. *)
Lemma succ_exact (m : Z) : (0 <= m < 2 ^ 53)%Z -> Double.succ m = (m + 1)%Z.
Proof.
  intros H. unfold Double.succ. now rewrite nearestDouble_whole by lia.
Qed.

Example succ_stalls : Double.succ (2 ^ 53) = (2 ^ 53)%Z.
Proof. reflexivity. Qed.

End DoubleFacts.

(** ** The reference JSON implementation *)

Module JsonFacts.
Import Json.

(** *** Strings *)

Lemma append_assoc (a b c : string) : ((a ++ b) ++ c = a ++ (b ++ c))%string.
Proof. induction a as [|x a IH]; cbn; [reflexivity | now rewrite IH]. Qed.

Lemma length_append (a b : string) :
  String.length (a ++ b) = String.length a + String.length b.
Proof. induction a as [|x a IH]; cbn; [reflexivity | now rewrite IH]. Qed.

Lemma blank_empty : blank EmptyString.
Proof. intros s. reflexivity. Qed.

Lemma blank_app (a b : string) : blank a -> blank b -> blank (a ++ b).
Proof. intros Ha Hb s. now rewrite append_assoc, Ha, Hb. Qed.

Lemma blank_newline : blank newline.
Proof. intros s. reflexivity. Qed.

Lemma blank_gap : blank "  ".
Proof. intros s. reflexivity. Qed.

Lemma blank_space : blank " ".
Proof. intros s. reflexivity. Qed.

Lemma skipWs_solid (s : string) : solid s -> skipWs s = s.
Proof. destruct s as [|c s]; cbn; [tauto | now intros ->]. Qed.

(** *** Quoted strings *)

Lemma readString_escapeChar (c : ascii) (tail : string) :
  readString (escapeChar c ++ tail)
  = match readString tail with
    | Some (t, rest) => Some (String c t, rest)
    | None => None
    end.
Proof.
  destruct c as [[] [] [] [] [] [] [] []]; reflexivity.
Qed.

Lemma readString_escape (s rest : string) :
  readString (escape s ++ String dquote rest) = Some (s, rest).
Proof.
  induction s as [|c s IH]; cbn [escape].
  - reflexivity.
  - now rewrite append_assoc, readString_escapeChar, IH.
Qed.

Lemma readString_quote (s rest : string) :
  exists body, (quote s ++ rest)%string = String dquote body
               /\ readString body = Some (s, rest).
Proof.
  exists (escape s ++ String dquote rest)%string. split.
  - unfold quote. cbn. now rewrite append_assoc.
  - apply readString_escape.
Qed.

(** *** Numbers *)

Lemma digits_allNum (d : Decimal.uint) : allNum (NilEmpty.string_of_uint d) = true.
Proof. induction d; cbn; auto. Qed.

Lemma printNumber_allNum (z : Z) : allNum (printNumber z) = true.
Proof.
  unfold printNumber, NilZero.string_of_int, NilZero.string_of_uint.
  destruct (Z.to_int z) as [d | d]; destruct d; cbn;
    try reflexivity; apply digits_allNum.
Qed.

Lemma to_int_nonnil (z : Z) :
  Z.to_int z <> Decimal.Pos Decimal.Nil /\ Z.to_int z <> Decimal.Neg Decimal.Nil.
Proof.
  destruct z as [|p|p]; cbn; split; try discriminate;
    intros H; injection H as H; now apply Unsigned.to_uint_nonnil in H.
Qed.

Lemma printNumber_head (z : Z) :
  exists c s, printNumber z = String c s /\ isNumChar c = true.
Proof.
  pose proof (printNumber_allNum z) as H.
  destruct (printNumber z) as [|c s] eqn:E.
  - exfalso. unfold printNumber in E.
    pose proof (NilZero.isi (Z.to_int z) (proj1 (to_int_nonnil z))
                  (proj2 (to_int_nonnil z))) as K.
    rewrite E in K. discriminate.
  - exists c, s. cbn in H. apply andb_true_iff in H. tauto.
Qed.

Lemma spanNum_app (lit rest : string) :
  allNum lit = true -> boundary rest -> spanNum (lit ++ rest) = (lit, rest).
Proof.
  intros H B. induction lit as [|c lit IH]; cbn in *.
  - destruct rest as [|c r]; cbn; [reflexivity|].
    destruct B as [-> _]. reflexivity.
  - apply andb_true_iff in H. destruct H as [-> H]. now rewrite IH.
Qed.

Lemma printNumber_sign (z : Z) :
  match printNumber z with
  | String c _ => Ascii.eqb c "-"
  | EmptyString => false
  end = (z <? 0)%Z.
Proof.
  destruct z as [|p|p]; [reflexivity | | reflexivity].
  unfold printNumber. cbn [Z.to_int].
  unfold NilZero.string_of_int, NilZero.string_of_uint.
  destruct (Pos.to_uint p); reflexivity.
Qed.

Lemma readFraction_boundary (rest : string) :
  boundary rest -> readFraction rest = Some (EmptyString, rest).
Proof.
  destruct rest as [|c r]; [reflexivity|]. intros [_ B]. unfold readFraction.
  apply orb_false_iff in B. destruct B as [B _].
  apply orb_false_iff in B. destruct B as [B _]. now rewrite B.
Qed.

Lemma readExponent_boundary (rest : string) :
  boundary rest -> readExponent rest = Some (0%Z, rest).
Proof.
  destruct rest as [|c r]; [reflexivity|]. intros [_ B]. unfold readExponent.
  apply orb_false_iff in B. destruct B as [B1 B2].
  apply orb_false_iff in B1. destruct B1 as [_ B1]. now rewrite B1, B2.
Qed.

Lemma numberValue_inRange (z : Z) :
  Double.inRange z = true ->
  numberValue (z <? 0)%Z (Z.abs z) 0 = Some (JNumber z).
Proof.
  unfold Double.inRange. intros H. apply Z.leb_le in H.
  unfold numberValue, Double.nearestDecimal.
  change (0 <=? 0)%Z with true. cbv iota.
  change (10 ^ 0)%Z with 1%Z. rewrite Z.mul_1_r.
  rewrite DoubleFacts.nearestDouble_whole by lia.
  destruct (Z.ltb_spec z 0); do 2 f_equal; lia.
Qed.

Lemma readNumber_print (z : Z) (rest : string) :
  boundary rest -> Double.inRange z = true ->
  readNumber (printNumber z ++ rest) = Some (JNumber z, rest).
Proof.
  intros B X. unfold readNumber.
  rewrite spanNum_app by (auto using printNumber_allNum).
  rewrite printNumber_sign.
  unfold printNumber at 1.
  rewrite NilZero.isi by apply to_int_nonnil.
  rewrite DecimalZ.of_to, String.eqb_refl. cbn [orb].
  rewrite (readFraction_boundary rest B), (readExponent_boundary rest B).
  cbn [digitsValue String.length Z.of_nat]. rewrite Z.sub_0_r.
  now rewrite (numberValue_inRange z X).
Qed.

Lemma readValue_numeric (fuel : nat) (c : ascii) (s : string) :
  isNumChar c = true ->
  readValue (S fuel) (String c s) = readNumber (String c s).
Proof.
  destruct c as [[] [] [] [] [] [] [] []]; intros H;
    try discriminate H; reflexivity.
Qed.

(** *** Values *)

Lemma opens_app (a b : string) : opens a -> opens (a ++ b).
Proof. destruct a; cbn; tauto. Qed.

Lemma opens_solid (s : string) : opens s -> solid s.
Proof. destruct s; cbn; tauto. Qed.

Lemma numeric_opens (c : ascii) (s : string) :
  isNumChar c = true -> opens (String c s).
Proof.
  destruct c as [[] [] [] [] [] [] [] []]; intros H;
    try discriminate H; repeat split.
Qed.

Lemma print_opens (ind : string) (v : json) : opens (print ind v).
Proof.
  destruct v as [| [] | z | k | s | [|x l] | [|kv fs]];
    try (cbn; repeat split; fail).
  destruct (printNumber_head z) as [c [s [E H]]].
  cbn [print]. rewrite E. now apply numeric_opens.
Qed.

Lemma blank_gap_ind (ind : string) : blank ind -> blank (gap ind).
Proof. intros H. apply blank_app; [assumption | apply blank_gap]. Qed.

Lemma print_array (ind : string) (x : json) (l : list json) :
  print ind (JArray (x :: l))
  = ("[" ++ newline ++ gap ind
         ++ joinWith (sep ind) (map (print (gap ind)) (x :: l))
         ++ newline ++ ind ++ "]")%string.
Proof. reflexivity. Qed.

Lemma print_object (ind : string) (kv : string * json) (fs : list (string * json)) :
  print ind (JObject (kv :: fs))
  = ("{" ++ newline ++ gap ind
         ++ joinWith (sep ind) (map (printField (gap ind)) (kv :: fs))
         ++ newline ++ ind ++ "}")%string.
Proof. reflexivity. Qed.

Lemma readValue_skip (fuel : nat) (pre s : string) :
  blank pre -> solid s -> readValue fuel (pre ++ s) = readValue fuel s.
Proof.
  intros Hp Hs. destruct fuel as [|f]; [reflexivity|].
  cbn [readValue]. rewrite Hp. reflexivity.
Qed.

Lemma readFields_skip (fuel : nat) (pre s : string) :
  blank pre -> readFields fuel (pre ++ s) = readFields fuel s.
Proof.
  intros Hp. destruct fuel as [|f]; [reflexivity|].
  cbn [readFields]. rewrite Hp. reflexivity.
Qed.

Lemma readElems_S (f : nat) (s : string) :
  readElems (S f) s
  = match readValue f s with
    | Some (v, rest) =>
        match skipWs rest with
        | String c s1 =>
            if Ascii.eqb c "]" then Some ([v], s1)
            else if Ascii.eqb c "," then
              match readElems f s1 with
              | Some (l, rest') => Some (v :: l, rest')
              | None => None
              end
            else None
        | EmptyString => None
        end
    | None => None
    end.
Proof. reflexivity. Qed.

Lemma readValue_array (f : nat) (pre s : string) :
  blank pre -> opens s ->
  readValue (S f) (String "[" (pre ++ s))
  = match readElems f s with
    | Some (l, rest) => Some (JArray l, rest)
    | None => None
    end.
Proof.
  intros Hp H.
  cbn [readValue].
  change (skipWs (String "[" (pre ++ s))) with (String "[" (pre ++ s)).
  change (nat_of_ascii "[") with 91. cbv iota.
  rewrite Hp, (skipWs_solid s (opens_solid s H)).
  destruct s as [|c s]; [contradiction|].
  destruct H as (W & B & _). now rewrite B.
Qed.

Lemma readValue_object (f : nat) (pre s : string) :
  blank pre -> opens s ->
  readValue (S f) (String "{" (pre ++ s))
  = match readFields f s with
    | Some (l, rest) => Some (JObject l, rest)
    | None => None
    end.
Proof.
  intros Hp H.
  cbn [readValue].
  change (skipWs (String "{" (pre ++ s))) with (String "{" (pre ++ s)).
  change (nat_of_ascii "{") with 123. cbv iota.
  rewrite Hp, (skipWs_solid s (opens_solid s H)).
  destruct s as [|c s]; [contradiction|].
  destruct H as (W & _ & B). now rewrite B.
Qed.

Lemma readValue_string (f : nat) (body : string) :
  readValue (S f) (String dquote body)
  = match readString body with
    | Some (t, rest) => Some (JString t, rest)
    | None => None
    end.
Proof. reflexivity. Qed.

Lemma readFields_S (f : nat) (s0 : string) :
  readFields (S f) (String dquote s0)
  = match readString s0 with
    | Some (k, rest0) =>
        match skipWs rest0 with
        | String c1 s1 =>
            if Ascii.eqb c1 ":" then
              match readValue f s1 with
              | Some (v, rest) =>
                  match skipWs rest with
                  | String c2 s2 =>
                      if Ascii.eqb c2 "}" then Some ([(k, v)], s2)
                      else if Ascii.eqb c2 "," then
                        match readFields f s2 with
                        | Some (l, rest') => Some ((k, v) :: l, rest')
                        | None => None
                        end
                      else None
                  | EmptyString => None
                  end
              | None => None
              end
            else None
        | EmptyString => None
        end
    | None => None
    end.
Proof. reflexivity. Qed.

Lemma boundary_newline (s : string) : boundary (newline ++ s).
Proof. split; reflexivity. Qed.

Lemma boundary_sep (ind s : string) : boundary (sep ind ++ s).
Proof. split; reflexivity. Qed.

Lemma skipWs_sep (ind s : string) :
  skipWs (sep ind ++ s) = String "," ((newline ++ gap ind) ++ s).
Proof. reflexivity. Qed.

Lemma skipWs_close (ind : string) (c : ascii) (rest : string) :
  blank ind -> isWs c = false ->
  skipWs (newline ++ ind ++ String c rest) = String c rest.
Proof. intros Hi Hc. rewrite blank_newline, Hi. cbn. now rewrite Hc. Qed.

Lemma readElems_print (l : list json) :
  Forall reads l -> l <> [] ->
  forall ind pre rest fuel,
    blank ind -> blank pre -> elemsWeight l <= fuel ->
    readElems fuel
      (pre ++ joinWith (sep ind) (map (print (gap ind)) l)
           ++ newline ++ ind ++ String "]" rest)
    = Some (map nullify l, rest).
Proof.
  induction 1 as [|x l Hx Hl IH]; intros Hne ind pre rest fuel Hi Hp Hf;
    [contradiction|].
  destruct fuel as [|f]; [cbn in Hf; lia|].
  cbn [elemsWeight fold_right] in Hf. fold (elemsWeight l) in Hf.
  rewrite readElems_S.
  destruct l as [|y l].
  - cbn [map joinWith].
    rewrite (Hx (gap ind) pre _ f (blank_gap_ind _ Hi) Hp (boundary_newline _))
      by lia.
    rewrite skipWs_close by (assumption || reflexivity). reflexivity.
  - change (joinWith (sep ind) (map (print (gap ind)) (x :: y :: l)))
      with (print (gap ind) x ++ sep ind
              ++ joinWith (sep ind) (map (print (gap ind)) (y :: l)))%string.
    rewrite !append_assoc.
    rewrite (Hx (gap ind) pre _ f (blank_gap_ind _ Hi) Hp (boundary_sep _ _))
      by lia.
    rewrite skipWs_sep. cbv iota.
    change (Ascii.eqb "," "]") with false. change (Ascii.eqb "," ",") with true.
    cbv iota.
    rewrite (IH ltac:(discriminate) ind (newline ++ gap ind)%string rest f Hi
               (blank_app _ _ blank_newline (blank_gap_ind _ Hi)))
      by lia.
    reflexivity.
Qed.

Definition nullifyField (kv : string * json) : string * json :=
  (fst kv, nullify (snd kv)).

Lemma readFields_print (fs : list (string * json)) :
  Forall (fun kv => reads (snd kv)) fs -> fs <> [] ->
  forall ind pre rest fuel,
    blank ind -> blank pre -> fieldsWeight fs <= fuel ->
    readFields fuel
      (pre ++ joinWith (sep ind) (map (printField (gap ind)) fs)
           ++ newline ++ ind ++ String "}" rest)
    = Some (map nullifyField fs, rest).
Proof.
  induction 1 as [|[k v] fs Hx Hl IH]; intros Hne ind pre rest fuel Hi Hp Hf;
    [contradiction|].
  destruct fuel as [|f]; [cbn in Hf; lia|].
  cbn [fieldsWeight fold_right snd] in Hf. fold (fieldsWeight fs) in Hf.
  cbn [snd] in Hx.
  rewrite readFields_skip by assumption.
  assert (Hkey : forall tail,
             boundary tail ->
             readFields (S f) (printField (gap ind) (k, v) ++ tail)
             = match skipWs tail with
               | String c2 s2 =>
                   if Ascii.eqb c2 "}" then Some ([(k, nullify v)], s2)
                   else if Ascii.eqb c2 "," then
                     match readFields f s2 with
                     | Some (l, rest') => Some ((k, nullify v) :: l, rest')
                     | None => None
                     end
                   else None
               | EmptyString => None
               end).
  { intros tail B. unfold printField. cbn [fst snd].
    rewrite !append_assoc.
    destruct (readString_quote k (": " ++ print (gap ind) v ++ tail))
      as [body [E R]].
    rewrite E, readFields_S, R.
    change (skipWs (": " ++ print (gap ind) v ++ tail))
      with (String ":" (" " ++ print (gap ind) v ++ tail)).
    cbv iota. change (Ascii.eqb ":" ":") with true. cbv iota.
    rewrite (Hx (gap ind) " "%string tail f (blank_gap_ind _ Hi) blank_space B)
      by lia.
    reflexivity. }
  destruct fs as [|kv fs].
  - cbn [map joinWith].
    rewrite Hkey by apply boundary_newline.
    rewrite skipWs_close by (assumption || reflexivity). reflexivity.
  - change (joinWith (sep ind) (map (printField (gap ind)) ((k, v) :: kv :: fs)))
      with (printField (gap ind) (k, v) ++ sep ind
              ++ joinWith (sep ind) (map (printField (gap ind)) (kv :: fs)))%string.
    rewrite !append_assoc.
    rewrite Hkey by apply boundary_sep.
    rewrite skipWs_sep. cbv iota.
    change (Ascii.eqb "," "}") with false. change (Ascii.eqb "," ",") with true.
    cbv iota.
    rewrite (IH ltac:(discriminate) ind (newline ++ gap ind)%string rest f Hi
               (blank_app _ _ blank_newline (blank_gap_ind _ Hi)))
      by lia.
    reflexivity.
Qed.

Lemma joinWith_opens (sp : string) (x : string) (l : list string) (tail : string) :
  opens x -> opens (joinWith sp (x :: l) ++ tail).
Proof.
  intros H. apply opens_app. destruct l; cbn [joinWith]; [assumption|].
  now apply opens_app.
Qed.

Lemma quote_opens (s tail : string) : opens (quote s ++ tail).
Proof. repeat split. Qed.

Lemma Forall_inRange {A : Type} (f : A -> json) (P : json -> Prop) (l : list A) :
  Forall (fun x => inRange (f x) = true -> P (f x)) l ->
  forallb (fun x => inRange (f x)) l = true ->
  Forall (fun x => P (f x)) l.
Proof.
  induction 1 as [|x l Hx Hl IH]; cbn; intros H; constructor;
    apply andb_true_iff in H; [apply Hx | apply IH]; tauto.
Qed.

Lemma reads_all (v : json) : inRange v = true -> reads v.
Proof.
  induction v as [| b | z | k | s | l IH | fs IH] using json_nested_ind;
    intros X ind pre rest fuel Hi Hp B Hf;
    (destruct fuel as [|f]; [cbn in Hf; lia|]);
    (rewrite readValue_skip;
     [| assumption | apply opens_solid, opens_app, print_opens]).
  - reflexivity.
  - destruct b; reflexivity.
  - cbn [print nullify].
    destruct (printNumber_head z) as [c [s [E H]]].
    pose proof (readNumber_print z rest B X) as R.
    rewrite E in *. cbn [append] in *.
    now rewrite readValue_numeric, R.
  - reflexivity.
  - cbn [print].
    destruct (readString_quote s rest) as [body [E R]].
    now rewrite E, readValue_string, R.
  - destruct l as [|x l]; [reflexivity|].
    pose proof (Forall_inRange (fun x => x) reads (x :: l) IH X) as IH'.
    rewrite print_array, !append_assoc.
    change ("[" ++ ?s)%string with (String "[" s).
    change ("]" ++ rest)%string with (String "]" rest).
    rewrite <- (append_assoc newline (gap ind)).
    rewrite readValue_array;
      [| apply blank_app; [apply blank_newline | now apply blank_gap_ind]
       | apply joinWith_opens, print_opens ].
    pose proof (readElems_print (x :: l) IH' ltac:(discriminate) ind
                  EmptyString rest f Hi blank_empty) as R.
    change (EmptyString ++ ?s)%string with s in R.
    rewrite R; [reflexivity|]. cbn [weight] in Hf. unfold elemsWeight. lia.
  - destruct fs as [|kv fs]; [reflexivity|].
    pose proof (Forall_inRange snd reads (kv :: fs) IH X) as IH'.
    rewrite print_object, !append_assoc.
    change ("{" ++ ?s)%string with (String "{" s).
    change ("}" ++ rest)%string with (String "}" rest).
    rewrite <- (append_assoc newline (gap ind)).
    rewrite readValue_object;
      [| apply blank_app; [apply blank_newline | now apply blank_gap_ind]
       | apply joinWith_opens, quote_opens ].
    pose proof (readFields_print (kv :: fs) IH' ltac:(discriminate) ind
                  EmptyString rest f Hi blank_empty) as R.
    change (EmptyString ++ ?s)%string with s in R.
    rewrite R; [reflexivity|]. cbn [weight] in Hf. unfold fieldsWeight. lia.
Qed.

(** *** The fuel of [read] is enough *)

Lemma append_empty_r (a : string) : (a ++ EmptyString)%string = a.
Proof. induction a as [|x a IH]; cbn; [reflexivity | now rewrite IH]. Qed.

Lemma length_sep (ind : string) : 1 <= String.length (sep ind).
Proof. cbn. lia. Qed.

Lemma elemsWeight_length (ind : string) (l : list json) :
  Forall (fun x => forall i, weight x <= String.length (print i x)) l ->
  elemsWeight l
  <= String.length (joinWith (sep ind) (map (print (gap ind)) l)) + 1.
Proof.
  induction 1 as [|x l Hx Hl IH]; [cbn; lia|].
  cbn [elemsWeight fold_right]. fold (elemsWeight l).
  specialize (Hx (gap ind)).
  destruct l as [|y l].
  - cbn [map joinWith elemsWeight fold_right]. lia.
  - change (joinWith (sep ind) (map (print (gap ind)) (x :: y :: l)))
      with (print (gap ind) x ++ sep ind
              ++ joinWith (sep ind) (map (print (gap ind)) (y :: l)))%string.
    rewrite !length_append. pose proof (length_sep ind). lia.
Qed.

Lemma fieldsWeight_length (ind : string) (fs : list (string * json)) :
  Forall (fun kv => forall i, weight (snd kv) <= String.length (print i (snd kv))) fs ->
  fieldsWeight fs
  <= String.length (joinWith (sep ind) (map (printField (gap ind)) fs)) + 1.
Proof.
  induction 1 as [|kv fs Hx Hl IH]; [cbn; lia|].
  cbn [fieldsWeight fold_right]. fold (fieldsWeight fs).
  specialize (Hx (gap ind)).
  assert (Hf : weight (snd kv) <= String.length (printField (gap ind) kv))
    by (unfold printField; rewrite !length_append; lia).
  destruct fs as [|kv' fs].
  - cbn [map joinWith fieldsWeight fold_right]. lia.
  - change (joinWith (sep ind) (map (printField (gap ind)) (kv :: kv' :: fs)))
      with (printField (gap ind) kv ++ sep ind
              ++ joinWith (sep ind) (map (printField (gap ind)) (kv' :: fs)))%string.
    rewrite !length_append. pose proof (length_sep ind). lia.
Qed.

Lemma weight_length (v : json) :
  forall ind, weight v <= String.length (print ind v).
Proof.
  induction v as [| b | z | k | s | l IH | fs IH] using json_nested_ind; intros ind.
  - cbn. lia.
  - destruct b; cbn; lia.
  - cbn [print weight]. destruct (printNumber_head z) as [c [s [E _]]].
    rewrite E. cbn. lia.
  - cbn. lia.
  - cbn [print weight]. unfold quote. cbn. lia.
  - destruct l as [|x l]; [cbn; lia|].
    rewrite print_array, !length_append.
    pose proof (elemsWeight_length ind (x :: l) IH).
    cbn [weight]. fold (elemsWeight (x :: l)). cbn [String.length]. lia.
  - destruct fs as [|kv fs]; [cbn; lia|].
    rewrite print_object, !length_append.
    pose proof (fieldsWeight_length ind (kv :: fs) IH).
    cbn [weight]. fold (fieldsWeight (kv :: fs)). cbn [String.length]. lia.
Qed.

Lemma nullify_finite (v : json) : nullify v = v <-> finite v = true.
Proof.
  induction v as [| b | z | k | s | l IH | fs IH] using json_nested_ind;
    cbn [nullify finite]; try tauto.
  - split; discriminate.
  - split.
    + intros E. injection E as E. induction IH as [|x l Hx Hl IHl];
        [reflexivity|]. cbn in *. injection E as E1 E2.
      apply andb_true_iff. split; [now apply Hx | now apply IHl].
    + intros F. f_equal. induction IH as [|x l Hx Hl IHl]; [reflexivity|].
      cbn in *. apply andb_true_iff in F. destruct F as [F1 F2].
      f_equal; [now apply Hx | now apply IHl].
  - split.
    + intros E. injection E as E. induction IH as [|[k v] fs Hx Hl IHl];
        [reflexivity|]. cbn in *. injection E as E1 E2.
      apply andb_true_iff. split; [now apply Hx | now apply IHl].
    + intros F. f_equal. induction IH as [|[k v] fs Hx Hl IHl]; [reflexivity|].
      cbn in *. apply andb_true_iff in F. destruct F as [F1 F2].
      f_equal; [f_equal; now apply Hx | now apply IHl].
Qed.

(** Reading what was printed gives the value back, with [null] for every
    number that is not finite. *)
Theorem read_print (v : json) :
  inRange v = true -> read (print EmptyString v) = Some (nullify v).
Proof.
  intros X. unfold read.
  pose proof (reads_all v X EmptyString EmptyString EmptyString
                (2 * String.length (print EmptyString v) + 2)
                blank_empty blank_empty I) as R.
  rewrite append_empty_r in R. change (EmptyString ++ ?s)%string with s in R.
  rewrite R; [reflexivity|].
  pose proof (weight_length v EmptyString). lia.
Qed.
End JsonFacts.

(** ** Import and export *)

Module PersistFacts.
Import Json Persist.

Example objectText_read : read objectText = Some (JObject [("a", JNumber 1)]).
Proof. reflexivity. Qed.

(** C9. Whatever the browser's [JSON.parse] does: when the text parses to an
    array the item list becomes that array and nothing is alerted; in every
    other case (the parse throws, or yields a value that is not an array,
    such as an object) an alert is shown and the item list is the one before
    the import. *)
Theorem import_replaces_or_rejects (J : Impl) (text : string) (items : list json) :
  (forall arr, parse J text = Some (JArray arr) ->
               onImport J text items = (arr, None))
  /\ ((forall arr, parse J text <> Some (JArray arr)) ->
      fst (onImport J text items) = items
      /\ snd (onImport J text items) <> None)
  /\ (forall fs, parse J text = Some (JObject fs) ->
                 onImport J text items = (items, Some AlertNotArray))
  /\ (parse J text = None ->
      onImport J text items = (items, Some AlertParseFailed)).
Proof.
  unfold onImport. repeat split.
  - intros arr ->. reflexivity.
  - destruct (parse J text) as [[]|]; try reflexivity.
    exfalso. now apply (H l).
  - destruct (parse J text) as [[]|]; try discriminate.
    exfalso. now apply (H l).
  - intros fs ->. reflexivity.
  - intros ->. reflexivity.
Qed.

Lemma import_replaces_or_rejects_witness :
  let items := map itemToJson Model.defaultItems in
  onImport reference objectText items = (items, Some AlertNotArray)
  /\ onImport reference "[1, 2]" items = ([JNumber 1; JNumber 2], None)
  /\ onImport reference "[1, 2" items = (items, Some AlertParseFailed).
Proof.
  cbv zeta. split; [|split].
  - apply (proj1 (proj2 (proj2 (import_replaces_or_rejects reference objectText _)))
             [("a", JNumber 1)]).
    reflexivity.
  - apply (proj1 (import_replaces_or_rejects reference "[1, 2]" _)).
    reflexivity.
  - apply (proj2 (proj2 (proj2 (import_replaces_or_rejects reference "[1, 2" _)))).
    reflexivity.
Defined.

(** Export followed by import, for an arbitrary [JSON] object: the handler
    installs whatever array [JSON.parse] makes of the exported text. *)
Lemma export_then_import_with (J : Impl) (items back old : list json) :
  parse J (stringify J (JArray items) 2) = Some (JArray back) ->
  onImport J (exportItems J items) old = (back, None).
Proof.
  intros H. unfold exportItems, onImport. now rewrite H.
Qed.





(** The same for lists of question items, whose ids are whole numbers. *)
Corollary export_then_import_items (items : list Model.Item) (old : list json) :
  forallb (fun it => Double.inRange (Model.id it)) items = true ->
  onImport reference (exportItems reference (map itemToJson items)) old
  = (map itemToJson items, None).
Proof.
  intros X.
  assert (K : forallb inRange (map itemToJson items) = true
              /\ map nullify (map itemToJson items) = map itemToJson items).
  { induction items as [|it items IH]; [split; reflexivity|].
    cbn [forallb] in X. apply andb_true_iff in X. destruct X as [X1 X2].
    destruct (IH X2) as [I1 I2]. split.
    - cbn. rewrite X1. exact I1.
    - cbn [map]. now rewrite I2. }
  destruct K as [K1 K2]. rewrite <- K2 at 2.
  apply export_then_import_with. cbn [parse stringify reference].
  apply (JsonFacts.read_print (JArray (map itemToJson items)) K1).
Qed.

Example export_then_import_default_items :
  onImport reference (exportItems reference (map itemToJson Model.defaultItems)) []
  = (map itemToJson Model.defaultItems, None).
Proof. vm_compute. reflexivity. Qed.

End PersistFacts.

(** ** Editing the item list *)

Module EditingFacts.
Import Model Controller Editing.

Lemma memStr_In (x : string) (l : list string) :
  existsb (String.eqb x) l = true <-> In x l.
Proof.
  rewrite existsb_exists. split.
  - intros [y [Hin E]]. apply String.eqb_eq in E. now subst.
  - intros Hin. exists x. split; [assumption | apply String.eqb_refl].
Qed.

Lemma uniqStr_In (x : string) (l seen : list string) :
  In x (uniqStr seen l) <-> In x l /\ ~ In x seen.
Proof.
  revert seen; induction l as [|y l IH]; intros seen; cbn.
  - tauto.
  - destruct (existsb (String.eqb y) seen) eqn:E.
    + apply memStr_In in E. rewrite IH. split.
      * tauto.
      * intros [[-> | H1] H2]; [contradiction | tauto].
    + assert (Hy : ~ In y seen) by (rewrite <- memStr_In, E; discriminate).
      cbn. rewrite IH. cbn. split.
      * intros [-> | [H1 H2]]; [tauto|]. split; [tauto|]. intros H3. apply H2. now right.
      * intros [[-> | H1] H2]; [now left|].
        destruct (String.string_dec y x) as [-> | Hne]; [now left | right].
        split; [assumption|]. intros [H3 | H3]; contradiction.
Qed.

Lemma uniqStr_NoDup (l seen : list string) : NoDup (uniqStr seen l).
Proof.
  revert seen; induction l as [|y l IH]; intros seen; cbn.
  - constructor.
  - destruct (existsb (String.eqb y) seen); [apply IH|].
    constructor; [|apply IH]. rewrite uniqStr_In. cbn. tauto.
Qed.

Lemma topicOf_nonempty (it : Item) : topicOf it <> EmptyString.
Proof.
  unfold topicOf. destruct (String.eqb (topic it) "") eqn:E; [discriminate|].
  now apply String.eqb_neq in E.
Qed.

Lemma topicPool_In (r : RState) (it : Item) :
  selectedTopic r <> "All" ->
  In it (topicPool r) <-> In it (items r) /\ topicOf it = selectedTopic r.
Proof.
  intros H. unfold topicPool. apply String.eqb_neq in H. rewrite H.
  now rewrite filter_In, String.eqb_eq.
Qed.

(** The topic select offers each topic of the item list once and never the
    empty topic; a topic it offers, other than "All", selects exactly the
    items of that topic, at least one; "All" selects the whole list. *)
Theorem topics_select_nonempty_pools (r : RState) :
  NoDup (topics (items r))
  /\ (forall t, In t (topics (items r))
                <-> exists it, In it (items r) /\ topicOf it = t)
  /\ ~ In EmptyString (topics (items r))
  /\ (selectedTopic r = "All" -> topicPool r = items r)
  /\ (In (selectedTopic r) (topics (items r)) -> selectedTopic r <> "All" ->
      topicPool r <> []
      /\ forall it, In it (topicPool r)
                    <-> In it (items r) /\ topicOf it = selectedTopic r).
Proof.
  assert (T : forall t, In t (topics (items r))
                        <-> exists it, In it (items r) /\ topicOf it = t).
  { intros t. unfold topics. rewrite uniqStr_In, in_map_iff. cbn. split.
    - intros [[it [E H]] _]. now exists it.
    - intros [it [H E]]. split; [now exists it | tauto]. }
  split; [apply uniqStr_NoDup|]. split; [exact T|]. split; [|split].
  - intros H. apply T in H. destruct H as [it [_ E]]. now apply (topicOf_nonempty it).
  - intros H. unfold topicPool. now rewrite H.
  - intros Hin Hne. split; [|intros it; now apply topicPool_In].
    apply T in Hin. destruct Hin as [it [Hit E]].
    intros Hnil. assert (K : In it (topicPool r)) by (apply topicPool_In; auto).
    rewrite Hnil in K. contradiction.
Qed.

Lemma topics_select_nonempty_pools_witness :
  topicPool (set_selectedTopic "Plans" (initState defaultItems)) <> [].
Proof.
  apply (topics_select_nonempty_pools
           (set_selectedTopic "Plans" (initState defaultItems))).
  - cbn. tauto.
  - discriminate.
Defined.

(** *** Adding an item *)

Lemma fold_max_ge (its : list Item) (m : Z) :
  (m <= fold_left (fun m it => Z.max m (id it)) its m)%Z
  /\ forall it, In it its ->
                (id it <= fold_left (fun m it => Z.max m (id it)) its m)%Z.
Proof.
  revert m; induction its as [|x its IH]; intros m; cbn.
  - split; [lia | intros it []].
  - destruct (IH (Z.max m (id x))) as [H1 H2]. split; [lia|].
    intros it [<- | Hin]; [lia | now apply H2].
Qed.

Lemma maxId_bounds (its : list Item) :
  (0 <= maxId its)%Z
  /\ ((forall it, In it its -> (id it < 2 ^ 53)%Z) -> (maxId its < 2 ^ 53)%Z).
Proof.
  unfold maxId. split; [apply (fold_max_ge its 0%Z)|].
  assert (G : forall m, (m < 2 ^ 53)%Z ->
                (forall it, In it its -> (id it < 2 ^ 53)%Z) ->
                (fold_left (fun m it => Z.max m (id it)) its m < 2 ^ 53)%Z).
  { induction its as [|x its IH]; intros m Hm H; cbn; [exact Hm|].
    apply IH.
    - pose proof (H x (or_introl eq_refl)). lia.
    - intros it Hit. apply H. now right. }
  apply G. reflexivity.
Qed.

Lemma newItem_id_fresh (r : RState) :
  (forall it, In it (items r) -> (id it < 2 ^ 53)%Z) ->
  (1 <= id (newItem r))%Z
  /\ forall it, In it (items r) -> (id it < id (newItem r))%Z.
Proof.
  intros B.
  destruct (fold_max_ge (items r) 0%Z) as [H1 H2].
  destruct (maxId_bounds (items r)) as [M0 M1]. specialize (M1 B).
  unfold newItem. cbn [id]. rewrite DoubleFacts.succ_exact by lia.
  unfold maxId in *.
  split; [lia|]. intros it Hin. specialize (H2 it Hin). lia.
Qed.

(** [addNewItem], run from the current render, appends one item and leaves
    the others as they are. When every id of the list is below [2 ^ 53],
    the id of the new item is positive and greater than every id in the
    list, so ids that were distinct stay distinct; when the greatest id is
    [2 ^ 53], the new item gets that id again. The new item belongs to the
    pool of the selected topic, whenever that topic is not empty. *)
Theorem addNewItem_appends_fresh (w : World) :
  let w' := addNewItem (st w) w in
  items (st w') = items (st w) ++ [newItem (st w)]
  /\ ((forall it, In it (items (st w)) -> (id it < 2 ^ 53)%Z) ->
      (1 <= id (newItem (st w)))%Z
      /\ (forall it, In it (items (st w)) -> (id it < id (newItem (st w)))%Z)
      /\ (NoDup (map id (items (st w))) -> NoDup (map id (items (st w')))))
  /\ (maxId (items (st w)) = (2 ^ 53)%Z -> id (newItem (st w)) = (2 ^ 53)%Z)
  /\ (selectedTopic (st w) <> EmptyString -> In (newItem (st w)) (topicPool (st w'))).
Proof.
  cbv zeta.
  split; [reflexivity|]. split; [|split].
  - intros B. destruct (newItem_id_fresh (st w) B) as [H1 H2].
    split; [exact H1|]. split; [exact H2|].
    intros D. cbn. rewrite map_app. apply NoDup_app; [assumption| |].
    + cbn. constructor; [intros [] | constructor].
    + intros a Ha [<- | []]. apply in_map_iff in Ha.
      destruct Ha as [it [E Hit]]. specialize (H2 it Hit). lia.
  - intros E. unfold newItem. cbn [id]. rewrite E. reflexivity.
  - intros Hne. unfold topicPool. cbn.
    destruct (String.eqb (selectedTopic (st w)) "All") eqn:E.
    + apply in_or_app. right. now left.
    + apply filter_In. split; [apply in_or_app; right; now left|].
      unfold newItem, topicOf. cbn. rewrite E.
      apply String.eqb_neq in Hne. rewrite Hne. apply String.eqb_refl.
Qed.

Lemma addNewItem_appends_fresh_witness :
  NoDup (map id (items (st (addNewItem (st (mount defaultItems true))
                                       (mount defaultItems true)))))
  /\ In (newItem (st (mount defaultItems true)))
        (topicPool (st (addNewItem (st (mount defaultItems true))
                                   (mount defaultItems true)))).
Proof.
  destruct (addNewItem_appends_fresh (mount defaultItems true))
    as (_ & F & _ & P).
  split.
  - apply F.
    + cbn. intros it H. repeat (destruct H as [<- | H]; [reflexivity|]).
      contradiction.
    + cbn. repeat constructor; cbn; intuition discriminate.
  - apply P. discriminate.
Defined.

(** *** The current question *)

Lemma viewItems_incl (r : RState) (it : Item) :
  In it (viewItems r) -> In it (items r).
Proof.
  unfold viewItems, topicPool. intros H.
  destruct (sessionSet r); [apply filter_In in H; destruct H as [H _]|];
    destruct (String.eqb (selectedTopic r) "All"); trivial;
    apply filter_In in H; tauto.
Qed.

Lemma hd_error_In {A : Type} (l : list A) (x : A) : hd_error l = Some x -> In x l.
Proof. destruct l; cbn; [discriminate | intros [= ->]; now left]. Qed.

Lemma fallback_In (r : RState) (it : Item) :
  orElse (hd_error (viewItems r)) (hd_error (items r)) = Some it ->
  In it (items r).
Proof.
  destruct (hd_error (viewItems r)) as [x|] eqn:E; cbn.
  - intros [= <-]. now apply viewItems_incl, hd_error_In.
  - apply hd_error_In.
Qed.

Lemma fallback_None (r : RState) :
  orElse (hd_error (viewItems r)) (hd_error (items r)) = None -> items r = [].
Proof.
  destruct (hd_error (viewItems r)); cbn; [discriminate|].
  destruct (items r); [reflexivity | discriminate].
Qed.

Lemma current_In (r : RState) (it : Item) :
  current r = Some it -> In it (items r).
Proof.
  unfold current.
  destruct (sessionSet r) as [[|i0 ids]|].
  - destruct (nth_error (viewItems r) (currentIndex r)) as [x|] eqn:E; cbn.
    + intros [= <-]. now apply viewItems_incl, (nth_error_In _ (currentIndex r)).
    + apply fallback_In.
  - destruct (find _ (items r)) as [x|] eqn:E; cbn.
    + intros [= <-]. now apply find_some in E.
    + apply fallback_In.
  - destruct (nth_error (viewItems r) (currentIndex r)) as [x|] eqn:E; cbn.
    + intros [= <-]. now apply viewItems_incl, (nth_error_In _ (currentIndex r)).
    + apply fallback_In.
Qed.

Lemma current_None_iff (r : RState) : current r = None <-> items r = [].
Proof.
  split.
  - unfold current.
    destruct (sessionSet r) as [[|i0 ids]|].
    + destruct (nth_error (viewItems r) (currentIndex r)); cbn;
        [discriminate | apply fallback_None].
    + destruct (find _ (items r)); cbn; [discriminate | apply fallback_None].
    + destruct (nth_error (viewItems r) (currentIndex r)); cbn;
        [discriminate | apply fallback_None].
  - intros E. unfold current, viewItems, topicPool. rewrite E.
    destruct (sessionSet r) as [[|i0 ids]|];
      destruct (String.eqb (selectedTopic r) "All"), (currentIndex r);
      reflexivity.
Qed.

Lemma find_by_id (i : Z) (its : list Item) :
  In i (map id its) ->
  exists it, find (fun p => Z.eqb (id p) i) its = Some it /\ id it = i.
Proof.
  intros Hin.
  destruct (find (fun p => Z.eqb (id p) i) its) as [it|] eqn:E.
  - exists it. apply find_some in E. destruct E as [_ E].
    apply Z.eqb_eq in E. auto.
  - exfalso. apply in_map_iff in Hin. destruct Hin as [p [Ep Hp]].
    pose proof (find_none _ _ E p Hp) as K. cbn in K.
    rewrite Ep, Z.eqb_refl in K. discriminate.
Qed.

(** [current] is always an item of the list, whatever the cursors, the
    topic and the session are, and it is [undefined], which disables the ask
    button, exactly when the list is empty. *)
Theorem current_is_listed (r : RState) :
  (forall it, current r = Some it -> In it (items r))
  /\ (current r = None <-> items r = []).
Proof. split; [apply current_In | apply current_None_iff]. Qed.

Lemma current_is_listed_witness :
  exists it, current (set_currentIndex 7 (set_selectedTopic "Plans"
                        (initState defaultItems))) = Some it
             /\ In it defaultItems.
Proof.
  eexists. split; [reflexivity|].
  exact (proj1 (current_is_listed (set_currentIndex 7 (set_selectedTopic "Plans"
                  (initState defaultItems)))) _ eq_refl).
Defined.

(** During a session the current question is the first item whose id is the
    one under the cursor, as long as the list still holds that id. *)
Theorem current_follows_cursor (r : RState) (ids : list Z) (i : Z) :
  sessionSet r = Some ids ->
  nth_error ids (sessionCursor r) = Some i ->
  In i (map id (items r)) ->
  exists it, current r = Some it /\ id it = i
             /\ find (fun p => Z.eqb (id p) i) (items r) = Some it.
Proof.
  intros Hs Hn Hin. unfold current. rewrite Hs.
  destruct ids as [|i0 ids]; [destruct (sessionCursor r); discriminate|].
  rewrite (nth_error_nth _ _ i0 Hn).
  destruct (find_by_id i (items r) Hin) as [it [E I]].
  exists it. rewrite E. cbn. auto.
Qed.

Lemma current_follows_cursor_witness :
  exists it, current (set_sessionCursor 1 (set_sessionSet (Some [4; 2]%Z)
                         (initState defaultItems))) = Some it
             /\ id it = 2%Z.
Proof.
  destruct (current_follows_cursor
              (set_sessionCursor 1 (set_sessionSet (Some [4; 2]%Z)
                 (initState defaultItems))) [4; 2]%Z 2%Z)
    as [it (E & I & _)]; [reflexivity | reflexivity | cbn; tauto |].
  now exists it.
Defined.

(** *** Editing and deleting *)

Lemma filter_map_same {A : Type} (p : A -> bool) (g : A -> A) (l : list A) :
  (forall x, p (g x) = p x) -> filter p (map g l) = map g (filter p l).
Proof.
  intros H. induction l as [|x l IH]; cbn; [reflexivity|].
  rewrite H. destruct (p x); cbn; now rewrite IH.
Qed.

Lemma find_map_same {A : Type} (p : A -> bool) (g : A -> A) (l : list A) :
  (forall x, p (g x) = p x) -> find p (map g l) = option_map g (find p l).
Proof.
  intros H. induction l as [|x l IH]; cbn; [reflexivity|].
  rewrite H. destruct (p x); cbn; [reflexivity | exact IH].
Qed.

Lemma hd_error_map {A B : Type} (g : A -> B) (l : list A) :
  hd_error (map g l) = option_map g (hd_error l).
Proof. destruct l; reflexivity. Qed.

Lemma orElse_map {A B : Type} (g : A -> B) (a b : option A) :
  orElse (option_map g a) (option_map g b) = option_map g (orElse a b).
Proof. destruct a; reflexivity. Qed.

Section KeepsId.
Variable g : Item -> Item.
Hypothesis g_id : forall p, id (g p) = id p.
Variable r : RState.
Hypothesis pool_map :
  topicPool (set_items (map g (items r)) r) = map g (topicPool r).

Lemma viewItems_map :
  viewItems (set_items (map g (items r)) r) = map g (viewItems r).
Proof.
  unfold viewItems. rewrite pool_map. cbn.
  destruct (sessionSet r); [|reflexivity].
  apply filter_map_same. intros p. now rewrite g_id.
Qed.

Lemma current_map :
  current (set_items (map g (items r)) r) = option_map g (current r).
Proof.
  unfold current. rewrite viewItems_map. cbn [sessionSet set_items items].
  rewrite !hd_error_map, nth_error_map.
  destruct (sessionSet r) as [[|i0 ids]|]; cbn [sessionCursor currentIndex set_items];
    rewrite ?find_map_same by (intros p; now rewrite g_id);
    rewrite !orElse_map; reflexivity.
Qed.

Lemma keeps_ids :
  map id (items (set_items (map g (items r)) r)) = map id (items r)
  /\ map id (viewItems (set_items (map g (items r)) r)) = map id (viewItems r)
  /\ option_map id (current (set_items (map g (items r)) r))
     = option_map id (current r).
Proof.
  split; [|split].
  - cbn. rewrite map_map. now apply map_ext.
  - rewrite viewItems_map, map_map. now apply map_ext.
  - rewrite current_map. destruct (current r); cbn; [now rewrite g_id | reflexivity].
Qed.
End KeepsId.

Lemma topicPool_map_topic (g : Item -> Item) (r : RState) :
  (forall p, topic (g p) = topic p) ->
  topicPool (set_items (map g (items r)) r) = map g (topicPool r).
Proof.
  intros g_topic.
  unfold topicPool. cbn. destruct (String.eqb (selectedTopic r) "All");
    [reflexivity|].
  apply filter_map_same. intros p. unfold topicOf. now rewrite g_topic.
Qed.

Lemma topicPool_map_All (g : Item -> Item) (r : RState) :
  selectedTopic r = "All" ->
  topicPool (set_items (map g (items r)) r) = map g (topicPool r).
Proof. intros E. unfold topicPool. cbn. now rewrite E. Qed.

Lemma updateById_id (i : Z) (f : Item -> Item) (p : Item) :
  (forall q, id (f q) = id q) -> id (if Z.eqb (id p) i then f p else p) = id p.
Proof. intros H. destruct (Z.eqb (id p) i); auto. Qed.


(** Editing the question or a sample of an item keeps the ids of the list,
    of the view and of the current question: a text edit never moves the
    practice to another item. *)
Theorem text_edit_keeps_current
    (e : Z -> string -> list Item -> list Item) (i : Z) (v : string) (r : RState) :
  e = editQuestion \/ e = editYesSample \/ e = editNoSample ->
  let r' := set_items (e i v (items r)) r in
  map id (items r') = map id (items r)
  /\ map id (viewItems r') = map id (viewItems r)
  /\ option_map id (current r') = option_map id (current r).
Proof.
  intros H. cbv zeta.
  assert (K : exists f, e i v = updateById i f
                        /\ (forall p, id (f p) = id p)
                        /\ (forall p, topic (f p) = topic p)).
  { destruct H as [-> | [-> | ->]];
      [exists (withQuestion v) | exists (withYesSample v) | exists (withNoSample v)];
      repeat split. }
  destruct K as [f (-> & Hi & Ht)].
  apply (keeps_ids (fun p => if Z.eqb (id p) i then f p else p)).
  - intros p. now apply updateById_id.
  - apply topicPool_map_topic. intros p. destruct (Z.eqb (id p) i); auto.
Qed.

Lemma text_edit_keeps_current_witness :
  option_map id (current (set_items (editQuestion 1 "Tea?" defaultItems)
                                    (initState defaultItems)))
  = Some 1%Z.
Proof.
  etransitivity;
    [exact (proj2 (proj2 (text_edit_keeps_current editQuestion 1 "Tea?"
                            (initState defaultItems) (or_introl eq_refl))))
    | reflexivity].
Defined.

(** While all topics are shown, editing the topic of an item keeps the ids
    of the view and of the current question; the edited items, and only
    they, carry the new topic. *)
Theorem topic_edit_keeps_current_under_All (i : Z) (v : string) (r : RState) :
  selectedTopic r = "All" ->
  let r' := set_items (editTopic i v (items r)) r in
  map id (items r') = map id (items r)
  /\ map id (viewItems r') = map id (viewItems r)
  /\ option_map id (current r') = option_map id (current r)
  /\ (forall p, In p (items r') -> id p = i -> topic p = v)
  /\ (forall p, In p (items r) -> id p <> i -> In p (items r')).
Proof.
  intros E. cbv zeta.
  destruct (keeps_ids (fun p => if Z.eqb (id p) i then withTopic v p else p)
              (fun p => updateById_id i (withTopic v) p (fun q => eq_refl)) r
              (topicPool_map_All _ r E)) as (K1 & K2 & K3).
  split; [exact K1|]. split; [exact K2|]. split; [exact K3|]. split.
  - cbn. intros p Hp Ep. apply in_map_iff in Hp. destruct Hp as [q [<- Hq]].
    destruct (Z.eqb (id q) i) eqn:Q; [reflexivity|].
    apply Z.eqb_neq in Q. contradiction.
  - cbn. intros p Hp Hne. apply in_map_iff. exists p. split; [|assumption].
    apply Z.eqb_neq in Hne. now rewrite Hne.
Qed.

Lemma topic_edit_keeps_current_under_All_witness :
  option_map id (current (set_items (editTopic 1 "Food" defaultItems)
                                    (initState defaultItems)))
  = Some 1%Z.
Proof.
  etransitivity;
    [exact (proj1 (proj2 (proj2 (topic_edit_keeps_current_under_All 1 "Food"
                            (initState defaultItems) eq_refl))))
    | reflexivity].
Defined.

(** Deleting by id removes every item with that id and nothing else, and
    the deleted item is never the current question afterwards, even when the
    session cursor still points at its id. *)
Theorem deleteItem_never_current (i : Z) (r : RState) :
  let r' := set_items (deleteItem i (items r)) r in
  (forall p, In p (items r') <-> In p (items r) /\ id p <> i)
  /\ (forall it, current r' = Some it -> id it <> i)
  /\ (current r' = None <-> forall p, In p (items r) -> id p = i).
Proof.
  cbv zeta.
  assert (D : forall p, In p (deleteItem i (items r)) <-> In p (items r) /\ id p <> i).
  { intros p. unfold deleteItem. rewrite filter_In, negb_true_iff, Z.eqb_neq. tauto. }
  split; [exact D|]. split.
  - intros it H. apply current_In in H. cbn in H. now apply D in H.
  - rewrite current_None_iff. cbn. split.
    + intros E p Hp. destruct (Z.eq_dec (id p) i) as [|Hne]; [assumption|].
      assert (K : In p (deleteItem i (items r))) by (apply D; auto).
      rewrite E in K. contradiction.
    + intros H. destruct (deleteItem i (items r)) as [|p l] eqn:E; [reflexivity|].
      assert (K : In p (p :: l)) by now left.
      apply D in K. destruct K as [K1 K2]. now apply H in K1.
Qed.

Lemma deleteItem_never_current_witness :
  exists it,
    current (set_items (deleteItem 4 defaultItems)
               (set_sessionSet (Some [4]%Z) (initState defaultItems))) = Some it
    /\ id it <> 4%Z.
Proof.
  eexists. split; [reflexivity|].
  exact (proj1 (proj2 (deleteItem_never_current 4
           (set_sessionSet (Some [4]%Z) (initState defaultItems)))) _ eq_refl).
Defined.
End EditingFacts.

(** ** More on the practice flow *)

Module FlowFacts.
Import Model Controller Flow.
Import ControllerFacts.

(** *** The next question of the open pool *)

Lemma redraw_spec (o : Oracle) (view : list Item) (cid : option Z)
                  (g d idx : nat) :
  let n := List.length view in
  let idx' := fst (redraw o view cid g d idx) in
  let d' := snd (redraw o view cid g d idx) in
  d <= d' <= d + g
  /\ (idx' = idx \/ exists k, k < g /\ idx' = randomIndex o (d + k) n)
  /\ (sameId (nth_error view idx') cid = true ->
      d' = d + g
      /\ sameId (nth_error view idx) cid = true
      /\ forall k, k < g ->
           sameId (nth_error view (randomIndex o (d + k) n)) cid = true).
Proof.
  cbv zeta. revert d idx; induction g as [|g IH]; intros d idx; cbn [redraw].
  - cbn. split; [lia|]. split; [now left|]. intros H.
    split; [lia|]. split; [assumption|]. intros k Hk. lia.
  - destruct (sameId (nth_error view idx) cid) eqn:E.
    + destruct (IH (S d) (randomIndex o d (List.length view))) as (H1 & H2 & H3).
      split; [lia|]. split.
      * right. destruct H2 as [H2 | [k [Hk H2]]].
        -- exists 0. split; [lia|]. now rewrite Nat.add_0_r.
        -- exists (S k). split; [lia|]. now rewrite Nat.add_succ_r.
      * intros H. destruct (H3 H) as (K1 & K2 & K3).
        split; [lia|]. split; [reflexivity|].
        intros [|k] Hk; [now rewrite Nat.add_0_r|].
        rewrite Nat.add_succ_r. apply (K3 k). lia.
    + cbn. split; [lia|]. split; [now left|]. intros H. congruence.
Qed.

(** In the open pool, [goNext] from the current render leaves an index of
    the view, in the sequential order (where the last item wraps to the
    first) and in the random order. *)
Theorem goNext_index_in_view (o : Oracle) (w : World) :
  drawsIndices o ->
  sessionSet (st w) = None ->
  viewItems (st w) <> [] ->
  currentIndex (st (goNext o (st w) w)) < List.length (viewItems (st w))
  /\ (random (st w) = false ->
      currentIndex (st (goNext o (st w) w))
      = (currentIndex (st w) + 1) mod List.length (viewItems (st w))).
Proof.
  intros Ho Hs Hv. unfold goNext. rewrite Hs.
  destruct (viewItems (st w)) as [|x view] eqn:V; [contradiction|].
  set (n := List.length (x :: view)).
  assert (Hn : 0 < n) by (subst n; cbn; lia).
  destruct (random (st w)) eqn:R.
  - split; [|discriminate].
    destruct (1 <? n) eqn:L.
    + pose proof (redraw_spec o (x :: view) (option_map id (current (st w))) 10
                    (S (draws w)) (randomIndex o (draws w) n)) as (_ & H & _).
      fold n in H.
      destruct (redraw o (x :: view) (option_map id (current (st w))) 10
                       (S (draws w)) (randomIndex o (draws w) n)) as [idx d].
      cbn in *. destruct H as [-> | [k [_ ->]]]; now apply Ho.
    + cbn. now apply Ho.
  - split; [|reflexivity]. cbn [currentIndex st set_autoAdvanceRef resetNeeded
      setRecognized setNeeded setCurrentIndex with_st set_recognized set_needed
      set_currentIndex].
    apply Nat.mod_upper_bound. lia.
Qed.

Lemma reversing_drawsIndices : drawsIndices reversing.
Proof. intros d n H. exact H. Qed.

Lemma goNext_index_in_view_witness :
  let w := setCurrentIndex 4 (setRandom false (mount defaultItems true)) in
  currentIndex (st (goNext reversing (st w) w)) = 0.
Proof.
  exact (proj2 (goNext_index_in_view reversing
                  (setCurrentIndex 4 (setRandom false (mount defaultItems true)))
                  reversing_drawsIndices eq_refl ltac:(discriminate)) eq_refl).
Defined.

(** In the random order [goNext] draws at least once and at most eleven
    times, and it lands on an item with the id of the current question only
    when all eleven draws did. *)
Theorem goNext_random_retries (o : Oracle) (w : World) :
  sessionSet (st w) = None ->
  random (st w) = true ->
  1 < List.length (viewItems (st w)) ->
  let view := viewItems (st w) in
  let cid := option_map id (current (st w)) in
  let w' := goNext o (st w) w in
  draws w < draws w' <= draws w + 11
  /\ (sameId (nth_error view (currentIndex (st w'))) cid = true ->
      draws w' = draws w + 11
      /\ forall k, k <= 10 ->
           sameId (nth_error view (randomIndex o (draws w + k) (List.length view))) cid
           = true).
Proof.
  intros Hs R L. cbv zeta. unfold goNext. rewrite Hs, R.
  destruct (viewItems (st w)) as [|x view] eqn:V; [cbn in L; lia|].
  apply Nat.ltb_lt in L. rewrite L.
  pose proof (redraw_spec o (x :: view) (option_map id (current (st w))) 10
                (S (draws w)) (randomIndex o (draws w) (List.length (x :: view))))
    as (H1 & _ & H3).
  destruct (redraw o (x :: view) (option_map id (current (st w))) 10
                   (S (draws w)) (randomIndex o (draws w) (List.length (x :: view))))
    as [idx d].
  cbn [fst snd] in *. cbn [draws currentIndex st set_autoAdvanceRef resetNeeded
    setRecognized setNeeded setCurrentIndex with_st set_recognized set_needed
    set_currentIndex set_draws].
  split; [lia|]. intros H. destruct (H3 H) as (K1 & K2 & K3).
  split; [lia|]. intros [|k] Hk; [now rewrite Nat.add_0_r|].
  specialize (K3 k ltac:(lia)).
  now replace (draws w + S k) with (S (draws w) + k) by lia.
Qed.

Lemma goNext_random_retries_witness :
  let w := mount defaultItems true in
  draws w < draws (goNext stalling (st w) w) <= draws w + 11.
Proof.
  cbv zeta.
  apply (goNext_random_retries stalling (mount defaultItems true));
    [reflexivity | reflexivity | cbn; lia].
Defined.

(** With no session and at most one item in view at index 0, an advance
    changes neither the index nor the pending timers: no next question is
    asked. *)
Theorem advance_stalls_on_short_view (o : Oracle) (w : World) :
  drawsIndices o ->
  sessionSet (st w) = None ->
  List.length (viewItems (st w)) <= 1 ->
  currentIndex (st w) = 0 ->
  currentIndex (st (advance o w)) = 0
  /\ timers (advance o w) = timers w
  /\ phase (st (advance o w)) = phase (st w)
  /\ (viewItems (st w) = [] -> advance o w = w).
Proof.
  intros Ho Hs Hl Hi. unfold advance, goNext. rewrite Hs.
  destruct (viewItems (st w)) as [|x [|y view]] eqn:V; [| |cbn in Hl; lia].
  - unfold flushEffects. rewrite !Nat.eqb_refl. cbn. auto.
  - assert (R : randomIndex o (draws w) 1 = 0)
      by (pose proof (Ho (draws w) 1 ltac:(lia)); lia).
    unfold flushEffects.
    destruct (random (st w)); cbn; rewrite ?R, ?Hi; cbn;
      rewrite !Nat.eqb_refl; cbn; repeat split; discriminate.
Qed.

Lemma advance_stalls_on_short_view_witness :
  timers (advance reversing (mount [nth 0 defaultItems (Editing.newItem (initState []))] true))
  = [].
Proof.
  apply (advance_stalls_on_short_view reversing
           (mount [nth 0 defaultItems (Editing.newItem (initState []))] true)
           reversing_drawsIndices eq_refl); [cbn; lia | reflexivity].
Defined.

(** *** Playing a session through *)

Lemma advance_in_session (o : Oracle) (w : World) (ids : list Z) :
  sessionSet (st w) = Some ids ->
  S (sessionCursor (st w)) < List.length ids ->
  sessionSet (st (advance o w)) = Some ids
  /\ sessionCursor (st (advance o w)) = S (sessionCursor (st w))
  /\ alerts (advance o w) = alerts w
  /\ (exists r, In (CbAsk r) (map callback (timers (advance o w))))
  /\ needed (st (advance o w)) = {| yes := true; no := true |}.
Proof.
  intros Hs Hc. unfold advance, goNext. rewrite Hs.
  destruct ids as [|i ids]; [cbn in Hc; lia|].
  assert (E : (sessionCursor (st w) + 1 <? List.length (i :: ids)) = true)
    by (apply Nat.ltb_lt; lia).
  rewrite E. unfold flushEffects. cbn.
  assert (N : (sessionCursor (st w) =? sessionCursor (st w) + 1) = false)
    by (apply Nat.eqb_neq; lia).
  rewrite N. cbn. rewrite Hs. repeat split; try lia.
  eexists. rewrite map_app. apply in_or_app. right. now left.
Qed.

Lemma advance_past_end (o : Oracle) (w : World) (ids : list Z) :
  sessionSet (st w) = Some ids -> ids <> [] ->
  List.length ids <= S (sessionCursor (st w)) ->
  sessionSet (st (advance o w)) = None
  /\ phase (st (advance o w)) = Idle
  /\ alerts (advance o w) = alerts w ++ [AlertSessionEnd]
  /\ timers (advance o w) = timers w.
Proof.
  intros Hs Hne Hc. unfold advance, goNext. rewrite Hs.
  destruct ids as [|i ids]; [contradiction|].
  assert (E : (sessionCursor (st w) + 1 <? List.length (i :: ids)) = false)
    by (apply Nat.ltb_ge; lia).
  rewrite E. unfold flushEffects. cbn. rewrite !Nat.eqb_refl. cbn. auto.
Qed.

(** A session of [n] questions, advanced from the current render each time:
    after [k < n] advances the session is kept, the cursor has moved by [k]
    and nothing was alerted; the [n]-th advance ends the session, returns
    the phase to ['idle'] and alerts once. *)
Theorem session_ends_after_its_questions (o : Oracle) (w : World) (ids : list Z) :
  sessionSet (st w) = Some ids ->
  sessionCursor (st w) = 0 ->
  ids <> [] ->
  (forall k, k < List.length ids ->
     sessionSet (st (Nat.iter k (advance o) w)) = Some ids
     /\ sessionCursor (st (Nat.iter k (advance o) w)) = k
     /\ alerts (Nat.iter k (advance o) w) = alerts w)
  /\ sessionSet (st (Nat.iter (List.length ids) (advance o) w)) = None
  /\ phase (st (Nat.iter (List.length ids) (advance o) w)) = Idle
  /\ alerts (Nat.iter (List.length ids) (advance o) w) = alerts w ++ [AlertSessionEnd].
Proof.
  intros Hs Hc Hne.
  assert (P : forall k, k < List.length ids ->
     sessionSet (st (Nat.iter k (advance o) w)) = Some ids
     /\ sessionCursor (st (Nat.iter k (advance o) w)) = k
     /\ alerts (Nat.iter k (advance o) w) = alerts w).
  { induction k as [|k IH]; intros Hk; [cbn; auto|].
    destruct (IH ltac:(lia)) as (I1 & I2 & I3).
    change (Nat.iter (S k) (advance o) w) with (advance o (Nat.iter k (advance o) w)).
    destruct (advance_in_session o _ ids I1 ltac:(lia)) as (A1 & A2 & A3 & _).
    split; [exact A1|]. split; [now rewrite A2, I2 | now rewrite A3]. }
  split; [exact P|].
  destruct (List.length ids) as [|n] eqn:L; [destruct ids; [contradiction | discriminate]|].
  destruct (P n ltac:(lia)) as (I1 & I2 & I3).
  change (Nat.iter (S n) (advance o) w) with (advance o (Nat.iter n (advance o) w)).
  destruct (advance_past_end o _ ids I1 Hne ltac:(lia)) as (A1 & A2 & A3 & _).
  split; [exact A1|]. split; [exact A2 | now rewrite A3, I3].
Qed.

Lemma session_ends_after_its_questions_witness :
  let w := step stalling ClickSession (mount defaultItems true) in
  phase (st (Nat.iter 5 (advance stalling) w)) = Idle
  /\ alerts (Nat.iter 5 (advance stalling) w) = [AlertSessionEnd].
Proof.
  cbv zeta.
  destruct (session_ends_after_its_questions stalling
              (step stalling ClickSession (mount defaultItems true))
              [1; 2; 3; 4; 5]%Z eq_refl eq_refl ltac:(discriminate))
    as (_ & _ & H2 & H3).
  split; [exact H2 | exact H3].
Defined.

(** Starting a session arms nothing by itself: the session button schedules
    the first question only when the new cursor 0 differs from the cursor
    left by an earlier session; otherwise the phase and the timers stay as
    they are and [autoAdvanceRef] stays set. *)
Theorem session_start_asks_only_after_cursor_moved (o : Oracle) (w : World) :
  sessionSet (st w) = None ->
  let w' := step o ClickSession w in
  phase (st w') = phase (st w)
  /\ (sessionCursor (st w) = 0 ->
      timers w' = timers w /\ autoAdvanceRef w' = true)
  /\ (sessionCursor (st w) <> 0 ->
      exists r, timers w' = timers w ++ [{| tid := nextTimer w; delay := 0%N;
                                            callback := CbAsk r |}]
                /\ sessionSet r = sessionSet (st w') /\ sessionCursor r = 0).
Proof.
  intros Hs. cbv zeta. unfold step. cbn [handle]. rewrite Hs.
  set (w1 := buildSession o 10 (st w) w).
  assert (F : sessionCursor (st w1) = 0 /\ currentIndex (st w1) = currentIndex (st w)
              /\ phase (st w1) = phase (st w) /\ timers w1 = timers w
              /\ nextTimer w1 = nextTimer w /\ autoAdvanceRef w1 = true)
    by (repeat split).
  destruct F as (F1 & F2 & F3 & F4 & F5 & F6).
  unfold flushEffects. rewrite F1, F2, F6, Nat.eqb_refl, andb_true_r.
  split; [|split].
  - destruct (sessionCursor (st w) =? 0); [exact F3|]. cbn. exact F3.
  - intros ->. cbn. auto.
  - intros H. apply Nat.eqb_neq in H. rewrite H.
    exists (st w1). repeat split.
Qed.

Lemma session_start_asks_only_after_cursor_moved_witness :
  timers (step stalling ClickSession (mount defaultItems true)) = []
  /\ phase (st (step stalling ClickSession (mount defaultItems true))) = Idle.
Proof.
  destruct (session_start_asks_only_after_cursor_moved stalling
              (mount defaultItems true) eq_refl) as (P & Z & _).
  split; [exact (proj1 (Z eq_refl)) | exact P].
Defined.

(** *** The practice time *)

Lemma Clamped_quiet (w w' : World) : quiet w w' -> Clamped w -> Clamped w'.
Proof.
  intros (H1 & H2 & H3 & H4) [A B C D].
  split; unfold clamped in *; rewrite ?H1, ?H2, ?H3, ?H4; assumption.
Qed.


Lemma quiet_goNext o r w : quiet w (goNext o r w).
Proof. unfold quiet, goNext. split_cases; repeat split. Qed.

Lemma Clamped_setTimeout (cb : Callback) (ms : N) (w : World) :
  match cb with
  | CbReveal r => clamped r /\ ms = (N.of_nat (practiceSec r) * 1000)%N
  | CbAsk r => clamped r
  | CbStartRecognition => True
  end ->
  Clamped w -> Clamped (setTimeout cb ms w).
Proof.
  intros H [A B C D]. split; try assumption.
  intros t Ht. cbn in Ht. apply in_app_or in Ht.
  destruct Ht as [Ht | [<- | []]]; [now apply B | exact H].
Qed.

Lemma Clamped_drop (h : nat) (w : World) :
  Clamped w -> Clamped (set_timers (drop_timer h (timers w)) (nextTimer w) w).
Proof.
  intros [A B C D]. split; try assumption.
  intros t Ht. cbn in Ht. apply In_drop_timer in Ht. apply B. tauto.
Qed.

Lemma Clamped_clearTimeout (h : option nat) (w : World) :
  Clamped w -> Clamped (clearTimeout h w).
Proof. destruct h; cbn; [apply Clamped_drop | trivial]. Qed.

Lemma Clamped_speak (u : SpeechEnd) (w : World) :
  clamped (speechRender u) -> Clamped w -> Clamped (speak u w).
Proof.
  intros H [A B C D]. unfold speak. destruct (ttsAvailable w); [|now split].
  split; try assumption. intros x Hx. cbn in Hx. apply in_app_or in Hx.
  destruct Hx as [Hx | [<- | []]]; [now apply C | exact H].
Qed.

Lemma Clamped_armCountdown (r : RState) (w : World) :
  clamped r -> Clamped w -> Clamped (armCountdown r w).
Proof.
  intros H I. unfold armCountdown.
  apply (Clamped_quiet (setTimeout (CbReveal r) (N.of_nat (practiceSec r) * 1000)
                          (clearTimeout (practiceTimerRef w) w)));
    [repeat split|].
  apply Clamped_setTimeout; [now split | now apply Clamped_clearTimeout].
Qed.

Lemma Clamped_ask (r : RState) (w : World) :
  clamped r -> Clamped w -> Clamped (ask r w).
Proof.
  intros H I. unfold ask. destruct (useTTS r).
  - apply Clamped_speak; [exact H|]. now apply (Clamped_quiet w).
  - apply Clamped_armCountdown; [exact H|]. now apply (Clamped_quiet w).
Qed.

Lemma Clamped_reveal o (r : RState) (w : World) :
  clamped r -> Clamped w -> Clamped (reveal o r w).
Proof.
  intros H I. unfold reveal. destruct (useTTS r).
  - apply Clamped_speak; [exact H|]. now apply (Clamped_quiet w).
  - eapply Clamped_quiet; [apply quiet_goNext|]. now apply (Clamped_quiet w).
Qed.

Lemma Clamped_handle o ev w : Clamped w -> Clamped (handle o ev w).
Proof.
  intros I. pose proof I as [A B C D].
  destruct ev; cbn [handle]; try (now apply (Clamped_quiet w)).
  - destruct (current (st w)); [now apply Clamped_ask | exact I].
  - destruct (sessionSet (st w)); [exact I | now apply (Clamped_quiet w)].
  - split; try assumption. unfold clamped.
    cbn [st practiceSec setPracticeSec with_st set_practiceSec]. lia.
  - destruct (find (fun t => tid t =? h) (timers w)) as [t|] eqn:F; [|exact I].
    apply find_some in F. destruct F as [F _]. specialize (B t F).
    pose proof (Clamped_drop h w I) as I1.
    destruct (callback t); cbn [runCallback].
    + now apply Clamped_reveal.
    + eapply Clamped_quiet; [|exact I1]. repeat split.
    + now apply Clamped_ask.
  - destruct (nth_error (utterances w) k) as [c|] eqn:F; [|exact I].
    apply nth_error_In in F. pose proof (C c F) as Cc.
    assert (I1 : Clamped (set_utterances (remove_nth k (utterances w)) w)).
    { split; try assumption. intros u Hu. apply C. cbn in Hu.
      clear -Hu. revert k Hu. induction (utterances w) as [|x l IH];
        intros [|k] Hu; cbn in *; auto. destruct Hu as [-> | Hu]; eauto. }
    destruct c; cbn [runSpeechEnd speechRender] in *.
    + unfold endQuestion. apply Clamped_armCountdown; [exact Cc|].
      now apply Clamped_setTimeout.
    + eapply Clamped_quiet; [apply quiet_goNext | exact I1].
  - unfold onresult.
    destruct isFinal; [|now apply (Clamped_quiet w)].
    destruct (Classifier.parseYesNo (Some txt)); [|now apply (Clamped_quiet w)].
    match goal with |- context [if ?b then _ else _] => destruct b end;
      [|now apply (Clamped_quiet w)].
    unfold fastReveal. destruct (Phase_eqb (phase (recRender w)) Practice);
      [|now apply (Clamped_quiet w)].
    apply Clamped_reveal; [exact D|]. apply Clamped_clearTimeout.
    now apply (Clamped_quiet w).
Qed.

Lemma Clamped_step o ev w : Clamped w -> Clamped (step o ev w).
Proof.
  intros I. unfold step, flushEffects.
  pose proof (Clamped_handle o ev w I) as I1.
  match goal with |- context [if ?b then _ else _] => destruct b end; [exact I1|].
  destruct (autoAdvanceRef (handle o ev w)); [|exact I1].
  apply Clamped_setTimeout; [apply I1|]. now apply (Clamped_quiet (handle o ev w)).
Qed.

Lemma reachable_Clamped o w : reachable o w -> Clamped w.
Proof.
  induction 1 as [items0 tts | w ev _ IH]; [|now apply Clamped_step].
  split; unfold clamped; cbn; try lia; intros x [].
Qed.

(** The practice time stays between 3 and 20 seconds, and every armed
    countdown waits between 3000 and 20000 milliseconds. *)
Theorem countdown_delay_clamped (o : Oracle) (w : World) :
  reachable o w ->
  3 <= practiceSec (st w) <= 20
  /\ forall t, In t (countdowns w) -> (3000 <= delay t <= 20000)%N.
Proof.
  intros R. destruct (reachable_Clamped o w R) as [A B C D].
  split; [exact A|]. intros t Ht. unfold countdowns in Ht.
  apply filter_In in Ht. destruct Ht as [Ht Hc]. specialize (B t Ht).
  unfold isCountdown in Hc. destruct (callback t); try discriminate.
  destruct B as [[B1 B2] ->]. lia.
Qed.

Lemma countdown_delay_clamped_witness :
  exists t,
    In t (countdowns (run stalling [SetPracticeSec 99; SetUseTTS false; ClickAsk]
                          (mount defaultItems true)))
    /\ (3000 <= delay t <= 20000)%N.
Proof.
  destruct (countdowns (run stalling [SetPracticeSec 99; SetUseTTS false; ClickAsk]
                            (mount defaultItems true))) as [|t l] eqn:E;
    [vm_compute in E; discriminate E|].
  exists t. split; [now left|].
  apply (proj2 (countdown_delay_clamped stalling _
                  (reachable_run stalling [SetPracticeSec 99; SetUseTTS false; ClickAsk]
                     _ (reach_mount _ defaultItems true)))).
  rewrite E. now left.
Defined.

(** *** When the browser lacks a capability *)

(** With speech output on and no speech synthesis, [ask] leaves nothing
    pending: no countdown is armed and no utterance queued, so nothing will
    reveal the question. When recognition fails to start (speech output
    off), [listening] is false and the countdown is armed all the same. *)
Theorem ask_without_capabilities (r : RState) (w : World) :
  (useTTS r = true -> ttsAvailable w = false ->
   timers (ask r w) = timers w /\ utterances (ask r w) = utterances w
   /\ phase (st (ask r w)) = Practice)
  /\ (useTTS r = false -> recStartThrows w = true ->
      listening (st (ask r w)) = false
      /\ In {| tid := nextTimer w; delay := (N.of_nat (practiceSec r) * 1000)%N;
               callback := CbReveal r |} (countdowns (ask r w))).
Proof.
  split.
  - intros H1 H2. unfold ask, speak. rewrite H1. cbn. rewrite H2. auto.
  - intros H1 H2. unfold ask. rewrite H1. split.
    + unfold armCountdown, startRecognition, clearTimeout.
      destruct (practiceTimerRef _); cbn; now rewrite H2.
    + unfold countdowns, armCountdown. cbn. rewrite filter_app.
      apply in_or_app. right.
      replace (nextTimer (clearTimeout _ _)) with (nextTimer w)
        by (unfold clearTimeout; destruct (practiceTimerRef _); reflexivity).
      now left.
Qed.

Lemma ask_without_capabilities_witness :
  timers (ask (initState defaultItems) (mount defaultItems false)) = []
  /\ listening (st (ask (set_useTTS false (initState defaultItems))
                        (set_recStartThrows true (mount defaultItems true)))) = false.
Proof.
  split.
  - apply (proj1 (ask_without_capabilities (initState defaultItems)
                    (mount defaultItems false))); reflexivity.
  - apply (proj2 (ask_without_capabilities (set_useTTS false (initState defaultItems))
                    (set_recStartThrows true (mount defaultItems true))));
      reflexivity.
Defined.

(** *** Changing the topic *)

(** Picking a topic ends any session and shows the first item of the new
    pool (the first item of the list when the pool is empty); the phase,
    the pending utterances and the armed countdowns are left as they are. *)
Theorem ChangeTopic_shows_first_of_pool (o : Oracle) (t : string) (w : World) :
  let w' := step o (ChangeTopic t) w in
  sessionSet (st w') = None
  /\ (sessionCursor (st w'), currentIndex (st w')) = (0, 0)
  /\ current (st w') = orElse (hd_error (topicPool (st w'))) (hd_error (items (st w)))
  /\ phase (st w') = phase (st w)
  /\ utterances w' = utterances w
  /\ countdowns w' = countdowns w.
Proof.
  cbv zeta. unfold step. cbn [handle].
  set (w1 := setCurrentIndex 0 (setSessionCursor 0 (setSessionSet None
               (setSelectedTopic t w)))).
  assert (S1 : st (flushEffects (st w) w1) = st w1)
    by (unfold flushEffects; split_cases; reflexivity).
  rewrite S1.
  split; [reflexivity|]. split; [reflexivity|]. split.
  - unfold current, viewItems. cbn.
    destruct (topicPool _); reflexivity.
  - split; [reflexivity|].
    unfold flushEffects. split_cases; cbn; try tauto.
    unfold countdowns. cbn. rewrite filter_app. cbn. now rewrite app_nil_r.
Qed.

(** *** The tracker *)

(** A recognition result records the transcript and touches the tracker
    only when it is final and classified: then it clears the flag of its
    polarity and leaves the other; an interim or unclassified result leaves
    both flags, and no result sets a flag again. *)
Theorem tracker_flips_only_on_final (o : Oracle) (w : World)
                                    (txt : string) (fin : bool) :
  reachable o w ->
  let w' := step o (RecResult txt fin) w in
  recognized (st w') = txt
  /\ needed (st w')
     = match (if fin then Classifier.parseYesNo (Some txt) else None) with
       | Some Classifier.yes => {| yes := false; no := no (needed (st w)) |}
       | Some Classifier.no => {| yes := yes (needed (st w)); no := false |}
       | None => needed (st w)
       end
  /\ (yes (needed (st w)) = false -> yes (needed (st w')) = false)
  /\ (no (needed (st w)) = false -> no (needed (st w')) = false).
Proof.
  intros R. cbv zeta.
  pose proof (reachable_recRender o w R) as H.
  assert (E : st (step o (RecResult txt fin) w)
              = st (onresult o (recRender w) txt fin w))
    by (unfold step, flushEffects; cbn [handle]; split_cases; reflexivity).
  rewrite E. unfold onresult.
  destruct fin; [|cbn; auto].
  destruct (Classifier.parseYesNo (Some txt)) as [[|]|]; [| |cbn; auto];
    rewrite fastReveal_stale by exact H;
    match goal with |- context [if ?b then _ else _] => destruct b end;
    cbn; auto.
Qed.

Lemma tracker_flips_only_on_final_witness :
  needed (st (step stalling (RecResult "no" true) (mount defaultItems true)))
  = {| yes := true; no := false |}.
Proof.
  exact (proj1 (proj2 (tracker_flips_only_on_final stalling
                         (mount defaultItems true) "no" true
                         (reach_mount _ defaultItems true)))).
Defined.

(** *** The first question of a session *)

Lemma unique_by_id (its : list Item) (p q : Item) :
  NoDup (map id its) -> In p its -> In q its -> id p = id q -> p = q.
Proof.
  induction its as [|x its IH]; cbn; intros D Hp Hq E; [contradiction|].
  apply NoDup_cons_iff in D. destruct D as [Hx D].
  destruct Hp as [<- | Hp], Hq as [<- | Hq]; auto.
  - exfalso. apply Hx. rewrite E. now apply in_map.
  - exfalso. apply Hx. rewrite <- E. now apply in_map.
Qed.

Lemma topicPool_incl (r : RState) (it : Item) :
  In it (topicPool r) -> In it (items r).
Proof.
  unfold topicPool. destruct (String.eqb (selectedTopic r) "All");
    [trivial | intros H; apply filter_In in H; tauto].
Qed.

(** When the ids of the list are distinct and the pool of the selected
    topic is not empty, the session that [buildSession] starts is not empty
    and its first question, the current one right after the start, is an
    item of that pool. *)
Theorem session_starts_in_topic (o : Oracle) (count : nat) (w : World) :
  (forall d l, Permutation l (shuffle o d l)) ->
  NoDup (map id (items (st w))) ->
  topicPool (st w) <> [] ->
  0 < count ->
  let w' := buildSession o count (st w) w in
  exists i ids it,
    sessionSet (st w') = Some (i :: ids)
    /\ current (st w') = Some it
    /\ id it = i
    /\ In it (topicPool (st w)).
Proof.
  intros P D Hp Hc. cbv zeta.
  destruct (SessionFacts.sessionIds_spec (shuffle o (draws w)) count
              (topicPool (st w)) (P _ _)) as (HL & _ & Hin).
  destruct (SessionFacts.uniqueIds_spec (topicPool (st w))) as [_ U].
  assert (N : 0 < List.length (uniqueIds (topicPool (st w)))).
  { destruct (topicPool (st w)) as [|x l] eqn:E; [contradiction|].
    destruct (uniqueIds (x :: l)) as [|u us] eqn:E2; [|cbn; lia].
    exfalso. apply (proj2 (U (id x))). now left. }
  destruct (sessionIds (shuffle o (draws w)) count (topicPool (st w)))
    as [|i ids] eqn:E; [cbn in HL; lia|].
  destruct (Hin i (or_introl eq_refl)) as [p [Hpool Hid]].
  assert (S1 : sessionSet (st (buildSession o count (st w) w)) = Some (i :: ids))
    by (cbn; now rewrite E).
  assert (S2 : sessionCursor (st (buildSession o count (st w) w)) = 0)
    by reflexivity.
  assert (S3 : items (st (buildSession o count (st w) w)) = items (st w))
    by reflexivity.
  destruct (EditingFacts.find_by_id i (items (st w))) as [it [C3 C2]].
  { rewrite <- Hid. apply in_map. now apply topicPool_incl. }
  exists i, ids, it. split; [exact S1|]. split; [|split; [exact C2|]].
  { unfold current. rewrite S1, S2, S3. cbn [nth]. now rewrite C3. }
  apply find_some in C3. destruct C3 as [C3 _].
  assert (it = p)
    by (apply (unique_by_id (items (st w))); auto using topicPool_incl; congruence).
  now subst.
Qed.

Lemma session_starts_in_topic_witness :
  exists i ids it,
    sessionSet (st (buildSession reversing 10 (st (mount defaultItems true))
                                 (mount defaultItems true))) = Some (i :: ids)
    /\ current (st (buildSession reversing 10 (st (mount defaultItems true))
                                 (mount defaultItems true))) = Some it
    /\ id it = i
    /\ In it (topicPool (st (mount defaultItems true))).
Proof.
  apply (session_starts_in_topic reversing 10 (mount defaultItems true)).
  - intros d l. apply Permutation_rev.
  - cbn. repeat constructor; cbn; intuition discriminate.
  - discriminate.
  - lia.
Defined.
End FlowFacts.

(** ** Normalization of the transcript *)

Module NormalFacts.
Import Str Classifier Normal.

Lemma lower_ascii_idem (c : ascii) : lower_ascii (lower_ascii c) = lower_ascii c.
Proof. destruct c as [[] [] [] [] [] [] [] []]; reflexivity. Qed.

Lemma is_space_lower (c : ascii) : is_space (lower_ascii c) = is_space c.
Proof. destruct c as [[] [] [] [] [] [] [] []]; reflexivity. Qed.

Lemma toLowerCase_idem (s : string) : toLowerCase (toLowerCase s) = toLowerCase s.
Proof.
  induction s as [|c s IH]; cbn; [reflexivity|].
  now rewrite lower_ascii_idem, IH.
Qed.

Lemma toLowerCase_app (a b : string) :
  toLowerCase (a ++ b) = (toLowerCase a ++ toLowerCase b)%string.
Proof. induction a as [|c a IH]; cbn; [reflexivity | now rewrite IH]. Qed.

Lemma allSpaces_lower (s : string) : allSpaces (toLowerCase s) = allSpaces s.
Proof.
  induction s as [|c s IH]; cbn; [reflexivity|]. now rewrite is_space_lower, IH.
Qed.

Lemma trimStart_allSpaces (s : string) :
  allSpaces s = true -> trimStart s = EmptyString.
Proof.
  induction s as [|c s IH]; cbn; [reflexivity|].
  intros H. apply andb_true_iff in H. destruct H as [-> H]. auto.
Qed.

Lemma trimEnd_allSpaces (s : string) :
  allSpaces s = true -> trimEnd s = EmptyString.
Proof.
  induction s as [|c s IH]; cbn; [reflexivity|].
  intros H. apply andb_true_iff in H. destruct H as [-> H]. now rewrite IH.
Qed.

Lemma trimStart_app_spaces (pre s : string) :
  allSpaces pre = true -> trimStart (pre ++ s) = trimStart s.
Proof.
  induction pre as [|c pre IH]; cbn; [reflexivity|].
  intros H. apply andb_true_iff in H. destruct H as [-> H]. auto.
Qed.

Lemma trimEnd_app_spaces (s post : string) :
  allSpaces post = true -> trimEnd (s ++ post) = trimEnd s.
Proof.
  intros H. induction s as [|c s IH]; cbn.
  - now apply trimEnd_allSpaces.
  - now rewrite IH.
Qed.

Lemma trim_app_spaces (s post : string) :
  allSpaces post = true -> trim (s ++ post) = trim s.
Proof.
  intros H. unfold trim. induction s as [|c s IH]; cbn.
  - now rewrite (trimStart_allSpaces post H).
  - destruct (is_space c); [exact IH|].
    change (String c (s ++ post)) with (String c s ++ post)%string.
    now apply trimEnd_app_spaces.
Qed.

Lemma trim_idem (s : string) : trim (trim s) = trim s.
Proof.
  assert (E : forall t, trimEnd (trimEnd t) = trimEnd t).
  { induction t as [|c t IH]; cbn; [reflexivity|].
    destruct (trimEnd t) as [|d u] eqn:T.
    - destruct (is_space c) eqn:C; cbn; [reflexivity | now rewrite C].
    - cbn [trimEnd] in *. now rewrite IH. }
  assert (S : forall t, trimStart t = t -> trimStart (trimEnd t) = trimEnd t).
  { intros [|c t]; cbn; [reflexivity|].
    destruct (is_space c) eqn:C.
    - intros H. exfalso. clear -H.
      assert (L : forall u, String.length (trimStart u) <= String.length u).
      { induction u as [|d u IH]; cbn; [lia|]. destruct (is_space d); cbn; lia. }
      specialize (L t). rewrite H in L. cbn in L. lia.
    - intros _. destruct (trimEnd t); cbn; now rewrite C. }
  assert (T : forall t, trimStart (trimStart t) = trimStart t).
  { induction t as [|c t IH]; cbn; [reflexivity|].
    destruct (is_space c) eqn:C; [exact IH | cbn; now rewrite C]. }
  unfold trim. rewrite (S _ (T s)). apply E.
Qed.

Lemma normalize_idem (s : string) : normalize (normalize s) = normalize s.
Proof.
  unfold normalize.
  assert (L : forall t, toLowerCase t = t -> toLowerCase (trim t) = trim t).
  { intros t H. unfold trim.
    assert (A : forall u, toLowerCase u = u -> toLowerCase (trimStart u) = trimStart u).
    { induction u as [|c u IH]; cbn; [reflexivity|].
      intros [= Hc Hu]. destruct (is_space c); [now apply IH | cbn; congruence]. }
    assert (B : forall u, toLowerCase u = u -> toLowerCase (trimEnd u) = trimEnd u).
    { induction u as [|c u IH]; cbn; [reflexivity|].
      intros [= Hc Hu]. specialize (IH Hu).
      destruct (trimEnd u); [destruct (is_space c); cbn; congruence|].
      cbn in *. congruence. }
    now apply B, A. }
  rewrite (L _ (toLowerCase_idem s)). apply trim_idem.
Qed.

Lemma parseYesNo_by_normal_form (a b : string) :
  normalize a = normalize b -> parseYesNo (Some a) = parseYesNo (Some b).
Proof.
  intros H.
  assert (E : forall s, parseYesNo (Some s) =
                if existsb (phrase_matches (normalize s)) yesWords then Some yes
                else if existsb (phrase_matches (normalize s)) noWords then Some no
                else None)
    by (intros [|c s]; reflexivity).
  now rewrite !E, H.
Qed.

(** On transcripts of ASCII characters the classification looks at the
    normalized transcript only: it is the same for transcripts that differ
    in the case of letters, or by ASCII white space (TAB, LF, VT, FF, CR,
    space) before and after, and normalizing first changes nothing. *)
Theorem parseYesNo_ignores_case_and_margins :
  (forall a b, isAscii a = true -> isAscii b = true ->
               toLowerCase a = toLowerCase b ->
               parseYesNo (Some a) = parseYesNo (Some b))
  /\ (forall pre s post, isAscii s = true ->
        allSpaces pre = true -> allSpaces post = true ->
        parseYesNo (Some (pre ++ s ++ post)%string) = parseYesNo (Some s))
  /\ (forall s, isAscii s = true ->
        parseYesNo (Some (normalize s)) = parseYesNo (Some s)).
Proof.
  split; [|split].
  - intros a b _ _ H. apply parseYesNo_by_normal_form. unfold normalize.
    now rewrite H.
  - intros pre s post _ Hp Hq. apply parseYesNo_by_normal_form. unfold normalize.
    rewrite !toLowerCase_app. unfold trim at 1.
    rewrite trimStart_app_spaces by (now rewrite allSpaces_lower).
    fold (trim (toLowerCase s ++ toLowerCase post)).
    apply trim_app_spaces. now rewrite allSpaces_lower.
  - intros s _. apply parseYesNo_by_normal_form, normalize_idem.
Qed.

Lemma parseYesNo_ignores_case_and_margins_witness :
  parseYesNo (Some "YES") = parseYesNo (Some "yes")
  /\ parseYesNo (Some ("  " ++ "no" ++ " ")%string) = parseYesNo (Some "no").
Proof.
  split.
  - apply (proj1 parseYesNo_ignores_case_and_margins); reflexivity.
  - apply (proj1 (proj2 parseYesNo_ignores_case_and_margins)); reflexivity.
Defined.
End NormalFacts.

(** ** Local storage *)

Module StorageFacts.
Import Json Persist Storage.
Import JsonFacts.

(** *** Reading the text without a gap *)

Lemma compact_opens (v : json) : opens (compact v).
Proof.
  destruct v as [| [] | z | k | s | l | fs]; try (cbn; repeat split; fail).
  destruct (printNumber_head z) as [c [s [E H]]].
  cbn [compact]. rewrite E. now apply numeric_opens.
Qed.

Lemma boundary_close (c : ascii) (rest : string) :
  c = "]"%char \/ c = "}"%char \/ c = ","%char -> boundary (String c rest).
Proof. intros [-> | [-> | ->]]; split; reflexivity. Qed.

Lemma joinWith_cons2 (sp x y : string) (l : list string) :
  joinWith sp (x :: y :: l) = (x ++ sp ++ joinWith sp (y :: l))%string.
Proof. reflexivity. Qed.

Lemma readElems_compact (l : list json) :
  Forall readsCompact l -> l <> [] ->
  forall rest fuel,
    elemsWeight l <= fuel ->
    readElems fuel (joinWith "," (map compact l) ++ String "]" rest)
    = Some (map nullify l, rest).
Proof.
  induction 1 as [|x l Hx Hl IH]; intros Hne rest fuel Hf; [contradiction|].
  destruct fuel as [|f]; [cbn in Hf; lia|].
  cbn [elemsWeight fold_right] in Hf. fold (elemsWeight l) in Hf.
  rewrite readElems_S.
  destruct l as [|y l].
  - cbn [map joinWith].
    rewrite (Hx _ f (boundary_close "]" rest (or_introl eq_refl))) by lia.
    reflexivity.
  - cbn [map]. rewrite joinWith_cons2, !append_assoc.
    change ("," ++ ?s)%string with (String "," s).
    rewrite (Hx _ f (boundary_close "," _ (or_intror (or_intror eq_refl)))) by lia.
    cbn [skipWs]. change (isWs ",") with false. cbv iota.
    change (Ascii.eqb "," "]") with false. change (Ascii.eqb "," ",") with true.
    cbv iota.
    change (compact y :: map compact l) with (map compact (y :: l)).
    rewrite (IH ltac:(discriminate) rest f) by lia.
    reflexivity.
Qed.

Lemma readFields_compact (fs : list (string * json)) :
  Forall (fun kv => readsCompact (snd kv)) fs -> fs <> [] ->
  forall rest fuel,
    fieldsWeight fs <= fuel ->
    readFields fuel (joinWith "," (map compactField fs) ++ String "}" rest)
    = Some (map nullifyField fs, rest).
Proof.
  induction 1 as [|[k v] fs Hx Hl IH]; intros Hne rest fuel Hf; [contradiction|].
  destruct fuel as [|f]; [cbn in Hf; lia|].
  cbn [fieldsWeight fold_right snd] in Hf. fold (fieldsWeight fs) in Hf.
  cbn [snd] in Hx.
  assert (Hkey : forall tail,
             boundary tail ->
             readFields (S f) (compactField (k, v) ++ tail)
             = match skipWs tail with
               | String c2 s2 =>
                   if Ascii.eqb c2 "}" then Some ([(k, nullify v)], s2)
                   else if Ascii.eqb c2 "," then
                     match readFields f s2 with
                     | Some (l, rest') => Some ((k, nullify v) :: l, rest')
                     | None => None
                     end
                   else None
               | EmptyString => None
               end).
  { intros tail B. unfold compactField. cbn [fst snd].
    rewrite !append_assoc.
    destruct (readString_quote k (":" ++ compact v ++ tail)) as [body [E R]].
    rewrite E, readFields_S, R.
    change (skipWs (":" ++ compact v ++ tail))
      with (String ":" (compact v ++ tail)).
    cbv iota. change (Ascii.eqb ":" ":") with true. cbv iota.
    rewrite (Hx tail f B) by lia. reflexivity. }
  destruct fs as [|kv fs].
  - cbn [map joinWith].
    rewrite Hkey by (apply boundary_close; auto). reflexivity.
  - cbn [map]. rewrite joinWith_cons2, !append_assoc.
    change ("," ++ ?s)%string with (String "," s).
    rewrite Hkey by (apply boundary_close; auto).
    cbn [skipWs]. change (isWs ",") with false. cbv iota.
    change (Ascii.eqb "," "}") with false. change (Ascii.eqb "," ",") with true.
    cbv iota.
    change (compactField kv :: map compactField fs) with (map compactField (kv :: fs)).
    rewrite (IH ltac:(discriminate) rest f) by lia.
    reflexivity.
Qed.

Lemma compact_array (x : json) (l : list json) :
  compact (JArray (x :: l))
  = String "[" (EmptyString ++ joinWith "," (map compact (x :: l)) ++ "]").
Proof. reflexivity. Qed.

Lemma compact_object (kv : string * json) (fs : list (string * json)) :
  compact (JObject (kv :: fs))
  = String "{" (EmptyString ++ joinWith "," (map compactField (kv :: fs)) ++ "}").
Proof. reflexivity. Qed.

Lemma readsCompact_all (v : json) : inRange v = true -> readsCompact v.
Proof.
  induction v as [| b | z | k | s | l IH | fs IH] using json_nested_ind;
    intros X rest fuel B Hf;
    (destruct fuel as [|f]; [cbn in Hf; lia|]).
  - reflexivity.
  - destruct b; reflexivity.
  - cbn [compact nullify].
    destruct (printNumber_head z) as [c [s [E H]]].
    pose proof (readNumber_print z rest B X) as R.
    rewrite E in *. cbn [append] in *.
    now rewrite readValue_numeric, R.
  - reflexivity.
  - cbn [compact].
    destruct (readString_quote s rest) as [body [E R]].
    now rewrite E, readValue_string, R.
  - destruct l as [|x l]; [reflexivity|].
    pose proof (Forall_inRange (fun x => x) readsCompact (x :: l) IH X) as IH'.
    rewrite compact_array. cbn [append]. rewrite !append_assoc.
    change ("]" ++ rest)%string with (String "]" rest).
    change (String "[" (?a ++ ?b))%string with (String "[" (EmptyString ++ a ++ b)).
    rewrite readValue_array;
      [| apply blank_empty | apply joinWith_opens, compact_opens ].
    rewrite (readElems_compact (x :: l) IH' ltac:(discriminate) rest f);
      [reflexivity|]. cbn [weight] in Hf. unfold elemsWeight. lia.
  - destruct fs as [|kv fs]; [reflexivity|].
    pose proof (Forall_inRange snd readsCompact (kv :: fs) IH X) as IH'.
    rewrite compact_object. cbn [append]. rewrite !append_assoc.
    change ("}" ++ rest)%string with (String "}" rest).
    change (String "{" (?a ++ ?b))%string with (String "{" (EmptyString ++ a ++ b)).
    rewrite readValue_object;
      [| apply blank_empty | apply joinWith_opens, quote_opens ].
    rewrite (readFields_compact (kv :: fs) IH' ltac:(discriminate) rest f);
      [reflexivity|]. cbn [weight] in Hf. unfold fieldsWeight. lia.
Qed.

Lemma elemsWeight_compact (l : list json) :
  Forall (fun x => weight x <= String.length (compact x)) l ->
  elemsWeight l <= String.length (joinWith "," (map compact l)) + 1.
Proof.
  induction 1 as [|x l Hx Hl IH]; [cbn; lia|].
  cbn [elemsWeight fold_right]. fold (elemsWeight l).
  destruct l as [|y l].
  - cbn [map joinWith elemsWeight fold_right]. lia.
  - cbn [map]. rewrite joinWith_cons2, !length_append.
    change (compact y :: map compact l) with (map compact (y :: l)).
    cbn [String.length]. lia.
Qed.

Lemma fieldsWeight_compact (fs : list (string * json)) :
  Forall (fun kv => weight (snd kv) <= String.length (compact (snd kv))) fs ->
  fieldsWeight fs <= String.length (joinWith "," (map compactField fs)) + 1.
Proof.
  induction 1 as [|kv fs Hx Hl IH]; [cbn; lia|].
  cbn [fieldsWeight fold_right]. fold (fieldsWeight fs).
  assert (Hf : weight (snd kv) <= String.length (compactField kv))
    by (unfold compactField; rewrite !length_append; lia).
  destruct fs as [|kv' fs].
  - cbn [map joinWith fieldsWeight fold_right]. lia.
  - cbn [map]. rewrite joinWith_cons2, !length_append.
    change (compactField kv' :: map compactField fs)
      with (map compactField (kv' :: fs)).
    cbn [String.length]. lia.
Qed.

Lemma weight_compact (v : json) : weight v <= String.length (compact v).
Proof.
  induction v as [| b | z | k | s | l IH | fs IH] using json_nested_ind.
  - cbn. lia.
  - destruct b; cbn; lia.
  - cbn [compact weight]. destruct (printNumber_head z) as [c [s [E _]]].
    rewrite E. cbn. lia.
  - cbn. lia.
  - cbn [compact weight]. unfold quote. cbn. lia.
  - destruct l as [|x l]; [cbn; lia|].
    rewrite compact_array. cbn [append String.length]. rewrite !length_append.
    pose proof (elemsWeight_compact (x :: l) IH).
    cbn [weight]. fold (elemsWeight (x :: l)). cbn [String.length]. lia.
  - destruct fs as [|kv fs]; [cbn; lia|].
    rewrite compact_object. cbn [append String.length]. rewrite !length_append.
    pose proof (fieldsWeight_compact (kv :: fs) IH).
    cbn [weight]. fold (fieldsWeight (kv :: fs)). cbn [String.length]. lia.
Qed.

(** Reading the text that [JSON.stringify(v)] writes gives [v] back, with
    [null] for every number that is not finite. *)
Lemma read_compact (v : json) :
  inRange v = true -> read (compact v) = Some (nullify v).
Proof.
  intros X. unfold read.
  pose proof (readsCompact_all v X EmptyString
                (2 * String.length (compact v) + 2) I) as R.
  rewrite append_empty_r in R.
  rewrite R; [reflexivity|]. pose proof (weight_compact v). lia.
Qed.

(** *** Loading and saving *)

(** [loadFromLocalStorage] never returns an empty list: it returns the
    stored array when the stored text parses to a non-empty array, and the
    default items in every other case (storage unavailable, nothing stored,
    text that does not parse, a value that is not an array, the empty
    array). *)
Theorem loadFromLocalStorage_never_empty (J : Impl) (g : GetItem) :
  loadFromLocalStorage J g <> []
  /\ (loadFromLocalStorage J g = defaults
      \/ exists raw, g = Stored raw /\ raw <> EmptyString
                     /\ parse J raw = Some (JArray (loadFromLocalStorage J g)))
  /\ (forall raw x l, g = Stored raw -> raw <> EmptyString ->
        parse J raw = Some (JArray (x :: l)) ->
        loadFromLocalStorage J g = x :: l)
  /\ (forall raw, g = Stored raw ->
        (forall x l, parse J raw <> Some (JArray (x :: l))) ->
        loadFromLocalStorage J g = defaults).
Proof.
  assert (D : defaults <> []) by discriminate.
  split; [|split; [|split]].
  - destruct g as [| |[|c raw]]; cbn; try exact D.
    destruct (parse J (String c raw)) as [[| | | | |[|x l]|]|]; try exact D.
    discriminate.
  - destruct g as [| |[|c raw]]; cbn; auto.
    destruct (parse J (String c raw)) as [[| | | | |[|x l]|]|] eqn:E; auto.
    right. exists (String c raw). repeat split; [discriminate | exact E].
  - intros raw x l -> Hne E. destruct raw as [|c raw]; [contradiction|].
    cbn. now rewrite E.
  - intros raw -> H. destruct raw as [|c raw]; [reflexivity|]. cbn.
    destruct (parse J (String c raw)) as [[| | | | |[|x l]|]|] eqn:E; auto.
    exfalso. now apply (H x l).
Qed.

Lemma loadFromLocalStorage_never_empty_witness :
  loadFromLocalStorage reference (Stored "[7]") = [JNumber 7]
  /\ loadFromLocalStorage reference (Stored "{}") = defaults.
Proof.
  destruct (loadFromLocalStorage_never_empty reference (Stored "[7]"))
    as (_ & _ & A & _).
  destruct (loadFromLocalStorage_never_empty reference (Stored "{}"))
    as (_ & _ & _ & B).
  split.
  - apply (A "[7]" (JNumber 7) []); [reflexivity | discriminate | reflexivity].
  - apply (B "{}"); [reflexivity | discriminate].
Defined.

(** Saving and loading again, for a list whose whole numbers have a
    magnitude of at most [2 ^ 53]: a list that is not empty comes back with
    [null] in the place of every number that is not finite, hence as it was
    saved when all its numbers are finite; the empty list comes back as the
    default items; and when [setItem] throws, the store keeps what it
    held. *)
Theorem save_then_load (items : list json) (store : GetItem) :
  forallb inRange items = true ->
  loadFromLocalStorage browserJSON (saveToLocalStorage browserJSON false items store)
  = match items with [] => defaults | _ :: _ => map nullify items end
  /\ (forallb finite items = true -> items <> [] ->
      loadFromLocalStorage browserJSON
        (saveToLocalStorage browserJSON false items store) = items)
  /\ saveToLocalStorage browserJSON true items store = store.
Proof.
  intros X.
  assert (L : loadFromLocalStorage browserJSON
                (saveToLocalStorage browserJSON false items store)
              = match items with [] => defaults | _ :: _ => map nullify items end).
  { unfold saveToLocalStorage. cbn [stringify browserJSON].
    assert (E : exists c s, compact (JArray items) = String c s)
      by (destruct items; cbn; eauto).
    destruct E as [c [s E]].
    unfold loadFromLocalStorage. rewrite E, <- E. cbn [parse browserJSON].
    rewrite (read_compact (JArray items) X). destruct items; reflexivity. }
  split; [exact L|]. split; [|reflexivity].
  intros F Hne. rewrite L. destruct items as [|x l]; [contradiction|].
  assert (K : nullify (JArray (x :: l)) = JArray (x :: l))
    by now apply nullify_finite.
  cbn [nullify map] in K. injection K as K1 K2. cbn [map]. now rewrite K1, K2.
Qed.

Lemma save_then_load_witness :
  loadFromLocalStorage browserJSON
    (saveToLocalStorage browserJSON false
       [JNumber 7; JNonFinite NegInfinity; JString "a"] Absent)
  = [JNumber 7; JNull; JString "a"]
  /\ loadFromLocalStorage browserJSON
       (saveToLocalStorage browserJSON false defaults Throws) = defaults.
Proof.
  split.
  - exact (proj1 (save_then_load [JNumber 7; JNonFinite NegInfinity; JString "a"]
                    Absent eq_refl)).
  - exact (proj1 (proj2 (save_then_load defaults Throws eq_refl)) eq_refl
             ltac:(discriminate)).
Defined.
End StorageFacts.

(** ** The self-tests of the classifier *)

Module SelfTestFacts.
Import Str Classifier SelfTest.

Lemma startsWith_trans (t w y : string) :
  startsWith t w = true -> startsWith w y = true -> startsWith t y = true.
Proof.
  rewrite !StrFacts.startsWith_spec. intros [r ->] [r' ->].
  exists (r' ++ r)%string. apply JsonFacts.append_assoc.
Qed.

(** A transcript whose normal form starts with a negative phrase that
    itself begins with an affirmative phrase is classified [yes], never
    [no]; eight of the fourteen negative phrases are of this kind. *)
Theorem shadowed_negative_phrases :
  shadowed = ["i don't"; "i did not"; "i didn't"; "i am not"; "i will not";
              "i can't"; "it isn't"; "it is not"]
  /\ forall w s, In w shadowed ->
       startsWith (normalize s) w = true ->
       parseYesNo (Some s) = Some yes.
Proof.
  split; [reflexivity|].
  intros w s Hw Hs. unfold shadowed in Hw. apply filter_In in Hw.
  destruct Hw as [_ Hw]. apply existsb_exists in Hw. destruct Hw as [y [Hy Hwy]].
  assert (M : existsb (phrase_matches (normalize s)) yesWords = true).
  { apply existsb_exists. exists y. split; [exact Hy|].
    unfold phrase_matches. now rewrite (startsWith_trans _ _ _ Hs Hwy). }
  destruct s as [|c s']; [|unfold parseYesNo; cbv zeta; now rewrite M].
  exfalso. apply StrFacts.startsWith_spec in Hs. destruct Hs as [r Hr].
  apply StrFacts.startsWith_spec in Hwy. destruct Hwy as [r' ->].
  cbn in Hy. vm_compute in Hr.
  repeat (destruct Hy as [<- | Hy]; [discriminate Hr|]). contradiction.
Qed.

Lemma shadowed_negative_phrases_witness :
  parseYesNo (Some "I will not go there.") = Some yes.
Proof.
  apply (proj2 shadowed_negative_phrases "i will not").
  - cbn. tauto.
  - reflexivity.
Defined.

(** Of its fourteen cases the self-test effect reports four: the three
    negative answers that begin with an affirmative phrase, classified
    [yes], and "Absolutely yes", where "yes" neither starts the transcript
    nor stands between two spaces, classified [null]. *)
Theorem self_tests_failures :
  failures = [("I don't know", Some no, Some yes);
              ("Absolutely yes", Some yes, None);
              ("I will not.", Some no, Some yes);
              ("It isn't.", Some no, Some yes)].
Proof. vm_compute. reflexivity. Qed.

End SelfTestFacts.
